(** * Buffered file stream (libim/io/filestream): model and properties

    A shallow embedding of [FileStream::FileStreamImpl] and of the
    [FileStream] members that delegate to it.  The POSIX branch of the
    source (the code under [#else] of [OS_WINDOWS]) is the one embedded;
    the operating system is an explicit state that the stream functions
    thread next to the object itself.  [GradiantColor::toString] of
    libim/content/text/gradiantcolor.h is embedded next to them. *)

From Stdlib Require Import ZArith Lia List String Ascii.
From stdpp Require Import base list gmap strings.

Open Scope Z_scope.

(** ** Machine integers *)

(** [std::size_t] is a 64-bit unsigned integer: sums and differences wrap. *)
Definition SIZE_WIDTH : Z := 64.
Definition wrap (z : Z) : Z := z mod 2 ^ SIZE_WIDTH.

(** Largest [off_t] / [ssize_t] / [ptrdiff_t] value. *)
Definition OFF_MAX : Z := 2 ^ 63 - 1.

Definition byte_t : Type := Byte.byte.

(** [constexpr std::size_t kBufferSize = 4096;] *)
Definition kBufferSize : Z := 4096.

(** [#define MAX_WRITE_FILE_SIZE 1'000'000'000 // 1GB] *)
Definition MAX_WRITE_FILE_SIZE : Z := 1000000000.

(** [enum Mode { Read, Write, ReadWrite }] of [FileStream]. *)
Inductive Mode : Type := Read | Write | ReadWrite.

Definition Mode_eqb (a b : Mode) : bool :=
  match a, b with
  | Read, Read | Write, Write | ReadWrite, ReadWrite => true
  | _, _ => false
  end.

(** ** The write buffer, [IOBuffer<kBufferSize>]

    The source keeps a [std::array] and an iterator [pos_] into it.  No
    member ever reads a cell at or after [pos_], so the model keeps the
    cells of [[begin, pos_)] only: [pos_ - begin] is their number. *)
Module IOBuffer.

Record t : Type := { staged : list byte_t }.

Definition empty : t := {| staged := [] |}.

(** [size()]: distance from [begin] to [pos_]. *)
Definition size (b : t) : Z := Z.of_nat (length (staged b)).

(** [capacity()]. *)
Definition capacity (b : t) : Z := kBufferSize.

(** [hasData()]: [pos_ != begin]. *)
Definition hasData (b : t) : bool := negb (size b =? 0).

(** [reset()]: [pos_ = begin]. *)
Definition reset (b : t) : t := empty.

(** [write(data, size)]: copies what fits, returns how much that was. *)
Definition write (b : t) (data : list byte_t) (sz : Z) : t * Z :=
  let room := kBufferSize - size b in
  let nWrite := if sz <? room then sz else room in
  ({| staged := staged b ++ take (Z.to_nat nWrite) data |}, nWrite).

End IOBuffer.

(** ** The native layer: files, descriptors and the system calls

    A file is its byte content, named by its path.  A descriptor is a slot
    of the process' table holding the path it was opened on, its access
    flags and its offset.  A call fails where POSIX says it must for the
    state at hand (a descriptor that is not open or lacks the access, a
    missing file, an offset no [off_t] holds); failures of the medium are
    not modelled, and a read hands over all the bytes there are, up to
    the length asked for.  [limits] lets the device cut short the coming
    [::write] calls: its head bounds the bytes the next call transfers,
    and an exhausted list means full transfers.  [wlog] records every
    [::write] call that was issued, as (bytes requested, value returned). *)
Module Native.

Record OpenFile : Type := {
  path : string;
  readable : bool;
  writable : bool;
  pos : Z
}.

Record OS : Type := {
  files : gmap string (list byte_t);
  fds : gmap nat OpenFile;
  limits : list Z;
  wlog : list (Z * Z)
}.

Definition get (os : OS) (fd : Z) : option OpenFile :=
  if fd <? 0 then None else fds os !! Z.to_nat fd.

Definition content (os : OS) (p : string) : list byte_t :=
  default [] (files os !! p).

(** The lowest descriptor number that is not in use. *)
Fixpoint first_free (tbl : gmap nat OpenFile) (fuel : nat) (n : nat) : nat :=
  match fuel with
  | O => n
  | S fuel' =>
      match tbl !! n with
      | Some _ => first_free tbl fuel' (S n)
      | None => n
      end
  end.

Definition lowest_free (os : OS) : nat := first_free (fds os) (size (fds os)) 0.

(** [std::filesystem::remove(path)]. *)
Definition remove (os : OS) (p : string) : OS :=
  {| files := delete p (files os); fds := fds os;
     limits := limits os; wlog := wlog os |}.

(** [open(path, flags, 0600)] for the three flag sets of the source:
    [O_RDONLY] wants an existing file, the two others carry
    [O_CREAT | O_TRUNC].  Returns the descriptor, or -1. *)
Definition open (os : OS) (p : string) (m : Mode) : OS * Z :=
  let fd := lowest_free os in
  let entry := {| path := p;
                  readable := negb (Mode_eqb m Write);
                  writable := negb (Mode_eqb m Read);
                  pos := 0 |} in
  match m with
  | Read =>
      match files os !! p with
      | None => (os, -1)
      | Some _ =>
          ({| files := files os; fds := <[fd := entry]> (fds os);
              limits := limits os; wlog := wlog os |}, Z.of_nat fd)
      end
  | _ =>
      ({| files := <[p := []]> (files os); fds := <[fd := entry]> (fds os);
          limits := limits os; wlog := wlog os |}, Z.of_nat fd)
  end.

(** [fstat(fd, &info)]: [Some st_size], or [None] for -1. *)
Definition fstat (os : OS) (fd : Z) : option Z :=
  match get os fd with
  | None => None
  | Some f => Some (Z.of_nat (length (content os (path f))))
  end.

(** [::read(fd, data, length)]: the bytes from the offset on, at most
    [length] of them, and their number; -1 on a descriptor that is not
    open for reading. *)
Definition read (os : OS) (fd : Z) (len : Z) : OS * Z * list byte_t :=
  match get os fd with
  | None => (os, -1, [])
  | Some f =>
      if readable f then
        let got := take (Z.to_nat len) (drop (Z.to_nat (pos f)) (content os (path f))) in
        let n := Z.of_nat (length got) in
        ({| files := files os;
            fds := <[Z.to_nat fd := {| path := path f; readable := readable f;
                                       writable := writable f; pos := pos f + n |}]> (fds os);
            limits := limits os; wlog := wlog os |}, n, got)
      else (os, -1, [])
  end.

(** What a file holds once [bs] went in at offset [p]: a gap between the
    old end and [p] reads as zero bytes. *)
Definition overwrite (c : list byte_t) (p : nat) (bs : list byte_t) : list byte_t :=
  take p c ++ repeat Byte.x00 (p - length c) ++ bs ++ drop (p + length bs) c.

(** [::write(fd, buf, n)] with [buf] holding the [n] bytes.  Returns the
    number of bytes transferred, or -1 on a descriptor that is not open
    for writing. *)
Definition write (os : OS) (fd : Z) (buf : list byte_t) : OS * Z :=
  let req := Z.of_nat (length buf) in
  match get os fd with
  | None =>
      ({| files := files os; fds := fds os; limits := limits os;
          wlog := wlog os ++ [(req, -1)] |}, -1)
  | Some f =>
      if writable f then
        let n := match limits os with
                 | [] => req
                 | cap :: _ => Z.max 0 (Z.min cap req)
                 end in
        let sent := take (Z.to_nat n) buf in
        ({| files := <[path f := overwrite (content os (path f)) (Z.to_nat (pos f)) sent]>
                       (files os);
            fds := <[Z.to_nat fd := {| path := path f; readable := readable f;
                                       writable := writable f; pos := pos f + n |}]> (fds os);
            limits := tail (limits os);
            wlog := wlog os ++ [(req, n)] |}, n)
      else
        ({| files := files os; fds := fds os; limits := limits os;
            wlog := wlog os ++ [(req, -1)] |}, -1)
  end.

(** [lseek(fd, position, SEEK_SET)].  [position] arrives as a
    [std::size_t] and is taken as an [off_t]: beyond [OFF_MAX] it is
    negative there, which the call refuses.  Returns the new offset,
    or -1. *)
Definition lseek (os : OS) (fd : Z) (position : Z) : OS * Z :=
  match get os fd with
  | None => (os, -1)
  | Some f =>
      if position <=? OFF_MAX then
        ({| files := files os;
            fds := <[Z.to_nat fd := {| path := path f; readable := readable f;
                                       writable := writable f; pos := position |}]> (fds os);
            limits := limits os; wlog := wlog os |}, position)
      else (os, -1)
  end.

(** [::close(fd)]; [fsync] before it changes nothing that is modelled. *)
Definition close (os : OS) (fd : Z) : OS :=
  if fd <? 0 then os
  else {| files := files os; fds := delete (Z.to_nat fd) (fds os);
          limits := limits os; wlog := wlog os |}.

End Native.

(** ** Outcomes *)

(** Every failure of the source is a [FileStreamError]; the constructors
    are its throw sites, named after the message they carry. *)
Inductive FileStreamError : Type :=
| OpenFailed          (* strerror(errno) after open *)
| FileSizeFailed      (* "Error getting the file size: " *)
| ReadFailed          (* "Failed to read from file: " *)
| WriteFailed         (* "Failed to write data to file: " *)
| SeekFailed          (* "Failed to seek to position: " *)
| MaxFileSize.        (* "Wrote to max file size limit" *)

(** How a call ends: it returns a value, it throws, or the loop it runs
    has not finished within the steps it was given. *)
Inductive outcome (A : Type) : Type :=
| Returned (a : A)
| Thrown (e : FileStreamError)
| Unfinished.

Arguments Returned {A} a.
Arguments Thrown {A} e.
Arguments Unfinished {A}.

(** ** [FileStream::FileStreamImpl] *)
Module Impl.

Record t : Type := {
  mode : Mode;
  filePath : string;
  fileSize : Z;
  currentOffset : Z;
  buffer_ : IOBuffer.t;
  fd : Z
}.

Definition set_buffer (s : t) (b : IOBuffer.t) : t :=
  {| mode := mode s; filePath := filePath s; fileSize := fileSize s;
     currentOffset := currentOffset s; buffer_ := b; fd := fd s |}.

Definition set_offsets (s : t) (off sz : Z) : t :=
  {| mode := mode s; filePath := filePath s; fileSize := sz;
     currentOffset := off; buffer_ := buffer_ s; fd := fd s |}.

Definition set_fd (s : t) (d : Z) : t :=
  {| mode := mode s; filePath := filePath s; fileSize := fileSize s;
     currentOffset := currentOffset s; buffer_ := buffer_ s; fd := d |}.

Definition writes (m : Mode) : bool :=
  match m with Write | ReadWrite => true | Read => false end.

(** The constructor, given the path as [GetNativePath] returned it.  The
    flag switch never reaches its default for a value of [Mode]. *)
Definition make (os : Native.OS) (fp : string) (truncate : bool) (m : Mode)
  : outcome t * Native.OS :=
  let os0 := if truncate && negb (Mode_eqb m Read) then Native.remove os fp else os in
  let '(os1, d) := Native.open os0 fp m in
  if d =? -1 then (Thrown OpenFailed, os1)
  else
    match Native.fstat os1 d with
    | None => (Thrown FileSizeFailed, os1)
    | Some sz =>
        (Returned {| mode := m; filePath := fp; fileSize := sz; currentOffset := 0;
                     buffer_ := IOBuffer.empty; fd := d |}, os1)
    end.

(** [read(data, length)]: one native read; the bytes that landed in
    [data] are returned next to their number. *)
Definition read (s : t) (os : Native.OS) (len : Z)
  : outcome Z * list byte_t * t * Native.OS :=
  let '(os1, nRead, got) := Native.read os (fd s) len in
  if nRead =? -1 then (Thrown ReadFailed, [], s, os1)
  else
    (Returned nRead, got,
     set_offsets s (wrap (currentOffset s + nRead)) (fileSize s), os1).

(** [flush()]. *)
Definition flush (s : t) (os : Native.OS) : outcome Z * t * Native.OS :=
  if writes (mode s) && IOBuffer.hasData (buffer_ s) then
    let '(os1, nWritten) := Native.write os (fd s) (IOBuffer.staged (buffer_ s)) in
    if nWritten =? -1 then (Thrown WriteFailed, s, os1)
    else (Returned nWritten, set_buffer s (IOBuffer.reset (buffer_ s)), os1)
  else (Returned 0, s, os).

(** One turn of the [do ... while] of [write]: either the call is over,
    or the loop goes round again with the rest of [data]. *)
Inductive turn : Type :=
| Done (r : outcome Z * t * Native.OS)
| Again (s : t) (os : Native.OS) (data : list byte_t) (nTotalWritten : Z).

Definition write_tail (s : t) (os : Native.OS) (data : list byte_t)
    (len nTotalWritten nWritten : Z) : turn :=
  let nTotalWritten := wrap (nTotalWritten + nWritten) in
  let data := drop (Z.to_nat nWritten) data in
  if MAX_WRITE_FILE_SIZE <=? wrap (currentOffset s + nTotalWritten) then
    Done (Thrown MaxFileSize, s, os)
  else if nTotalWritten <? len then Again s os data nTotalWritten
  else
    let off := wrap (currentOffset s + nTotalWritten) in
    let sz := if fileSize s <? off then off else fileSize s in
    Done (Returned nTotalWritten, set_offsets s off sz, os).

Definition write_turn (s : t) (os : Native.OS) (data : list byte_t)
    (len nTotalWritten : Z) : turn :=
  let '(b, nWritten) := IOBuffer.write (buffer_ s) data (wrap (len - nTotalWritten)) in
  let s := set_buffer s b in
  if nWritten <? len then
    match flush s os with
    | (Returned nFlushed, s1, os1) =>
        if nFlushed <? nWritten then Done (Returned nFlushed, s1, os1)
        else write_tail s1 os1 data len nTotalWritten nWritten
    | r => Done r
    end
  else write_tail s os data len nTotalWritten nWritten.

Fixpoint write_loop (fuel : nat) (s : t) (os : Native.OS) (data : list byte_t)
    (len nTotalWritten : Z) : outcome Z * t * Native.OS :=
  match fuel with
  | O => (Unfinished, s, os)
  | S fuel' =>
      match write_turn s os data len nTotalWritten with
      | Done r => r
      | Again s1 os1 data1 n1 => write_loop fuel' s1 os1 data1 len n1
      end
  end.

(** [write(data, length)], [data] being the [length] bytes. *)
Definition write (fuel : nat) (s : t) (os : Native.OS) (data : list byte_t)
  : outcome Z * t * Native.OS :=
  write_loop fuel s os data (Z.of_nat (length data)) 0.

(** [seek(position)]. *)
Definition seek (s : t) (os : Native.OS) (position : Z)
  : outcome unit * t * Native.OS :=
  match flush s os with
  | (Thrown e, s1, os1) => (Thrown e, s1, os1)
  | (_, s1, os1) =>
      let '(os2, off) := Native.lseek os1 (fd s1) position in
      if off =? -1 then (Thrown SeekFailed, s1, os2)
      else
        let sz := if fileSize s1 <? position then position else fileSize s1 in
        (Returned tt, set_offsets s1 position sz, os2)
  end.

(** [close()]. *)
Definition close (s : t) (os : Native.OS) : outcome unit * t * Native.OS :=
  match flush s os with
  | (Thrown e, s1, os1) => (Thrown e, s1, os1)
  | (_, s1, os1) =>
      if 0 <? fd s1 then (Returned tt, set_fd s1 (-1), Native.close os1 (fd s1))
      else (Returned tt, s1, os1)
  end.

End Impl.

(** ** [FileStream]: the members that forward to the shared [m_fs] *)
Module FileStream.

Definition writesome := Impl.write.

Definition seek := Impl.seek.

Definition size (s : Impl.t) : Z := Impl.fileSize s.

Definition tell (s : Impl.t) : Z := Impl.currentOffset s.

Definition canRead (s : Impl.t) : bool :=
  Mode_eqb (Impl.mode s) Read || Mode_eqb (Impl.mode s) ReadWrite.

Definition canWrite (s : Impl.t) : bool :=
  Mode_eqb (Impl.mode s) Write || Mode_eqb (Impl.mode s) ReadWrite.

Definition close := Impl.close.

Definition readsome (s : Impl.t) (os : Native.OS) (len : Z)
  : outcome Z * list byte_t * Impl.t * Native.OS :=
  let len := if Impl.fileSize s <=? wrap (Impl.currentOffset s + len)
             then wrap (Impl.fileSize s - Impl.currentOffset s) else len in
  Impl.read s os len.

End FileStream.

(** ** [GradiantColor] (libim/content/text/gradiantcolor.h)

    The four colours of a gradient.  [Color] and its [toString()] come
    from math/color.h and are parameters here.  A [std::string] is the
    list of its characters. *)
Module GradiantColor.

Record t (Color : Type) : Type := {
  top : Color;
  middle : Color;
  bottomLeft : Color;
  bottomRight : Color
}.

Arguments top {Color} _.
Arguments middle {Color} _.
Arguments bottomLeft {Color} _.
Arguments bottomRight {Color} _.

(** [*(--str.end()) = c]: the last character becomes [c]; there is none
    to assign in an empty string. *)
Definition set_last (str : list ascii) (c : ascii) : option (list ascii) :=
  match str with
  | [] => None
  | _ => Some (removelast str ++ [c])
  end.

(** [str.substr(1)], which throws [std::out_of_range] on an empty
    string. *)
Definition substr1 (str : list ascii) : option (list ascii) :=
  match str with
  | [] => None
  | _ :: rest => Some rest
  end.

(** [toString()]; [None] where a step above has no result. *)
Definition toString {Color : Type} (Color_toString : Color -> list ascii) (g : t Color)
  : option (list ascii) :=
  topstr ← set_last (Color_toString (top g)) "/"%char;
  middlestr ← substr1 (Color_toString (middle g)) ≫= (fun str => set_last str "/"%char);
  bleftstr ← substr1 (Color_toString (bottomLeft g)) ≫= (fun str => set_last str "/"%char);
  brightstr ← substr1 (Color_toString (bottomRight g));
  Some (topstr ++ middlestr ++ bleftstr ++ brightstr).

End GradiantColor.

(** * Calls in sequence *)

(** The calls a user of [FileStream] makes, and what a call answers. *)
Inductive Op : Type :=
| OpWrite (data : list byte_t)
| OpSeek (position : Z)
| OpRead (len : Z)
| OpClose.

Inductive reply : Type :=
| Wrote (n : Z)
| Sought
| Got (n : Z) (bytes : list byte_t)
| Closed.

Definition exec (fuel : nat) (op : Op) (s : Impl.t) (os : Native.OS)
  : outcome reply * Impl.t * Native.OS :=
  match op with
  | OpWrite data =>
      match FileStream.writesome fuel s os data with
      | (Returned n, s', os') => (Returned (Wrote n), s', os')
      | (Thrown e, s', os') => (Thrown e, s', os')
      | (Unfinished, s', os') => (Unfinished, s', os')
      end
  | OpSeek position =>
      match FileStream.seek s os position with
      | (Returned _, s', os') => (Returned Sought, s', os')
      | (Thrown e, s', os') => (Thrown e, s', os')
      | (Unfinished, s', os') => (Unfinished, s', os')
      end
  | OpRead len =>
      match FileStream.readsome s os len with
      | (Returned n, got, s', os') => (Returned (Got n got), s', os')
      | (Thrown e, _, s', os') => (Thrown e, s', os')
      | (Unfinished, _, s', os') => (Unfinished, s', os')
      end
  | OpClose =>
      match FileStream.close s os with
      | (Returned _, s', os') => (Returned Closed, s', os')
      | (Thrown e, s', os') => (Thrown e, s', os')
      | (Unfinished, s', os') => (Unfinished, s', os')
      end
  end.

(** The calls of [ops] one after the other; a call that throws leaves the
    object as it is at the throw, and the next call finds it so. *)
Fixpoint run (fuel : nat) (ops : list Op) (s : Impl.t) (os : Native.OS)
  : list (outcome reply) * Impl.t * Native.OS :=
  match ops with
  | [] => ([], s, os)
  | op :: rest =>
      let '(r, s1, os1) := exec fuel op s os in
      let '(rs, s2, os2) := run fuel rest s1 os1 in
      (r :: rs, s2, os2)
  end.

(** Open [fp] in mode [m], as [FileStream(filePath, mode)] does, then make
    the calls of [ops]. *)
Definition session (os : Native.OS) (fp : string) (m : Mode) (fuel : nat) (ops : list Op)
  : option (list (outcome reply) * Impl.t * Native.OS) :=
  match Impl.make os fp false m with
  | (Returned s, os1) => Some (run fuel ops s os1)
  | _ => None
  end.

(** * Vocabulary of the properties *)

Import ListNotations.

(** ** What a caller observes *)

(** What the caller can tell after a session: the answers, [tell()] and
    [size()]. *)
Definition seen (r : option (list (outcome reply) * Impl.t * Native.OS))
  : option (list (outcome reply) * Z * Z) :=
  match r with
  | Some (rs, s, _) => Some (rs, FileStream.tell s, FileStream.size s)
  | None => None
  end.

(** What a session leaves in the log of native writes. *)
Definition native_writes (r : option (list (outcome reply) * Impl.t * Native.OS))
  : option (list (outcome reply) * list (Z * Z)) :=
  match r with
  | Some (rs, _, os) => Some (rs, Native.wlog os)
  | None => None
  end.

(** ** What a call leaves alone *)

(** The fields no member but the constructor assigns. *)
Definition same_identity (s s' : Impl.t) : Prop :=
  Impl.mode s' = Impl.mode s /\ Impl.fd s' = Impl.fd s /\
  Impl.filePath s' = Impl.filePath s.

(** The two counters behind [tell()] and [size()]. *)
Definition same_offsets (s s' : Impl.t) : Prop :=
  Impl.currentOffset s' = Impl.currentOffset s /\ Impl.fileSize s' = Impl.fileSize s.

(** How a call of [write] may leave the two counters: as they were, or,
    when it ran to its end, advanced by the count it returns. *)
Definition write_offsets (s : Impl.t) (r : outcome Z) (s' : Impl.t) : Prop :=
  same_offsets s s' \/
  exists n, r = Returned n /\
    wrap (Impl.currentOffset s + n) < MAX_WRITE_FILE_SIZE /\
    Impl.currentOffset s' = wrap (Impl.currentOffset s + n) /\
    Impl.fileSize s' =
      (if Impl.fileSize s <? wrap (Impl.currentOffset s + n)
       then wrap (Impl.currentOffset s + n) else Impl.fileSize s).

(** ** A stream on a well-behaved descriptor *)

(** [writer s os f]: the stream was opened for writing, its descriptor is
    the open, writable slot [f], and the device transfers in full. *)
Definition writer (s : Impl.t) (os : Native.OS) (f : Native.OpenFile) : Prop :=
  Impl.writes (Impl.mode s) = true /\
  Native.get os (Impl.fd s) = Some f /\
  Native.writable f = true /\
  Native.limits os = [].

(** The descriptor [d] is open for writing. *)
Definition open_for_writing (os : Native.OS) (d : Z) : Prop :=
  exists f, Native.get os d = Some f /\ Native.writable f = true.

(** The file of the descriptor exists, and the descriptor stands at its end. *)
Definition at_end (os : Native.OS) (f : Native.OpenFile) : Prop :=
  is_Some (Native.files os !! Native.path f) /\
  Native.pos f = Z.of_nat (length (Native.content os (Native.path f))).

(** The state a full [::write] of [buf] on descriptor [d] leads to. *)
Definition after_write (os : Native.OS) (d : Z) (f : Native.OpenFile)
    (buf : list byte_t) : Native.OS :=
  {| Native.files :=
       <[Native.path f :=
           Native.overwrite (Native.content os (Native.path f))
                            (Z.to_nat (Native.pos f)) buf]> (Native.files os);
     Native.fds :=
       <[Z.to_nat d := {| Native.path := Native.path f;
                          Native.readable := Native.readable f;
                          Native.writable := Native.writable f;
                          Native.pos := Native.pos f + Z.of_nat (length buf) |}]>
         (Native.fds os);
     Native.limits := [];
     Native.wlog := Native.wlog os ++ [(Z.of_nat (length buf), Z.of_nat (length buf))] |}.

(** What the file of [f] holds once the staged bytes of [s] are flushed. *)
Definition flushed (s : Impl.t) (os : Native.OS) (f : Native.OpenFile) : list byte_t :=
  match IOBuffer.staged (Impl.buffer_ s) with
  | [] => Native.content os (Native.path f)
  | staged =>
      Native.overwrite (Native.content os (Native.path f)) (Z.to_nat (Native.pos f)) staged
  end.

(** ** Streams a program can get to *)

(** No file is longer than an [off_t] can tell. *)
Definition fits_off_t (os : Native.OS) : Prop :=
  forall p c, Native.files os !! p = Some c -> Z.of_nat (length c) <= OFF_MAX.

(** Arguments a caller can pass: a [std::size_t] position, and for a read
    a length that some destination buffer can have. *)
Definition valid_op (op : Op) : Prop :=
  match op with
  | OpWrite _ => True
  | OpSeek position => 0 <= position < 2 ^ 64
  | OpRead len => 0 <= len <= OFF_MAX
  | OpClose => True
  end.

(** The states of a stream from its construction on, one call after the
    other; a call counts once it has returned or thrown. *)
Inductive reachable : Impl.t -> Native.OS -> Prop :=
| reach_make os fp truncate m s os1 :
    fits_off_t os ->
    Impl.make os fp truncate m = (Returned s, os1) ->
    reachable s os1
| reach_exec s os fuel op r s' os' :
    reachable s os ->
    valid_op op ->
    exec fuel op s os = (r, s', os') ->
    r <> Unfinished ->
    reachable s' os'.

(** The two counters are in order and within what an [off_t] can tell. *)
Definition counters_ok (s : Impl.t) : Prop :=
  0 <= Impl.currentOffset s <= Impl.fileSize s /\ Impl.fileSize s <= OFF_MAX.

(** The write buffer never holds more than its capacity. *)
Definition buffer_ok (s : Impl.t) : Prop :=
  IOBuffer.size (Impl.buffer_ s) <= kBufferSize.

(** ** Descriptors across calls *)

(** [same_slots os os']: the same descriptors are open in both, each on
    the path and with the access it had. *)
Definition same_slots (os os' : Native.OS) : Prop :=
  forall d,
    match Native.get os d with
    | Some f =>
        exists f', Native.get os' d = Some f' /\
          Native.path f' = Native.path f /\
          Native.readable f' = Native.readable f /\
          Native.writable f' = Native.writable f
    | None => Native.get os' d = None
    end.

(** ** What writes and seeks make of a file *)

(** [patch c p d]: the content [c] once the bytes [d] went in at offset
    [p]; no byte, no change. *)
Definition patch (c : list byte_t) (p : Z) (d : list byte_t) : list byte_t :=
  match d with
  | [] => c
  | _ => Native.overwrite c (Z.to_nat p) d
  end.

(** The file offset the next byte written through the stream goes to:
    the descriptor's, past the staged bytes. *)
Definition write_cursor (s : Impl.t) (f : Native.OpenFile) : Z :=
  Native.pos f + IOBuffer.size (Impl.buffer_ s).

(** What a file that held [c] holds after the writes and seeks of [ops],
    made with the cursor at [cur].  The account covers writes and seeks,
    and ends at any other call. *)
Fixpoint written (c : list byte_t) (cur : Z) (ops : list Op) : list byte_t :=
  match ops with
  | [] => c
  | OpWrite d :: rest => written (patch c cur d) (cur + Z.of_nat (length d)) rest
  | OpSeek p :: rest => written c p rest
  | _ => c
  end.

(** Where these calls leave the cursor, and the size they make the
    stream report. *)
Fixpoint cursor_after (cur : Z) (ops : list Op) : Z :=
  match ops with
  | [] => cur
  | OpWrite d :: rest => cursor_after (cur + Z.of_nat (length d)) rest
  | OpSeek p :: rest => cursor_after p rest
  | _ => cur
  end.

Fixpoint size_after (sz cur : Z) (ops : list Op) : Z :=
  match ops with
  | [] => sz
  | OpWrite d :: rest =>
      size_after (Z.max sz (cur + Z.of_nat (length d))) (cur + Z.of_nat (length d)) rest
  | OpSeek p :: rest => size_after (Z.max sz p) p rest
  | _ => sz
  end.

(** The answers of writes and seeks that all return. *)
Fixpoint acknowledged (ops : list Op) : list (outcome reply) :=
  match ops with
  | OpWrite d :: rest => Returned (Wrote (Z.of_nat (length d))) :: acknowledged rest
  | OpSeek _ :: rest => Returned Sought :: acknowledged rest
  | _ => []
  end.

(** [ops] holds writes that end below the size limit, within [fuel]
    turns each, and seeks to positions an [off_t] can hold. *)
Fixpoint writes_and_seeks (fuel : nat) (cur : Z) (ops : list Op) : Prop :=
  match ops with
  | [] => True
  | OpWrite d :: rest =>
      cur + Z.of_nat (length d) < MAX_WRITE_FILE_SIZE /\ (length d + 2 <= fuel)%nat /\
      writes_and_seeks fuel (cur + Z.of_nat (length d)) rest
  | OpSeek p :: rest => 0 <= p <= OFF_MAX /\ writes_and_seeks fuel p rest
  | _ :: _ => False
  end.

(** The stream [s] writes through the slot [f], whose file will hold [c]
    once the staged bytes are out; [tell()] is the write cursor. *)
Definition writing (s : Impl.t) (os : Native.OS) (f : Native.OpenFile)
    (c : list byte_t) : Prop :=
  writer s os f /\
  IOBuffer.size (Impl.buffer_ s) <= kBufferSize /\
  0 <= Native.pos f /\
  is_Some (Native.files os !! Native.path f) /\
  flushed s os f = c /\
  write_cursor s f = Impl.currentOffset s.

(** ** What seeks and reads are answered *)

(** The answers of a cursor over the content [c] to seeks and reads: a
    read hands over the bytes from the cursor on, as many as were asked
    for when [c] has them, and moves the cursor past them; a seek moves
    the cursor, or throws for a position no [off_t] holds. *)
Fixpoint served (c : list byte_t) (cur : Z) (ops : list Op) : list (outcome reply) :=
  match ops with
  | OpRead len :: rest =>
      let got := take (Z.to_nat len) (drop (Z.to_nat cur) c) in
      Returned (Got (Z.of_nat (length got)) got)
        :: served c (cur + Z.of_nat (length got)) rest
  | OpSeek p :: rest =>
      if p <=? OFF_MAX then Returned Sought :: served c p rest
      else Thrown SeekFailed :: served c cur rest
  | _ => []
  end.

(** [ops] holds seeks and reads only, with arguments a caller can pass. *)
Definition seeks_and_reads (ops : list Op) : Prop :=
  Forall (fun op => match op with
                    | OpSeek _ | OpRead _ => valid_op op
                    | _ => False
                    end) ops.

(** The stream [s] reads through an open slot on a file that holds [c]:
    the slot stands at [tell()], nothing is staged for writing, and the
    counters are in order. *)
Definition reading (s : Impl.t) (os : Native.OS) (c : list byte_t) : Prop :=
  exists f,
    Native.get os (Impl.fd s) = Some f /\
    Native.readable f = true /\
    Native.files os !! Native.path f = Some c /\
    Native.pos f = Impl.currentOffset s /\
    0 <= Impl.currentOffset s <= Impl.fileSize s /\
    Z.of_nat (length c) <= Impl.fileSize s <= OFF_MAX /\
    Impl.writes (Impl.mode s) && IOBuffer.hasData (Impl.buffer_ s) = false.

(** The bytes the reads of a session handed over, in order. *)
Fixpoint bytes_read (rs : list (outcome reply)) : list byte_t :=
  match rs with
  | [] => []
  | Returned (Got _ bytes) :: rest => bytes ++ bytes_read rest
  | _ :: rest => bytes_read rest
  end.

(** ** Processes and streams to run examples in *)

Definition tty : Native.OpenFile :=
  {| Native.path := "/dev/tty"; Native.readable := true;
     Native.writable := true; Native.pos := 0 |}.

(** The three standard streams open, no file yet, a device that transfers
    in full. *)
Definition boot : Native.OS :=
  {| Native.files := ∅;
     Native.fds := <[0%nat := tty]> (<[1%nat := tty]> (<[2%nat := tty]> ∅));
     Native.limits := [];
     Native.wlog := [] |}.

(** [n] zero bytes. *)
Definition zeros (n : nat) : list byte_t := repeat Byte.x00 n.

(** The stream right after "out.bin" was opened for writing in [boot],
    and the same stream once closed. *)
Definition fresh_writer : Impl.t :=
  {| Impl.mode := Write; Impl.filePath := "out.bin";
     Impl.fileSize := 0; Impl.currentOffset := 0;
     Impl.buffer_ := IOBuffer.empty; Impl.fd := 3 |}.

Definition fresh_file : Native.OpenFile :=
  {| Native.path := "out.bin"; Native.readable := false;
     Native.writable := true; Native.pos := 0 |}.

Definition fresh_os : Native.OS :=
  {| Native.files := {["out.bin" := []]};
     Native.fds := <[3%nat := fresh_file]> (Native.fds boot);
     Native.limits := [];
     Native.wlog := [] |}.

Definition closed_writer : Impl.t :=
  {| Impl.mode := Write; Impl.filePath := "out.bin";
     Impl.fileSize := 0; Impl.currentOffset := 0;
     Impl.buffer_ := IOBuffer.empty; Impl.fd := -1 |}.

Definition closed_os : Native.OS :=
  {| Native.files := {["out.bin" := []]};
     Native.fds := Native.fds boot;
     Native.limits := [];
     Native.wlog := [] |}.

(** A stream opened on "out.bin" for writing and moved one byte short of
    the limit, with the process it lives in. *)
Definition near_limit : Impl.t :=
  {| Impl.mode := Write; Impl.filePath := "out.bin";
     Impl.fileSize := 999999999; Impl.currentOffset := 999999999;
     Impl.buffer_ := IOBuffer.empty; Impl.fd := 3 |}.

Definition near_limit_file : Native.OpenFile :=
  {| Native.path := "out.bin"; Native.readable := false;
     Native.writable := true; Native.pos := 999999999 |}.

Definition near_limit_os : Native.OS :=
  {| Native.files := {["out.bin" := []]};
     Native.fds := <[3%nat := near_limit_file]> (Native.fds boot);
     Native.limits := [];
     Native.wlog := [] |}.

(** The same stream after a write of two bytes threw at the limit. *)
Definition over_limit : Impl.t :=
  {| Impl.mode := Write; Impl.filePath := "out.bin";
     Impl.fileSize := 999999999; Impl.currentOffset := 999999999;
     Impl.buffer_ := {| IOBuffer.staged := [Byte.x01; Byte.x02] |}; Impl.fd := 3 |}.

(** A process with a two-byte file "in.bin". *)
Definition disk : Native.OS :=
  {| Native.files := {["in.bin" := [Byte.x01; Byte.x02]]};
     Native.fds := Native.fds boot;
     Native.limits := [];
     Native.wlog := [] |}.

Definition disk_reader : Impl.t :=
  {| Impl.mode := Read; Impl.filePath := "in.bin";
     Impl.fileSize := 2; Impl.currentOffset := 0;
     Impl.buffer_ := IOBuffer.empty; Impl.fd := 3 |}.

Definition disk_file : Native.OpenFile :=
  {| Native.path := "in.bin"; Native.readable := true;
     Native.writable := false; Native.pos := 0 |}.

Definition disk_open : Native.OS :=
  {| Native.files := {["in.bin" := [Byte.x01; Byte.x02]]};
     Native.fds := <[3%nat := disk_file]> (Native.fds boot);
     Native.limits := [];
     Native.wlog := [] |}.

(** A process whose device takes only 4090 bytes in the next native
    write. *)
Definition stingy : Native.OS :=
  {| Native.files := ∅;
     Native.fds := Native.fds boot;
     Native.limits := [4090];
     Native.wlog := [] |}.

(** The process of [fresh_writer], with a device that takes only 4000
    bytes in the next native write. *)
Definition fresh_os_short : Native.OS :=
  {| Native.files := {["out.bin" := []]};
     Native.fds := <[3%nat := fresh_file]> (Native.fds boot);
     Native.limits := [4000];
     Native.wlog := [] |}.

(** A stream opened on "in.bin" for reading whose buffer was filled by
    writes all the same. *)
Definition stuffed_reader : Impl.t :=
  {| Impl.mode := Read; Impl.filePath := "in.bin";
     Impl.fileSize := 4096; Impl.currentOffset := 4096;
     Impl.buffer_ := {| IOBuffer.staged := zeros 4096 |}; Impl.fd := 3 |}.

(** A process that closed its standard streams, with the file "in.bin";
    the stream right after "in.bin" was opened for reading in it, on
    descriptor 0. *)
Definition detached : Native.OS :=
  {| Native.files := {["in.bin" := [Byte.x01; Byte.x02]]};
     Native.fds := ∅;
     Native.limits := [];
     Native.wlog := [] |}.

Definition detached_reader : Impl.t :=
  {| Impl.mode := Read; Impl.filePath := "in.bin";
     Impl.fileSize := 2; Impl.currentOffset := 0;
     Impl.buffer_ := IOBuffer.empty; Impl.fd := 0 |}.

Definition detached_open : Native.OS :=
  {| Native.files := {["in.bin" := [Byte.x01; Byte.x02]]};
     Native.fds := {[0%nat := disk_file]};
     Native.limits := [];
     Native.wlog := [] |}.

(** The process of [fresh_writer] with three bytes staged, on a device
    that takes only two bytes in the next native write. *)
Definition staged_writer : Impl.t :=
  {| Impl.mode := Write; Impl.filePath := "out.bin";
     Impl.fileSize := 3; Impl.currentOffset := 3;
     Impl.buffer_ := {| IOBuffer.staged := [Byte.x01; Byte.x02; Byte.x03] |}; Impl.fd := 3 |}.

Definition fresh_os_two : Native.OS :=
  {| Native.files := {["out.bin" := []]};
     Native.fds := <[3%nat := fresh_file]> (Native.fds boot);
     Native.limits := [2];
     Native.wlog := [] |}.

(** * Properties *)

(** ** Arithmetic of [std::size_t] *)

Lemma wrap_small (z : Z) : 0 <= z < 2 ^ 64 -> wrap z = z.
Proof. intros H. unfold wrap, SIZE_WIDTH. apply Z.mod_small. exact H. Qed.

Lemma wrap_range (z : Z) : 0 <= wrap z < 2 ^ 64.
Proof. unfold wrap, SIZE_WIDTH. apply Z.mod_pos_bound. lia. Qed.

Lemma kBufferSize_val : kBufferSize = 4096.
Proof. reflexivity. Qed.

Lemma MAX_WRITE_FILE_SIZE_val : MAX_WRITE_FILE_SIZE = 1000000000.
Proof. reflexivity. Qed.

Lemma OFF_MAX_val : OFF_MAX = 9223372036854775807.
Proof. reflexivity. Qed.

Global Opaque kBufferSize MAX_WRITE_FILE_SIZE OFF_MAX wrap.

(** ** The write buffer *)

Lemma buffer_size_nonneg (b : IOBuffer.t) : 0 <= IOBuffer.size b.
Proof. unfold IOBuffer.size. lia. Qed.

Lemma buffer_hasData_true (b : IOBuffer.t) :
  IOBuffer.hasData b = true <-> IOBuffer.staged b <> [].
Proof.
  unfold IOBuffer.hasData, IOBuffer.size.
  destruct (IOBuffer.staged b) as [|x l]; simpl; split; intros H; try easy.
Qed.

Lemma buffer_hasData_false (b : IOBuffer.t) :
  IOBuffer.hasData b = false <-> IOBuffer.staged b = [].
Proof.
  unfold IOBuffer.hasData, IOBuffer.size.
  destruct (IOBuffer.staged b) as [|x l]; simpl; split; intros H; try easy.
Qed.

(** What [IOBuffer::write] accepts is the smaller of the request and the
    room left, and it is that prefix of the data that gets staged. *)
Lemma buffer_write_spec (b : IOBuffer.t) (data : list byte_t) (sz : Z) :
  IOBuffer.write b data sz =
    ({| IOBuffer.staged :=
          IOBuffer.staged b ++ take (Z.to_nat (Z.min sz (kBufferSize - IOBuffer.size b))) data |},
     Z.min sz (kBufferSize - IOBuffer.size b)).
Proof.
  unfold IOBuffer.write.
  destruct (Z.ltb_spec sz (kBufferSize - IOBuffer.size b)).
  - rewrite Z.min_l by lia. reflexivity.
  - rewrite Z.min_r by lia. reflexivity.
Qed.

(** ** The native layer *)

Lemma native_get_nonneg (os : Native.OS) (d : Z) (f : Native.OpenFile) :
  Native.get os d = Some f -> 0 <= d.
Proof.
  unfold Native.get. destruct (Z.ltb_spec d 0); [discriminate | lia].
Qed.


Lemma native_get_insert tbl fls lm lg (d : nat) (e : Native.OpenFile) :
  Native.get {| Native.files := fls; Native.fds := <[d := e]> tbl;
                Native.limits := lm; Native.wlog := lg |} (Z.of_nat d) = Some e.
Proof.
  unfold Native.get. simpl.
  destruct (Z.ltb_spec (Z.of_nat d) 0); [lia |].
  rewrite Nat2Z.id. apply lookup_insert_eq.
Qed.

Lemma native_write_full (os : Native.OS) (d : Z) (f : Native.OpenFile) (buf : list byte_t) :
  Native.get os d = Some f ->
  Native.writable f = true ->
  Native.limits os = [] ->
  Native.write os d buf = (after_write os d f buf, Z.of_nat (length buf)).
Proof.
  intros Hget Hw Hl. unfold Native.write, after_write.
  rewrite Hget, Hw, Hl. simpl.
  rewrite Nat2Z.id, firstn_all. reflexivity.
Qed.

Lemma after_write_get (os : Native.OS) (d : Z) (f : Native.OpenFile) (buf : list byte_t) :
  Native.get os d = Some f ->
  Native.get (after_write os d f buf) d =
    Some {| Native.path := Native.path f; Native.readable := Native.readable f;
            Native.writable := Native.writable f;
            Native.pos := Native.pos f + Z.of_nat (length buf) |}.
Proof.
  intros Hget. pose proof (native_get_nonneg _ _ _ Hget) as Hd.
  unfold Native.get, after_write. simpl.
  destruct (Z.ltb_spec d 0); [lia |]. apply lookup_insert_eq.
Qed.

Lemma after_write_content (os : Native.OS) (d : Z) (f : Native.OpenFile) (buf : list byte_t) :
  Native.content (after_write os d f buf) (Native.path f) =
    Native.overwrite (Native.content os (Native.path f)) (Z.to_nat (Native.pos f)) buf.
Proof.
  unfold Native.content at 1, after_write. simpl.
  rewrite lookup_insert_eq. reflexivity.
Qed.

Lemma after_write_content_at (os : Native.OS) (d : Z) (f : Native.OpenFile) buf (p : string) :
  Native.path f = p ->
  Native.content (after_write os d f buf) p =
    Native.overwrite (Native.content os p) (Z.to_nat (Native.pos f)) buf.
Proof. intros <-. apply after_write_content. Qed.

(** Writing at the end of a file appends. *)
Lemma overwrite_at_end (c bs : list byte_t) :
  Native.overwrite c (length c) bs = c ++ bs.
Proof.
  unfold Native.overwrite.
  rewrite firstn_all, Nat.sub_diag. simpl.
  rewrite skipn_all2 by lia. rewrite app_nil_r. reflexivity.
Qed.

Lemma overwrite_length (c : list byte_t) (p : nat) (bs : list byte_t) :
  length (Native.overwrite c p bs) = Nat.max (length c) (p + length bs).
Proof.
  unfold Native.overwrite.
  rewrite !length_app, length_take, repeat_length, length_drop. lia.
Qed.

Lemma close_content (os : Native.OS) (d : Z) (p : string) :
  Native.content (Native.close os d) p = Native.content os p.
Proof. unfold Native.close. destruct (d <? 0); reflexivity. Qed.

Lemma content_lookup (os : Native.OS) (p : string) :
  is_Some (Native.files os !! p) ->
  Native.files os !! p = Some (Native.content os p).
Proof. intros [c Hc]. unfold Native.content. rewrite Hc. reflexivity. Qed.

Lemma first_free_ge (tbl : gmap nat Native.OpenFile) (fuel n : nat) :
  (n <= Native.first_free tbl fuel n)%nat.
Proof.
  revert n. induction fuel as [|fuel IH]; intros n; simpl; [lia |].
  destruct (tbl !! n); [| lia]. specialize (IH (S n)). lia.
Qed.

(** With descriptor 0 taken, as it is while the standard input is open,
    a new descriptor is positive. *)
Lemma lowest_free_pos (os : Native.OS) :
  is_Some (Native.fds os !! 0%nat) -> (0 < Native.lowest_free os)%nat.
Proof.
  intros [f Hf]. unfold Native.lowest_free.
  destruct (size (Native.fds os)) as [|k] eqn:Hsz.
  - apply map_size_empty_inv in Hsz. rewrite Hsz, lookup_empty in Hf. discriminate.
  - simpl. rewrite Hf. pose proof (first_free_ge (Native.fds os) k 1). lia.
Qed.

(** ** Frame facts *)

Lemma same_identity_refl (s : Impl.t) : same_identity s s.
Proof. repeat split. Qed.

Lemma same_offsets_refl (s : Impl.t) : same_offsets s s.
Proof. split; reflexivity. Qed.

Lemma same_identity_trans (a b c : Impl.t) :
  same_identity a b -> same_identity b c -> same_identity a c.
Proof. unfold same_identity. intuition congruence. Qed.

Lemma same_offsets_trans (a b c : Impl.t) :
  same_offsets a b -> same_offsets b c -> same_offsets a c.
Proof. unfold same_offsets. intuition congruence. Qed.

Create HintDb frame.
#[local] Hint Resolve same_identity_refl same_offsets_refl : frame.

Lemma canWrite_writes (s : Impl.t) : FileStream.canWrite s = Impl.writes (Impl.mode s).
Proof. unfold FileStream.canWrite. destruct (Impl.mode s); reflexivity. Qed.

(** [flush] touches the buffer only. *)
Lemma flush_frame (s : Impl.t) (os : Native.OS) r s' os' :
  Impl.flush s os = (r, s', os') ->
  s' = s \/ s' = Impl.set_buffer s IOBuffer.empty.
Proof.
  unfold Impl.flush.
  destruct (Impl.writes (Impl.mode s) && IOBuffer.hasData (Impl.buffer_ s)).
  - destruct (Native.write os (Impl.fd s) _) as [os1 n].
    destruct (n =? -1); intros [= <- <- <-]; auto.
  - intros [= <- <- <-]. auto.
Qed.

Lemma flush_same (s : Impl.t) (os : Native.OS) r s' os' :
  Impl.flush s os = (r, s', os') -> same_identity s s' /\ same_offsets s s'.
Proof.
  intros H. destruct (flush_frame _ _ _ _ _ H) as [-> | ->];
    split; auto with frame; repeat split.
Qed.

(** [flush] never runs a loop. *)
Lemma flush_finishes (s : Impl.t) (os : Native.OS) s' os' :
  Impl.flush s os <> (Unfinished, s', os').
Proof.
  unfold Impl.flush.
  destruct (Impl.writes (Impl.mode s) && IOBuffer.hasData (Impl.buffer_ s)).
  - destruct (Native.write os (Impl.fd s) _) as [os1 n].
    destruct (n =? -1); discriminate.
  - discriminate.
Qed.

Lemma write_loop_S fuel s os data len n :
  Impl.write_loop (S fuel) s os data len n =
    match Impl.write_turn s os data len n with
    | Impl.Done r => r
    | Impl.Again s1 os1 data1 n1 => Impl.write_loop fuel s1 os1 data1 len n1
    end.
Proof. reflexivity. Qed.

Lemma write_tail_frame (s : Impl.t) (os : Native.OS) data len n k :
  match Impl.write_tail s os data len n k with
  | Impl.Done (r, s', os') => same_identity s s' /\ write_offsets s r s'
  | Impl.Again s' os' _ _ => same_identity s s' /\ same_offsets s s'
  end.
Proof.
  unfold Impl.write_tail.
  destruct (Z.leb_spec MAX_WRITE_FILE_SIZE (wrap (Impl.currentOffset s + wrap (n + k)))).
  - split; [auto with frame | left; auto with frame].
  - destruct (wrap (n + k) <? len).
    + split; auto with frame.
    + split; [repeat split |]. right. eexists. split; [reflexivity |].
      simpl. split; [assumption | split; reflexivity].
Qed.

Lemma write_turn_frame (s : Impl.t) (os : Native.OS) data len n :
  match Impl.write_turn s os data len n with
  | Impl.Done (r, s', os') => same_identity s s' /\ write_offsets s r s'
  | Impl.Again s' os' _ _ => same_identity s s' /\ same_offsets s s'
  end.
Proof.
  unfold Impl.write_turn.
  destruct (IOBuffer.write (Impl.buffer_ s) data (wrap (len - n))) as [b k].
  assert (Hb : same_identity s (Impl.set_buffer s b) /\ same_offsets s (Impl.set_buffer s b))
    by (repeat split).
  destruct Hb as [Hi Ho].
  destruct (k <? len).
  - destruct (Impl.flush (Impl.set_buffer s b) os) as [[r s1] os1] eqn:Hf.
    destruct (flush_same _ _ _ _ _ Hf) as [Hi1 Ho1].
    assert (Hi2 := same_identity_trans _ _ _ Hi Hi1).
    assert (Ho2 := same_offsets_trans _ _ _ Ho Ho1).
    destruct r as [nFlushed | e |].
    + destruct (nFlushed <? k).
      * split; [exact Hi2 | left; exact Ho2].
      * pose proof (write_tail_frame s1 os1 data len n k) as Ht.
        destruct (Impl.write_tail s1 os1 data len n k) as [[[r s2] os2] | s2 os2 d2 n2].
        -- destruct Ht as [Hi3 Ho3]. split; [eapply same_identity_trans; eauto |].
           destruct Ho2 as [Hc Hs]. destruct Ho3 as [Ho3 | (m & -> & Hm3 & Hc3 & Hs3)].
           ++ left. eapply same_offsets_trans; [split; eassumption | exact Ho3].
           ++ right. exists m. rewrite <- Hc, <- Hs. auto.
        -- destruct Ht as [Hi3 Ho3].
           split; [eapply same_identity_trans | eapply same_offsets_trans]; eauto.
    + split; [exact Hi2 | left; exact Ho2].
    + split; [exact Hi2 | left; exact Ho2].
  - pose proof (write_tail_frame (Impl.set_buffer s b) os data len n k) as Ht.
    destruct (Impl.write_tail (Impl.set_buffer s b) os data len n k)
      as [[[r s2] os2] | s2 os2 d2 n2]; exact Ht.
Qed.

Lemma write_loop_frame (fuel : nat) : forall s os data len n r s' os',
  Impl.write_loop fuel s os data len n = (r, s', os') ->
  same_identity s s' /\ write_offsets s r s'.
Proof.
  induction fuel as [|fuel IH]; intros s os data len n r s' os'; simpl.
  - intros [= <- <- <-]. split; [auto with frame | left; auto with frame].
  - pose proof (write_turn_frame s os data len n) as Ht.
    destruct (Impl.write_turn s os data len n) as [[[r1 s1] os1] | s1 os1 d1 n1].
    + intros [= <- <- <-]. exact Ht.
    + intros Hl. destruct (IH _ _ _ _ _ _ _ _ Hl) as [Hi Ho].
      destruct Ht as [Hi1 [Hc Hs]].
      split; [eapply same_identity_trans; eauto |].
      destruct Ho as [Ho | (m & -> & Hm3 & Hc3 & Hs3)].
      * left. eapply same_offsets_trans; [split; eassumption | exact Ho].
      * right. exists m. rewrite <- Hc, <- Hs. auto.
Qed.

Lemma seek_frame (s : Impl.t) (os : Native.OS) (position : Z) r s' os' :
  Impl.seek s os position = (r, s', os') -> same_identity s s'.
Proof.
  unfold Impl.seek. destruct (Impl.flush s os) as [[rf s1] os1] eqn:Hf.
  destruct (flush_same _ _ _ _ _ Hf) as [Hi _].
  assert (Hgo : (let '(os2, off) := Native.lseek os1 (Impl.fd s1) position in
                 if off =? -1 then (Thrown SeekFailed, s1, os2)
                 else (Returned tt,
                       Impl.set_offsets s1 position
                         (if Impl.fileSize s1 <? position then position else Impl.fileSize s1),
                       os2)) = (r, s', os') -> same_identity s s').
  { destruct (Native.lseek os1 (Impl.fd s1) position) as [os2 off].
    destruct (off =? -1); intros [= <- <- <-]; [exact Hi |].
    eapply same_identity_trans; [exact Hi | repeat split]. }
  destruct rf; [exact Hgo | | exact Hgo].
  intros [= <- <- <-]. exact Hi.
Qed.

Lemma readsome_frame (s : Impl.t) (os : Native.OS) (len : Z) r got s' os' :
  FileStream.readsome s os len = (r, got, s', os') -> same_identity s s'.
Proof.
  unfold FileStream.readsome, Impl.read.
  destruct (Native.read os (Impl.fd s) _) as [[os1 n] bytes].
  destruct (n =? -1); intros [= <- <- <- <-]; repeat split.
Qed.

Lemma close_releases (s : Impl.t) (os : Native.OS) r s' os' :
  Impl.close s os = (r, s', os') ->
  same_offsets s s' /\ Impl.mode s' = Impl.mode s /\
  (r = Returned tt -> 0 < Impl.fd s -> Impl.fd s' = -1) /\
  (Impl.fd s = -1 -> Impl.fd s' = -1).
Proof.
  unfold Impl.close. destruct (Impl.flush s os) as [[rf s1] os1] eqn:Hf.
  destruct (flush_same _ _ _ _ _ Hf) as [(Hm & Hfd & _) Ho].
  destruct rf as [n | e |].
  - destruct (Z.ltb_spec 0 (Impl.fd s1)); intros [= <- <- <-]; simpl;
      repeat split; try apply Ho; auto; intros; lia.
  - intros [= <- <- <-]. repeat split; try apply Ho; auto; try discriminate; intros; lia.
  - destruct (Z.ltb_spec 0 (Impl.fd s1)); intros [= <- <- <-]; simpl;
      repeat split; try apply Ho; auto; intros; lia.
Qed.

(** No call gives a stream another mode, and none gives a released
    stream a descriptor again. *)
Lemma exec_frame (fuel : nat) (op : Op) (s : Impl.t) (os : Native.OS) r s' os' :
  exec fuel op s os = (r, s', os') ->
  Impl.mode s' = Impl.mode s /\ (Impl.fd s = -1 -> Impl.fd s' = -1).
Proof.
  destruct op as [data | position | len |]; simpl.
  - destruct (FileStream.writesome fuel s os data) as [[r1 s1] os1] eqn:Hw.
    destruct (write_loop_frame _ _ _ _ _ _ _ _ _ Hw) as [(Hm & Hfd & _) _].
    destruct r1; intros [= <- <- <-]; split; auto; congruence.
  - destruct (FileStream.seek s os position) as [[r1 s1] os1] eqn:Hs.
    destruct (seek_frame _ _ _ _ _ _ Hs) as (Hm & Hfd & _).
    destruct r1; intros [= <- <- <-]; split; auto; congruence.
  - destruct (FileStream.readsome s os len) as [[[r1 got] s1] os1] eqn:Hr.
    destruct (readsome_frame _ _ _ _ _ _ _ Hr) as (Hm & Hfd & _).
    destruct r1; intros [= <- <- <-]; split; auto; congruence.
  - destruct (FileStream.close s os) as [[r1 s1] os1] eqn:Hc.
    destruct (close_releases _ _ _ _ _ Hc) as (_ & Hm & _ & Hfd).
    destruct r1; intros [= <- <- <-]; split; auto.
Qed.

Lemma run_frame (fuel : nat) (ops : list Op) : forall s os rs s' os',
  run fuel ops s os = (rs, s', os') -> Impl.mode s' = Impl.mode s.
Proof.
  induction ops as [|op ops IH]; intros s os rs s' os'; simpl.
  - intros [= <- <- <-]. reflexivity.
  - destruct (exec fuel op s os) as [[r s1] os1] eqn:Hex.
    destruct (run fuel ops s1 os1) as [[rs1 s2] os2] eqn:Hrun.
    intros [= <- <- <-]. rewrite (IH _ _ _ _ _ Hrun).
    apply (exec_frame _ _ _ _ _ _ _ Hex).
Qed.

Lemma set_buffer_same (s : Impl.t) :
  Impl.set_buffer s {| IOBuffer.staged := IOBuffer.staged (Impl.buffer_ s) ++ [] |} = s.
Proof. rewrite app_nil_r. destruct s as [m p z c [b] d]. reflexivity. Qed.

(** ** Flushing *)

Lemma flush_writer_staged (s : Impl.t) (os : Native.OS) (f : Native.OpenFile) :
  writer s os f ->
  IOBuffer.staged (Impl.buffer_ s) <> [] ->
  Impl.flush s os =
    (Returned (IOBuffer.size (Impl.buffer_ s)),
     Impl.set_buffer s IOBuffer.empty,
     after_write os (Impl.fd s) f (IOBuffer.staged (Impl.buffer_ s))).
Proof.
  intros (Hm & Hget & Hw & Hl) Hne. unfold Impl.flush.
  rewrite Hm. apply buffer_hasData_true in Hne. rewrite Hne. simpl.
  rewrite (native_write_full _ _ _ _ Hget Hw Hl).
  destruct (Z.eqb_spec (Z.of_nat (length (IOBuffer.staged (Impl.buffer_ s)))) (-1)); [lia |].
  reflexivity.
Qed.

Lemma flush_nothing_staged (s : Impl.t) (os : Native.OS) :
  IOBuffer.staged (Impl.buffer_ s) = [] ->
  Impl.flush s os = (Returned 0, s, os).
Proof.
  intros He. unfold Impl.flush. apply buffer_hasData_false in He. rewrite He.
  rewrite andb_false_r. reflexivity.
Qed.

Lemma flush_reader (s : Impl.t) (os : Native.OS) :
  Impl.writes (Impl.mode s) = false ->
  Impl.flush s os = (Returned 0, s, os).
Proof. intros Hm. unfold Impl.flush. rewrite Hm. reflexivity. Qed.

Lemma writer_after_write (s : Impl.t) (os : Native.OS) (f : Native.OpenFile) buf b :
  writer s os f ->
  writer (Impl.set_buffer s b) (after_write os (Impl.fd s) f buf)
    {| Native.path := Native.path f; Native.readable := Native.readable f;
       Native.writable := Native.writable f;
       Native.pos := Native.pos f + Z.of_nat (length buf) |}.
Proof.
  intros (Hm & Hget & Hw & Hl). repeat split; simpl; auto.
  apply after_write_get. exact Hget.
Qed.

Lemma at_end_after_write (os : Native.OS) (d : Z) (f : Native.OpenFile) buf :
  at_end os f ->
  at_end (after_write os d f buf)
    {| Native.path := Native.path f; Native.readable := Native.readable f;
       Native.writable := Native.writable f;
       Native.pos := Native.pos f + Z.of_nat (length buf) |}
  /\ Native.content (after_write os d f buf) (Native.path f) =
       Native.content os (Native.path f) ++ buf.
Proof.
  unfold at_end. intros [_ He]. simpl.
  rewrite after_write_content, He, Nat2Z.id, overwrite_at_end.
  split; [| reflexivity]. split.
  - rewrite lookup_insert_eq. eauto.
  - rewrite length_app. lia.
Qed.

(** A native write, full or short, on a descriptor open for writing. *)
Lemma native_write_any (os : Native.OS) (d : Z) (buf : list byte_t) :
  open_for_writing os d ->
  exists os' t,
    Native.write os d buf = (os', t) /\
    0 <= t <= Z.of_nat (length buf) /\
    Native.wlog os' = Native.wlog os ++ [(Z.of_nat (length buf), t)] /\
    open_for_writing os' d.
Proof.
  intros (f & Hget & Hw). pose proof (native_get_nonneg _ _ _ Hget) as Hd.
  unfold Native.write. rewrite Hget, Hw.
  eexists _, _. split; [reflexivity |]. split.
  - destruct (Native.limits os); lia.
  - split; [reflexivity |]. eexists. split.
    + unfold Native.get. cbn [Native.fds]. destruct (Z.ltb_spec d 0); [lia |].
      apply lookup_insert_eq.
    + reflexivity.
Qed.

Lemma flush_any (s : Impl.t) (os : Native.OS) :
  Impl.writes (Impl.mode s) = true ->
  open_for_writing os (Impl.fd s) ->
  IOBuffer.staged (Impl.buffer_ s) <> [] ->
  exists os' t,
    Impl.flush s os = (Returned t, Impl.set_buffer s IOBuffer.empty, os') /\
    0 <= t <= IOBuffer.size (Impl.buffer_ s) /\
    Native.wlog os' = Native.wlog os ++ [(IOBuffer.size (Impl.buffer_ s), t)] /\
    open_for_writing os' (Impl.fd s).
Proof.
  intros Hm Hopen Hne. unfold Impl.flush. rewrite Hm.
  apply buffer_hasData_true in Hne. rewrite Hne. cbn [andb].
  destruct (native_write_any os (Impl.fd s) (IOBuffer.staged (Impl.buffer_ s)) Hopen)
    as (os' & t & Hwr & Ht & Hlog & Hopen').
  rewrite Hwr. destruct (Z.eqb_spec t (-1)); [lia |].
  exists os', t. repeat split; auto; apply Ht.
Qed.

(** ** One turn of the write loop *)

Lemma write_tail_spec (s : Impl.t) (os : Native.OS) data len n k :
  0 <= n -> 0 <= k -> 0 <= Impl.currentOffset s ->
  Impl.currentOffset s + n + k < 2 ^ 64 ->
  Impl.write_tail s os data len n k =
    if MAX_WRITE_FILE_SIZE <=? Impl.currentOffset s + n + k
    then Impl.Done (Thrown MaxFileSize, s, os)
    else if n + k <? len then Impl.Again s os (drop (Z.to_nat k) data) (n + k)
    else Impl.Done (Returned (n + k),
                    Impl.set_offsets s (Impl.currentOffset s + n + k)
                      (Z.max (Impl.fileSize s) (Impl.currentOffset s + n + k)),
                    os).
Proof.
  intros Hn Hk Hc Hlt. unfold Impl.write_tail.
  rewrite (wrap_small (n + k)) by lia.
  rewrite (wrap_small (Impl.currentOffset s + (n + k))) by lia.
  rewrite Z.add_assoc.
  destruct (MAX_WRITE_FILE_SIZE <=? _); [reflexivity |].
  destruct (n + k <? len); [reflexivity |].
  destruct (Z.ltb_spec (Impl.fileSize s) (Impl.currentOffset s + n + k)).
  - rewrite Z.max_r by lia. reflexivity.
  - rewrite Z.max_l by lia. reflexivity.
Qed.

(** The whole request fits in the room left: nothing is flushed. *)
Lemma write_turn_fits (s : Impl.t) (os : Native.OS) data :
  let len := Z.of_nat (length data) in
  len < 2 ^ 64 ->
  len <= kBufferSize - IOBuffer.size (Impl.buffer_ s) ->
  Impl.write_turn s os data len 0 =
    Impl.write_tail
      (Impl.set_buffer s {| IOBuffer.staged := IOBuffer.staged (Impl.buffer_ s) ++ data |})
      os data len 0 len.
Proof.
  intros len Hlt Hroom. unfold Impl.write_turn.
  rewrite Z.sub_0_r, wrap_small by lia.
  rewrite buffer_write_spec, Z.min_l by lia.
  rewrite Z.ltb_irrefl. unfold len. rewrite Nat2Z.id, firstn_all. reflexivity.
Qed.

(** The buffer takes [k] bytes, fewer than the call was asked to write:
    the staged bytes go out in one native write. *)
Lemma write_turn_spills (s : Impl.t) (os : Native.OS) (f : Native.OpenFile) data len n :
  writer s os f ->
  len = n + Z.of_nat (length data) ->
  len - n < 2 ^ 64 ->
  let k := Z.min (len - n) (kBufferSize - IOBuffer.size (Impl.buffer_ s)) in
  let out := IOBuffer.staged (Impl.buffer_ s) ++ take (Z.to_nat k) data in
  0 <= k < len ->
  out <> [] ->
  Impl.write_turn s os data len n =
    Impl.write_tail (Impl.set_buffer s IOBuffer.empty)
      (after_write os (Impl.fd s) f out) data len n k.
Proof.
  intros Hw Hlen Hr k out Hk Hne. unfold Impl.write_turn.
  rewrite wrap_small by lia. rewrite buffer_write_spec. fold k. fold out.
  destruct (Z.ltb_spec k len); [| lia].
  assert (Hw' : writer (Impl.set_buffer s {| IOBuffer.staged := out |}) os f)
    by (destruct Hw as (? & ? & ? & ?); repeat split; auto).
  rewrite (flush_writer_staged _ _ _ Hw') by exact Hne.
  simpl. unfold IOBuffer.size. simpl.
  destruct (Z.ltb_spec (Z.of_nat (length out)) k) as [Hlt | _]; [| reflexivity].
  exfalso. unfold out in Hlt. rewrite length_app, length_take in Hlt. lia.
Qed.

(** The bytes that leave the buffer when a turn spills are never none. *)
Lemma spill_nonempty (b : IOBuffer.t) (data : list byte_t) (n : Z) :
  IOBuffer.size b <= kBufferSize ->
  0 <= n ->
  (n = 0 \/ data <> []) ->
  (n <> 0 \/ kBufferSize - IOBuffer.size b < n + Z.of_nat (length data)) ->
  let k := Z.min (Z.of_nat (length data)) (kBufferSize - IOBuffer.size b) in
  0 <= k < n + Z.of_nat (length data) /\
  IOBuffer.staged b ++ take (Z.to_nat k) data <> [].
Proof.
  intros Hb Hn Hinv Hsp k. pose proof kBufferSize_val as HK.
  pose proof (buffer_size_nonneg b) as Hsz.
  assert (Hdata : n <> 0 -> (0 < length data)%nat).
  { intros Hn0. destruct Hinv as [? | Hne]; [lia |]. destruct data; [congruence | simpl; lia]. }
  split; [unfold k; lia |].
  intros Happ. apply app_eq_nil in Happ as [Hs Ht].
  unfold IOBuffer.size in *. rewrite Hs in *. simpl in *.
  apply (f_equal (@length byte_t)) in Ht. rewrite length_take in Ht. simpl in Ht.
  unfold k in Ht. rewrite Hs in Ht. simpl in Ht. lia.
Qed.

(** ** The write loop *)

(** When the bytes all fit in the room left, [write] is over in one turn
    and makes no native call, whatever the descriptor is. *)
Lemma write_fits (fuel : nat) (s : Impl.t) (os : Native.OS) (data : list byte_t) :
  (0 < fuel)%nat ->
  Z.of_nat (length data) <= kBufferSize - IOBuffer.size (Impl.buffer_ s) ->
  0 <= Impl.currentOffset s ->
  Impl.currentOffset s + Z.of_nat (length data) < 2 ^ 64 ->
  let staged := {| IOBuffer.staged := IOBuffer.staged (Impl.buffer_ s) ++ data |} in
  let off := Impl.currentOffset s + Z.of_nat (length data) in
  Impl.write fuel s os data =
    if MAX_WRITE_FILE_SIZE <=? off
    then (Thrown MaxFileSize, Impl.set_buffer s staged, os)
    else (Returned (Z.of_nat (length data)),
          Impl.set_offsets (Impl.set_buffer s staged) off (Z.max (Impl.fileSize s) off), os).
Proof.
  intros Hfuel Hfit Hc Hlt staged off.
  destruct fuel as [|fuel]; [lia |].
  unfold Impl.write. rewrite write_loop_S.
  rewrite write_turn_fits by lia.
  rewrite write_tail_spec by (simpl; lia). simpl.
  rewrite Z.add_0_r, Z.add_0_l, Z.ltb_irrefl. fold off. fold staged.
  destruct (MAX_WRITE_FILE_SIZE <=? off); reflexivity.
Qed.

(** A call that is over within [fuel] turns ends the same way with more
    turns to spend. *)
Lemma write_loop_more_fuel (fuel : nat) : forall fuel' s os data len n r s' os',
  Impl.write_loop fuel s os data len n = (r, s', os') ->
  r <> Unfinished ->
  (fuel <= fuel')%nat ->
  Impl.write_loop fuel' s os data len n = (r, s', os').
Proof.
  induction fuel as [|fuel IH]; intros fuel' s os data len n r s' os' Hrun Hr Hle.
  - simpl in Hrun. injection Hrun as <- _ _. congruence.
  - destruct fuel' as [|fuel']; [lia |].
    rewrite write_loop_S in *.
    destruct (Impl.write_turn s os data len n) as [r1 | s1 os1 d1 n1];
      [exact Hrun |].
    apply IH; [exact Hrun | exact Hr | lia].
Qed.

(** With a writable descriptor and a device that transfers in full, the
    loop ends within one turn per byte (and one more for a buffer found
    full): it throws when the end offset reaches the limit, and otherwise
    returns the whole length, the bytes being in the file or staged. *)
Lemma write_loop_writer (fuel : nat) : forall s os f data n,
  writer s os f ->
  IOBuffer.size (Impl.buffer_ s) <= kBufferSize ->
  0 <= n ->
  (n = 0 \/ (data <> [] /\ Impl.currentOffset s + n < MAX_WRITE_FILE_SIZE)) ->
  0 <= Impl.currentOffset s ->
  Impl.currentOffset s + n + Z.of_nat (length data) < 2 ^ 64 ->
  (length data + (if (IOBuffer.size (Impl.buffer_ s) =? kBufferSize)%Z then 1 else 0) < fuel)%nat ->
  exists s' os' f',
    Impl.write_loop fuel s os data (n + Z.of_nat (length data)) n =
      (if MAX_WRITE_FILE_SIZE <=? Impl.currentOffset s + n + Z.of_nat (length data)
       then Thrown MaxFileSize else Returned (n + Z.of_nat (length data)), s', os') /\
    writer s' os' f' /\
    Native.path f' = Native.path f /\ Native.readable f' = Native.readable f /\
    IOBuffer.size (Impl.buffer_ s') <= kBufferSize /\
    (Impl.currentOffset s + n + Z.of_nat (length data) < MAX_WRITE_FILE_SIZE ->
       Impl.currentOffset s' = Impl.currentOffset s + n + Z.of_nat (length data) /\
       Impl.fileSize s' =
         Z.max (Impl.fileSize s) (Impl.currentOffset s + n + Z.of_nat (length data))) /\
    (at_end os f ->
       at_end os' f' /\
       (Impl.currentOffset s + n + Z.of_nat (length data) < MAX_WRITE_FILE_SIZE ->
          Native.content os' (Native.path f) ++ IOBuffer.staged (Impl.buffer_ s') =
            Native.content os (Native.path f) ++ IOBuffer.staged (Impl.buffer_ s) ++ data)).
Proof.
  induction fuel as [|fuel IH]; intros s os f data n Hw Hb Hn Hinv Hc Hlt Hfuel; [lia |].
  rewrite write_loop_S.
  set (room := kBufferSize - IOBuffer.size (Impl.buffer_ s)).
  pose proof (buffer_size_nonneg (Impl.buffer_ s)) as Hsz.
  pose proof kBufferSize_val as HK. pose proof MAX_WRITE_FILE_SIZE_val as HM.
  assert (Hcase : (n = 0 /\ Z.of_nat (length data) <= room) \/
                  (n <> 0 \/ room < n + Z.of_nat (length data))) by lia.
  destruct Hcase as [[-> Hfit] | Hsp].
  - (* first turn, and everything fits *)
    rewrite Z.add_0_l in *.
    rewrite write_turn_fits by (fold room; lia).
    rewrite write_tail_spec by (simpl; lia). simpl.
    rewrite Z.add_0_r, Z.add_0_l, Z.ltb_irrefl.
    assert (Hb' : IOBuffer.size {| IOBuffer.staged := IOBuffer.staged (Impl.buffer_ s) ++ data |}
                  <= kBufferSize).
    { unfold IOBuffer.size. simpl. rewrite length_app. unfold room, IOBuffer.size in Hfit. lia. }
    destruct (Z.leb_spec MAX_WRITE_FILE_SIZE (Impl.currentOffset s + Z.of_nat (length data))).
    + eexists _, os, f. split; [reflexivity |].
      split; [exact Hw |]. do 2 (split; [reflexivity |]). split; [exact Hb' |].
      split; [lia |]. intros He. split; [exact He | lia].
    + eexists _, os, f. split; [reflexivity |].
      split; [exact Hw |]. do 2 (split; [reflexivity |]). split; [exact Hb' |].
      split; [intros _; split; reflexivity |]. intros He. split; [exact He |].
      intros _. reflexivity.
  - (* the buffer spills *)
    assert (Hinv' : n = 0 \/ data <> []) by tauto.
    destruct (spill_nonempty (Impl.buffer_ s) data n Hb Hn Hinv' Hsp) as [Hk Hout].
    fold room in Hk, Hout.
    set (k := Z.min (Z.of_nat (length data)) room) in *.
    set (out := IOBuffer.staged (Impl.buffer_ s) ++ take (Z.to_nat k) data) in *.
    rewrite (write_turn_spills s os f data (n + Z.of_nat (length data)) n Hw eq_refl);
      replace (n + Z.of_nat (length data) - n) with (Z.of_nat (length data)) by lia;
      fold room; fold k; fold out; try lia; try exact Hout.
    set (s1 := Impl.set_buffer s IOBuffer.empty).
    set (os1 := after_write os (Impl.fd s) f out).
    set (f1 := {| Native.path := Native.path f; Native.readable := Native.readable f;
                  Native.writable := Native.writable f;
                  Native.pos := Native.pos f + Z.of_nat (length out) |}).
    assert (Hw1 : writer s1 os1 f1) by (apply writer_after_write; exact Hw).
    pose proof (at_end_after_write os (Impl.fd s) f out) as Hend.
    fold os1 f1 in Hend.
    assert (Hb1 : IOBuffer.size (Impl.buffer_ s1) <= kBufferSize)
      by (simpl; unfold IOBuffer.size; simpl; lia).
    rewrite write_tail_spec by (simpl; lia).
    change (Impl.currentOffset s1) with (Impl.currentOffset s).
    destruct (Z.leb_spec MAX_WRITE_FILE_SIZE (Impl.currentOffset s + n + k)) as [Hmax | Hmax].
    + (* the limit is reached in this turn *)
      destruct (Z.leb_spec MAX_WRITE_FILE_SIZE
                  (Impl.currentOffset s + n + Z.of_nat (length data))); [| lia].
      exists s1, os1, f1. split; [reflexivity |].
      split; [exact Hw1 |]. do 2 (split; [reflexivity |]). split; [exact Hb1 |].
      split; [lia |]. intros He. split; [apply Hend; exact He | lia].
    + destruct (Z.ltb_spec (n + k) (n + Z.of_nat (length data))) as [Hmore | Hlast].
      * (* round again *)
        assert (Hlen' : Z.of_nat (length (drop (Z.to_nat k) data)) = Z.of_nat (length data) - k)
          by (rewrite length_drop; lia).
        assert (Hne' : drop (Z.to_nat k) data <> []).
        { intros E. rewrite E in Hlen'. simpl in Hlen'. lia. }
        assert (Hinv1 : n + k = 0 \/
                  (drop (Z.to_nat k) data <> [] /\
                   Impl.currentOffset s1 + (n + k) < MAX_WRITE_FILE_SIZE))
          by (right; split; [exact Hne' | simpl; lia]).
        assert (Hfuel1 : (length (drop (Z.to_nat k) data) +
                          (if (IOBuffer.size (Impl.buffer_ s1) =? kBufferSize)%Z then 1 else 0)
                          < fuel)%nat).
        { change (Impl.buffer_ s1) with IOBuffer.empty.
          destruct (Z.eqb_spec (IOBuffer.size IOBuffer.empty) kBufferSize) as [E | _];
            [unfold IOBuffer.size in E; simpl in E; lia |].
          destruct (Z.eqb_spec (IOBuffer.size (Impl.buffer_ s)) kBufferSize);
            unfold k, room in *; lia. }
        destruct (IH s1 os1 f1 (drop (Z.to_nat k) data) (n + k) Hw1 Hb1
                    ltac:(lia) Hinv1 ltac:(simpl; lia) ltac:(simpl; lia) Hfuel1)
          as (s' & os' & f' & Hrun & Hw' & Hp' & Hr' & Hb' & Hoff & Hpost).
        change (Impl.currentOffset s1) with (Impl.currentOffset s) in *.
        change (Impl.fileSize s1) with (Impl.fileSize s) in *.
        replace (n + k + Z.of_nat (length (drop (Z.to_nat k) data)))
          with (n + Z.of_nat (length data)) in * by lia.
        replace (Impl.currentOffset s + (n + k) + Z.of_nat (length (drop (Z.to_nat k) data)))
          with (Impl.currentOffset s + n + Z.of_nat (length data)) in * by lia.
        exists s', os', f'. split; [exact Hrun |].
        split; [exact Hw' |]. split; [exact Hp' |]. split; [exact Hr' |].
        split; [exact Hb' |]. split; [exact Hoff |].
        intros He. destruct (Hend He) as [He1 Hc1].
        destruct (Hpost He1) as [He' Hdata]. split; [exact He' |].
        intros Hbelow. specialize (Hdata Hbelow).
        simpl in Hdata. rewrite Hdata, Hc1. unfold out.
        rewrite <- !app_assoc. rewrite take_drop. reflexivity.
      * (* the last turn *)
        assert (Hk' : k = Z.of_nat (length data)) by lia.
        destruct (Z.leb_spec MAX_WRITE_FILE_SIZE
                    (Impl.currentOffset s + n + Z.of_nat (length data))); [lia |].
        eexists _, os1, f1. split; [rewrite Hk'; reflexivity |].
        split; [exact Hw1 |]. do 2 (split; [reflexivity |]). split; [exact Hb1 |].
        split; [intros _; simpl; split; [lia | reflexivity] |].
        intros He. destruct (Hend He) as [He1 Hc1]. split; [exact He1 |].
        intros _. simpl. rewrite Hc1. unfold out.
        rewrite Hk', Nat2Z.id, firstn_all, app_nil_r. reflexivity.
Qed.

(** [write] itself, on a well-behaved descriptor. *)
Lemma write_writer (fuel : nat) (s : Impl.t) (os : Native.OS) (f : Native.OpenFile)
    (data : list byte_t) :
  writer s os f ->
  IOBuffer.size (Impl.buffer_ s) <= kBufferSize ->
  0 <= Impl.currentOffset s ->
  Impl.currentOffset s + Z.of_nat (length data) < 2 ^ 64 ->
  (length data + 2 <= fuel)%nat ->
  exists s' os' f',
    Impl.write fuel s os data =
      (if MAX_WRITE_FILE_SIZE <=? Impl.currentOffset s + Z.of_nat (length data)
       then Thrown MaxFileSize else Returned (Z.of_nat (length data)), s', os') /\
    writer s' os' f' /\
    Native.path f' = Native.path f /\ Native.readable f' = Native.readable f /\
    IOBuffer.size (Impl.buffer_ s') <= kBufferSize /\
    (Impl.currentOffset s + Z.of_nat (length data) < MAX_WRITE_FILE_SIZE ->
       Impl.currentOffset s' = Impl.currentOffset s + Z.of_nat (length data) /\
       Impl.fileSize s' =
         Z.max (Impl.fileSize s) (Impl.currentOffset s + Z.of_nat (length data))) /\
    (at_end os f ->
       at_end os' f' /\
       (Impl.currentOffset s + Z.of_nat (length data) < MAX_WRITE_FILE_SIZE ->
          Native.content os' (Native.path f) ++ IOBuffer.staged (Impl.buffer_ s') =
            Native.content os (Native.path f) ++ IOBuffer.staged (Impl.buffer_ s) ++ data)).
Proof.
  intros Hw Hb Hc Hlt Hfuel.
  assert (Hfuel' : (length data +
                    (if (IOBuffer.size (Impl.buffer_ s) =? kBufferSize)%Z then 1 else 0)
                    < fuel)%nat)
    by (destruct (IOBuffer.size (Impl.buffer_ s) =? kBufferSize); lia).
  destruct (write_loop_writer fuel s os f data 0 Hw Hb ltac:(lia) ltac:(auto) Hc
              ltac:(lia) Hfuel') as (s' & os' & f' & Hrun & Hpost).
  rewrite !Z.add_0_r in *. rewrite Z.add_0_l in Hrun.
  exists s', os', f'. split; [exact Hrun | exact Hpost].
Qed.

(** A write that would end at or past [MAX_WRITE_FILE_SIZE] throws, and
    the two counters stay as they were. *)
Lemma write_at_limit (fuel : nat) (s : Impl.t) (os : Native.OS) (f : Native.OpenFile)
    (data : list byte_t) :
  writer s os f ->
  IOBuffer.size (Impl.buffer_ s) <= kBufferSize ->
  0 <= Impl.currentOffset s ->
  Impl.currentOffset s + Z.of_nat (length data) < 2 ^ 64 ->
  MAX_WRITE_FILE_SIZE <= Impl.currentOffset s + Z.of_nat (length data) ->
  (length data + 2 <= fuel)%nat ->
  exists s' os',
    Impl.write fuel s os data = (Thrown MaxFileSize, s', os') /\
    same_identity s s' /\ same_offsets s s'.
Proof.
  intros Hw Hb Hc Hlt Hmax Hfuel.
  destruct (write_writer fuel s os f data Hw Hb Hc Hlt Hfuel)
    as (s' & os' & f' & Hrun & _).
  destruct (Z.leb_spec MAX_WRITE_FILE_SIZE (Impl.currentOffset s + Z.of_nat (length data)));
    [| lia].
  exists s', os'. split; [exact Hrun |].
  destruct (write_loop_frame _ _ _ _ _ _ _ _ _ Hrun) as [Hi [Ho | (n & Hn & _)]].
  - split; assumption.
  - discriminate.
Qed.

(** Started on an empty buffer, the loop notices every flush that falls
    short: each turn finds the buffer empty, so what a flush is handed is
    what the turn staged. *)
Lemma write_loop_short (fuel : nat) : forall s os data n r s' os',
  Impl.writes (Impl.mode s) = true ->
  open_for_writing os (Impl.fd s) ->
  IOBuffer.staged (Impl.buffer_ s) = [] ->
  0 <= n -> 0 <= Impl.currentOffset s ->
  Impl.currentOffset s + n + Z.of_nat (length data) < 2 ^ 64 ->
  Impl.write_loop fuel s os data (n + Z.of_nat (length data)) n = (r, s', os') ->
  exists l,
    Native.wlog os' = Native.wlog os ++ l /\
    forall req got, In (req, got) l -> got < req ->
      r = Returned got /\ same_offsets s s'.
Proof.
  induction fuel as [|fuel IH]; intros s os data n r s' os' Hm Hopen Hst Hn Hc Hlt.
  - simpl. intros [= <- <- <-]. exists []. rewrite app_nil_r. split; [reflexivity |].
    intros req got [].
  - rewrite write_loop_S. unfold Impl.write_turn.
    rewrite wrap_small by lia. rewrite buffer_write_spec.
    replace (n + Z.of_nat (length data) - n) with (Z.of_nat (length data)) by lia.
    assert (Hsz : IOBuffer.size (Impl.buffer_ s) = 0)
      by (unfold IOBuffer.size; rewrite Hst; reflexivity).
    rewrite Hsz, Z.sub_0_r, Hst. simpl app.
    pose proof kBufferSize_val as HK.
    set (k := Z.min (Z.of_nat (length data)) kBufferSize).
    set (out := take (Z.to_nat k) data).
    assert (Hout : Z.of_nat (length out) = k)
      by (unfold out; rewrite length_take; unfold k; lia).
    set (s0 := Impl.set_buffer s {| IOBuffer.staged := out |}).
    (* what the tail of the turn does, from a state whose log holds no short write *)
    assert (Htail : forall s1 os1 l0,
              Impl.writes (Impl.mode s1) = true ->
              open_for_writing os1 (Impl.fd s1) ->
              same_offsets s s1 ->
              (k < n + Z.of_nat (length data) -> IOBuffer.staged (Impl.buffer_ s1) = []) ->
              Native.wlog os1 = Native.wlog os ++ l0 ->
              (forall req got, In (req, got) l0 -> ~ got < req) ->
              match Impl.write_tail s1 os1 data (n + Z.of_nat (length data)) n k with
              | Impl.Done r1 => r1
              | Impl.Again s2 os2 d2 n2 =>
                  Impl.write_loop fuel s2 os2 d2 (n + Z.of_nat (length data)) n2
              end = (r, s', os') ->
              exists l,
                Native.wlog os' = Native.wlog os ++ l /\
                forall req got, In (req, got) l -> got < req ->
                  r = Returned got /\ same_offsets s s').
    { intros s1 os1 l0 Hm1 Hopen1 [Ho1 Hz1] Hst1 Hlog1 Hfull.
      rewrite write_tail_spec by (rewrite ?Ho1; unfold k; lia).
      rewrite Ho1.
      destruct (Z.leb_spec MAX_WRITE_FILE_SIZE (Impl.currentOffset s + n + k)).
      - intros [= <- <- <-]. exists l0. split; [exact Hlog1 |].
        intros req got Hin Hshort. destruct (Hfull _ _ Hin Hshort).
      - destruct (Z.ltb_spec (n + k) (n + Z.of_nat (length data))) as [Hmore | Hlast].
        + intros Hrun.
          assert (Hlen' : Z.of_nat (length (drop (Z.to_nat k) data)) = Z.of_nat (length data) - k)
            by (rewrite length_drop; unfold k; lia).
          replace (n + Z.of_nat (length data))
            with (n + k + Z.of_nat (length (drop (Z.to_nat k) data))) in Hrun by lia.
          destruct (IH s1 os1 (drop (Z.to_nat k) data) (n + k) r s' os' Hm1 Hopen1
                      (Hst1 ltac:(lia)) ltac:(unfold k; lia) ltac:(rewrite Ho1; lia)
                      ltac:(rewrite Ho1; lia) Hrun) as (l & Hlog & Hl).
          exists (l0 ++ l). split; [rewrite Hlog, Hlog1, app_assoc; reflexivity |].
          intros req got Hin Hshort. apply in_app_or in Hin as [Hin | Hin].
          * destruct (Hfull _ _ Hin Hshort).
          * destruct (Hl _ _ Hin Hshort) as [-> [Ho Hz]].
            split; [reflexivity |]. split; congruence.
        + intros [= <- <- <-]. exists l0. split; [exact Hlog1 |].
          intros req got Hin Hshort. destruct (Hfull _ _ Hin Hshort). }
    destruct (Z.ltb_spec k (n + Z.of_nat (length data))) as [Hspill | Hfits].
    + (* the turn flushes *)
      destruct (decide (out = [])) as [Hempty | Hne].
      * (* nothing was staged: the flush does nothing *)
        rewrite flush_nothing_staged by (simpl; exact Hempty). cbv beta iota.
        assert (Hk0 : k = 0) by (rewrite <- Hout, Hempty; reflexivity).
        destruct (Z.ltb_spec 0 k); [lia |].
        apply (Htail s0 os [] Hm Hopen (conj eq_refl eq_refl)).
        -- intros _. exact Hempty.
        -- rewrite app_nil_r. reflexivity.
        -- intros req got [].
      * destruct (flush_any s0 os Hm Hopen) as (os1 & t & Hf & Ht & Hlog & Hopen1);
          [simpl; exact Hne |].
        rewrite Hf. cbv beta iota.
        change (IOBuffer.size (Impl.buffer_ s0)) with (Z.of_nat (length out)) in *.
        rewrite Hout in *.
        destruct (Z.ltb_spec t k) as [Hshort | Hfull].
        -- (* short: the call returns the count *)
           intros [= <- <- <-]. exists [(k, t)]. split; [exact Hlog |].
           intros req got [[= <- <-] | []] _. split; [reflexivity | split; reflexivity].
        -- apply (Htail (Impl.set_buffer s0 IOBuffer.empty) os1 [(k, t)] Hm Hopen1
                    (conj eq_refl eq_refl)).
           ++ intros _. reflexivity.
           ++ exact Hlog.
           ++ intros req got [[= <- <-] | []]. lia.
    + (* everything fits: no flush *)
      apply (Htail s0 os [] Hm Hopen (conj eq_refl eq_refl)).
      * intros ?. lia.
      * rewrite app_nil_r. reflexivity.
      * intros req got [].
Qed.

(** ** Opening *)

(** Opening for writing gives an empty file, an empty buffer and both
    counters at zero. *)
Lemma make_writer (os : Native.OS) (fp : string) (truncate : bool) (m : Mode) :
  Impl.writes m = true ->
  Native.limits os = [] ->
  exists s os1 f,
    Impl.make os fp truncate m = (Returned s, os1) /\
    writer s os1 f /\ at_end os1 f /\
    Native.path f = fp /\ Native.content os1 fp = [] /\
    Impl.mode s = m /\ Impl.fileSize s = 0 /\ Impl.currentOffset s = 0 /\
    Impl.buffer_ s = IOBuffer.empty /\
    Native.wlog os1 = Native.wlog os /\
    (is_Some (Native.fds os !! 0%nat) -> 0 < Impl.fd s).
Proof.
  intros Hm Hl. unfold Impl.make.
  set (os0 := if truncate && negb (Mode_eqb m Read) then Native.remove os fp else os).
  assert (Hl0 : Native.limits os0 = [])
    by (unfold os0; destruct (truncate && negb (Mode_eqb m Read)); simpl; auto).
  assert (Hg0 : Native.wlog os0 = Native.wlog os)
    by (unfold os0; destruct (truncate && negb (Mode_eqb m Read)); simpl; auto).
  assert (Hf0 : Native.fds os0 = Native.fds os)
    by (unfold os0; destruct (truncate && negb (Mode_eqb m Read)); simpl; auto).
  set (e := {| Native.path := fp; Native.readable := negb (Mode_eqb m Write);
               Native.writable := negb (Mode_eqb m Read); Native.pos := 0 |}).
  assert (Hopen : Native.open os0 fp m =
            ({| Native.files := <[fp := []]> (Native.files os0);
                Native.fds := <[Native.lowest_free os0 := e]> (Native.fds os0);
                Native.limits := Native.limits os0; Native.wlog := Native.wlog os0 |},
             Z.of_nat (Native.lowest_free os0)))
    by (destruct m; [discriminate | reflexivity | reflexivity]).
  rewrite Hopen.
  destruct (Z.eqb_spec (Z.of_nat (Native.lowest_free os0)) (-1)); [lia |].
  unfold Native.fstat. rewrite native_get_insert.
  eexists _, _, e. split; [reflexivity |].
  assert (Hc : forall tbl lm lg,
             Native.content {| Native.files := <[fp := []]> (Native.files os0);
                               Native.fds := tbl; Native.limits := lm;
                               Native.wlog := lg |} fp = [])
    by (intros; unfold Native.content; simpl; rewrite lookup_insert_eq; reflexivity).
  repeat split; simpl; auto.
  - apply native_get_insert.
  - destruct m; [discriminate | reflexivity | reflexivity].
  - rewrite lookup_insert_eq. eauto.
  - rewrite Hc. reflexivity.
  - rewrite Hc. reflexivity.
  - intros H0. rewrite <- Hf0 in H0. apply lowest_free_pos in H0. lia.
Qed.

(** Opening an existing file for reading: the size is the file's, the
    offset zero. *)
Lemma make_reader (os : Native.OS) (fp : string) (truncate : bool) (c : list byte_t) :
  Native.files os !! fp = Some c ->
  exists s os1,
    Impl.make os fp truncate Read = (Returned s, os1) /\
    Impl.mode s = Read /\ Impl.fileSize s = Z.of_nat (length c) /\
    Impl.currentOffset s = 0 /\ Impl.buffer_ s = IOBuffer.empty /\
    Native.get os1 (Impl.fd s) =
      Some {| Native.path := fp; Native.readable := true;
              Native.writable := false; Native.pos := 0 |} /\
    Native.files os1 = Native.files os.
Proof.
  intros Hc. unfold Impl.make. rewrite andb_false_r.
  unfold Native.open. rewrite Hc.
  destruct (Z.eqb_spec (Z.of_nat (Native.lowest_free os)) (-1)); [lia |].
  unfold Native.fstat. rewrite native_get_insert.
  unfold Native.content. simpl. rewrite Hc. simpl.
  eexists _, _. split; [reflexivity |]. simpl.
  repeat split. apply native_get_insert.
Qed.

Lemma make_buffer (os : Native.OS) (fp : string) (truncate : bool) (m : Mode) s os1 :
  Impl.make os fp truncate m = (Returned s, os1) -> Impl.buffer_ s = IOBuffer.empty.
Proof.
  unfold Impl.make.
  destruct (Native.open _ fp m) as [os2 d].
  destruct (d =? -1); [discriminate |].
  destruct (Native.fstat os2 d); [| discriminate].
  intros [= <- <-]. reflexivity.
Qed.

(** ** Closing *)

(** Closing a stream whose descriptor stands at the end of its file
    leaves the file holding what it held, followed by the staged bytes. *)
Lemma close_writer (s : Impl.t) (os : Native.OS) (f : Native.OpenFile) :
  writer s os f -> at_end os f ->
  exists s' os',
    Impl.close s os = (Returned tt, s', os') /\
    Native.files os' !! Native.path f =
      Some (Native.content os (Native.path f) ++ IOBuffer.staged (Impl.buffer_ s)) /\
    Native.limits os' = [] /\
    Impl.buffer_ s' = IOBuffer.empty /\
    (0 < Impl.fd s -> Impl.fd s' = -1).
Proof.
  intros Hw He. unfold Impl.close.
  destruct (decide (IOBuffer.staged (Impl.buffer_ s) = [])) as [Hst | Hne].
  - rewrite flush_nothing_staged by exact Hst.
    assert (Hbuf : Impl.buffer_ s = IOBuffer.empty)
      by (destruct (Impl.buffer_ s); simpl in Hst; subst; reflexivity).
    rewrite Hst, app_nil_r. destruct He as [He _]. apply content_lookup in He.
    destruct Hw as (_ & Hget & _ & Hl). apply native_get_nonneg in Hget.
    destruct (Z.ltb_spec 0 (Impl.fd s)).
    + eexists _, _. split; [reflexivity |]. unfold Native.close.
      destruct (Z.ltb_spec (Impl.fd s) 0); [lia |]. simpl. auto.
    + eexists _, _. split; [reflexivity |]. repeat split; auto. lia.
  - rewrite (flush_writer_staged _ _ _ Hw Hne).
    destruct (at_end_after_write os (Impl.fd s) f (IOBuffer.staged (Impl.buffer_ s)) He)
      as [[He1 _] Hc1].
    cbn [Native.path] in He1. apply content_lookup in He1. rewrite Hc1 in He1.
    destruct Hw as (_ & Hget & _ & Hl). apply native_get_nonneg in Hget.
    change (Impl.fd (Impl.set_buffer s IOBuffer.empty)) with (Impl.fd s).
    destruct (Z.ltb_spec 0 (Impl.fd s)).
    + eexists _, _. split; [reflexivity |]. unfold Native.close.
      destruct (Z.ltb_spec (Impl.fd s) 0); [lia |]. simpl. auto.
    + eexists _, _. split; [reflexivity |]. repeat split; auto. lia.
Qed.


(** ** Reading *)

(** [readsome] on a readable descriptor, away from wrap-around: the
    request is cut at the logical size, and the native read hands over
    what the file holds from the descriptor's offset on. *)
Lemma readsome_spec (s : Impl.t) (os : Native.OS) (f : Native.OpenFile) (len : Z) :
  Native.get os (Impl.fd s) = Some f ->
  Native.readable f = true ->
  0 <= Impl.currentOffset s <= Impl.fileSize s ->
  0 <= len ->
  Impl.currentOffset s + len < 2 ^ 64 ->
  let req := if Impl.fileSize s <=? Impl.currentOffset s + len
             then Impl.fileSize s - Impl.currentOffset s else len in
  let got := take (Z.to_nat req)
                  (drop (Z.to_nat (Native.pos f)) (Native.content os (Native.path f))) in
  exists os',
    FileStream.readsome s os len =
      (Returned (Z.of_nat (length got)), got,
       Impl.set_offsets s (Impl.currentOffset s + Z.of_nat (length got)) (Impl.fileSize s),
       os') /\
    Z.of_nat (length got) <= req /\
    Native.files os' = Native.files os /\
    Native.get os' (Impl.fd s) =
      Some {| Native.path := Native.path f; Native.readable := Native.readable f;
              Native.writable := Native.writable f;
              Native.pos := Native.pos f + Z.of_nat (length got) |}.
Proof.
  intros Hget Hr Hc Hlen Hlt req got.
  unfold FileStream.readsome. rewrite (wrap_small (Impl.currentOffset s + len)) by lia.
  assert (Hreq : (if Impl.fileSize s <=? Impl.currentOffset s + len
                  then wrap (Impl.fileSize s - Impl.currentOffset s) else len) = req).
  { unfold req. destruct (Z.leb_spec (Impl.fileSize s) (Impl.currentOffset s + len));
      [apply wrap_small; lia | reflexivity]. }
  rewrite Hreq. unfold Impl.read, Native.read. rewrite Hget, Hr. fold got.
  assert (Hgot : Z.of_nat (length got) <= req).
  { unfold got. rewrite length_take. unfold req.
    destruct (Impl.fileSize s <=? Impl.currentOffset s + len); lia. }
  assert (Hreq_le : req <= len)
    by (unfold req; destruct (Z.leb_spec (Impl.fileSize s) (Impl.currentOffset s + len)); lia).
  destruct (Z.eqb_spec (Z.of_nat (length got)) (-1)); [lia |].
  rewrite wrap_small by lia.
  eexists. split; [reflexivity |]. split; [exact Hgot |]. split; [reflexivity |].
  pose proof (native_get_nonneg _ _ _ Hget). unfold Native.get. simpl.
  destruct (Z.ltb_spec (Impl.fd s) 0); [lia |]. apply lookup_insert_eq.
Qed.

(** ** A stream whose descriptor was released *)





(** ** Invariants of the streams a program can get to *)

Lemma make_counters (os : Native.OS) (fp : string) (truncate : bool) (m : Mode) s os1 :
  fits_off_t os ->
  Impl.make os fp truncate m = (Returned s, os1) ->
  counters_ok s.
Proof.
  intros Hfit. unfold Impl.make. pose proof OFF_MAX_val as HO.
  set (os0 := if truncate && negb (Mode_eqb m Read) then Native.remove os fp else os).
  assert (Hread : m = Read -> os0 = os)
    by (intros ->; unfold os0; rewrite andb_false_r; reflexivity).
  unfold Native.open.
  destruct m.
  - rewrite (Hread eq_refl).
    destruct (Native.files os !! fp) as [c |] eqn:Hc.
    + destruct (Z.eqb_spec (Z.of_nat (Native.lowest_free os)) (-1)); [lia |].
      unfold Native.fstat. rewrite native_get_insert.
      unfold Native.content. simpl. rewrite Hc. simpl.
      intros [= <- <-]. unfold counters_ok. simpl.
      specialize (Hfit _ _ Hc). lia.
    + simpl. discriminate.
  - destruct (Z.eqb_spec (Z.of_nat (Native.lowest_free os0)) (-1)); [lia |].
    unfold Native.fstat. rewrite native_get_insert.
    unfold Native.content. simpl. rewrite lookup_insert_eq. simpl.
    intros [= <- <-]. unfold counters_ok. simpl. lia.
  - destruct (Z.eqb_spec (Z.of_nat (Native.lowest_free os0)) (-1)); [lia |].
    unfold Native.fstat. rewrite native_get_insert.
    unfold Native.content. simpl. rewrite lookup_insert_eq. simpl.
    intros [= <- <-]. unfold counters_ok. simpl. lia.
Qed.

Lemma write_counters (fuel : nat) (s : Impl.t) (os : Native.OS) (data : list byte_t) r s' os' :
  counters_ok s ->
  Impl.write fuel s os data = (r, s', os') ->
  counters_ok s'.
Proof.
  intros (Hc & Hs) Hrun. pose proof OFF_MAX_val. pose proof MAX_WRITE_FILE_SIZE_val.
  destruct (write_loop_frame _ _ _ _ _ _ _ _ _ Hrun) as [_ [[Ho Hz] | (n & _ & Hlim & Ho & Hz)]];
    unfold counters_ok.
  - rewrite Ho, Hz. auto.
  - rewrite Ho, Hz. pose proof (wrap_range (Impl.currentOffset s + n)).
    destruct (Z.ltb_spec (Impl.fileSize s) (wrap (Impl.currentOffset s + n))); lia.
Qed.

Lemma seek_counters (s : Impl.t) (os : Native.OS) (position : Z) r s' os' :
  counters_ok s ->
  0 <= position ->
  Impl.seek s os position = (r, s', os') ->
  counters_ok s'.
Proof.
  intros Hok Hp. unfold Impl.seek.
  destruct (Impl.flush s os) as [[rf s1] os1] eqn:Hf.
  destruct (flush_same _ _ _ _ _ Hf) as [_ [Ho Hz]].
  assert (Hok1 : counters_ok s1) by (unfold counters_ok; rewrite Ho, Hz; exact Hok).
  assert (Hgo : (let '(os2, off) := Native.lseek os1 (Impl.fd s1) position in
                 if off =? -1 then (Thrown SeekFailed, s1, os2)
                 else (Returned tt,
                       Impl.set_offsets s1 position
                         (if Impl.fileSize s1 <? position then position else Impl.fileSize s1),
                       os2)) = (r, s', os') -> counters_ok s').
  { unfold Native.lseek. destruct (Native.get os1 (Impl.fd s1)) as [f |].
    - destruct (Z.leb_spec position OFF_MAX).
      + destruct (position =? -1); intros [= <- <- <-]; [exact Hok1 |].
        unfold counters_ok in *. simpl.
        destruct (Z.ltb_spec (Impl.fileSize s1) position); lia.
      + simpl. intros [= <- <- <-]. exact Hok1.
    - simpl. intros [= <- <- <-]. exact Hok1. }
  destruct rf; [exact Hgo | | exact Hgo].
  intros [= <- <- <-]. exact Hok1.
Qed.

Lemma readsome_counters (s : Impl.t) (os : Native.OS) (len : Z) r got s' os' :
  counters_ok s ->
  0 <= len <= OFF_MAX ->
  FileStream.readsome s os len = (r, got, s', os') ->
  counters_ok s'.
Proof.
  intros ((Hc0 & Hc) & Hs) Hlen. pose proof OFF_MAX_val as HO.
  unfold FileStream.readsome. rewrite (wrap_small (Impl.currentOffset s + len)) by lia.
  set (req := if Impl.fileSize s <=? Impl.currentOffset s + len
              then wrap (Impl.fileSize s - Impl.currentOffset s) else len).
  assert (Hreq : 0 <= req /\ Impl.currentOffset s + req <= Impl.fileSize s).
  { unfold req. destruct (Z.leb_spec (Impl.fileSize s) (Impl.currentOffset s + len)).
    - rewrite wrap_small by lia. lia.
    - lia. }
  unfold Impl.read, Native.read.
  destruct (Native.get os (Impl.fd s)) as [f |]; [| simpl; intros [= <- <- <- <-]; repeat split; auto].
  destruct (Native.readable f); [| simpl; intros [= <- <- <- <-]; repeat split; auto].
  set (bytes := take (Z.to_nat req) _).
  assert (Hb : Z.of_nat (length bytes) <= req) by (unfold bytes; rewrite length_take; lia).
  destruct (Z.eqb_spec (Z.of_nat (length bytes)) (-1)); [lia |].
  intros [= <- <- <- <-]. unfold counters_ok. simpl.
  rewrite wrap_small by lia. lia.
Qed.

Lemma exec_counters (fuel : nat) (op : Op) (s : Impl.t) (os : Native.OS) r s' os' :
  counters_ok s ->
  valid_op op ->
  exec fuel op s os = (r, s', os') ->
  counters_ok s'.
Proof.
  intros Hok Hv. destruct op as [data | position | len |]; simpl in *.
  - destruct (FileStream.writesome fuel s os data) as [[r1 s1] os1] eqn:Hw.
    pose proof (write_counters _ _ _ _ _ _ _ Hok Hw).
    destruct r1; intros [= <- <- <-]; assumption.
  - destruct (FileStream.seek s os position) as [[r1 s1] os1] eqn:Hs.
    pose proof (seek_counters _ _ _ _ _ _ Hok (proj1 Hv) Hs).
    destruct r1; intros [= <- <- <-]; assumption.
  - destruct (FileStream.readsome s os len) as [[[r1 got] s1] os1] eqn:Hr.
    pose proof (readsome_counters _ _ _ _ _ _ _ Hok Hv Hr).
    destruct r1; intros [= <- <- <-]; assumption.
  - destruct (FileStream.close s os) as [[r1 s1] os1] eqn:Hc.
    destruct (close_releases _ _ _ _ _ Hc) as ([Ho Hz] & _).
    assert (counters_ok s1) by (unfold counters_ok; rewrite Ho, Hz; exact Hok).
    destruct r1; intros [= <- <- <-]; assumption.
Qed.

Lemma reachable_counters (s : Impl.t) (os : Native.OS) :
  reachable s os -> counters_ok s.
Proof.
  induction 1 as [os fp truncate m s os1 Hfit Hmake | s os fuel op r s' os' _ IH Hv Hex _].
  - eapply make_counters; eauto.
  - eapply exec_counters; eauto.
Qed.

Lemma flush_buffer (s : Impl.t) (os : Native.OS) r s' os' :
  buffer_ok s -> Impl.flush s os = (r, s', os') -> buffer_ok s'.
Proof.
  intros Hok Hf. destruct (flush_frame _ _ _ _ _ Hf) as [-> | ->]; [exact Hok |].
  unfold buffer_ok, IOBuffer.size. simpl. pose proof kBufferSize_val. lia.
Qed.

Lemma write_tail_buffer (s : Impl.t) (os : Native.OS) data len n k :
  buffer_ok s ->
  match Impl.write_tail s os data len n k with
  | Impl.Done (_, s', _) => buffer_ok s'
  | Impl.Again s' _ _ _ => buffer_ok s'
  end.
Proof.
  intros Hok. unfold Impl.write_tail.
  destruct (MAX_WRITE_FILE_SIZE <=? _); [exact Hok |].
  destruct (wrap (n + k) <? len); exact Hok.
Qed.

Lemma write_turn_buffer (s : Impl.t) (os : Native.OS) data len n :
  buffer_ok s ->
  match Impl.write_turn s os data len n with
  | Impl.Done (_, s', _) => buffer_ok s'
  | Impl.Again s' _ _ _ => buffer_ok s'
  end.
Proof.
  intros Hok. unfold Impl.write_turn. rewrite buffer_write_spec.
  set (k := Z.min (wrap (len - n)) (kBufferSize - IOBuffer.size (Impl.buffer_ s))).
  set (b := {| IOBuffer.staged := IOBuffer.staged (Impl.buffer_ s) ++ take (Z.to_nat k) data |}).
  assert (Hok1 : buffer_ok (Impl.set_buffer s b)).
  { unfold buffer_ok, IOBuffer.size in *. simpl. rewrite length_app, length_take.
    pose proof (wrap_range (len - n)). unfold k. lia. }
  destruct (k <? len).
  - destruct (Impl.flush (Impl.set_buffer s b) os) as [[r s1] os1] eqn:Hf.
    pose proof (flush_buffer _ _ _ _ _ Hok1 Hf) as Hok2.
    destruct r as [nFlushed | e |]; try exact Hok2.
    destruct (nFlushed <? k); [exact Hok2 |].
    apply write_tail_buffer. exact Hok2.
  - apply write_tail_buffer. exact Hok1.
Qed.

Lemma write_loop_buffer (fuel : nat) : forall s os data len n r s' os',
  buffer_ok s ->
  Impl.write_loop fuel s os data len n = (r, s', os') ->
  buffer_ok s'.
Proof.
  induction fuel as [|fuel IH]; intros s os data len n r s' os' Hok.
  - simpl. intros [= <- <- <-]. exact Hok.
  - rewrite write_loop_S. pose proof (write_turn_buffer s os data len n Hok) as Ht.
    destruct (Impl.write_turn s os data len n) as [[[r1 s1] os1] | s1 os1 d1 n1].
    + intros [= <- <- <-]. exact Ht.
    + intros Hl. exact (IH _ _ _ _ _ _ _ _ Ht Hl).
Qed.

Lemma exec_buffer (fuel : nat) (op : Op) (s : Impl.t) (os : Native.OS) r s' os' :
  buffer_ok s ->
  exec fuel op s os = (r, s', os') ->
  buffer_ok s'.
Proof.
  intros Hok. destruct op as [data | position | len |]; simpl.
  - destruct (FileStream.writesome fuel s os data) as [[r1 s1] os1] eqn:Hw.
    pose proof (write_loop_buffer _ _ _ _ _ _ _ _ _ Hok Hw).
    destruct r1; intros [= <- <- <-]; assumption.
  - unfold FileStream.seek, Impl.seek.
    destruct (Impl.flush s os) as [[rf s1] os1] eqn:Hf.
    pose proof (flush_buffer _ _ _ _ _ Hok Hf) as Hok1.
    destruct (Native.lseek os1 (Impl.fd s1) position) as [os2 off].
    destruct rf; destruct (off =? -1); intros [= <- <- <-]; exact Hok1.
  - unfold FileStream.readsome, Impl.read.
    destruct (Native.read os (Impl.fd s) _) as [[os1 n] bytes].
    destruct (n =? -1); intros [= <- <- <-]; exact Hok.
  - unfold FileStream.close, Impl.close.
    destruct (Impl.flush s os) as [[rf s1] os1] eqn:Hf.
    pose proof (flush_buffer _ _ _ _ _ Hok Hf) as Hok1.
    destruct rf; destruct (0 <? Impl.fd s1); intros [= <- <- <-]; exact Hok1.
Qed.

Lemma reachable_buffer (s : Impl.t) (os : Native.OS) :
  reachable s os -> buffer_ok s.
Proof.
  induction 1 as [os fp truncate m s os1 Hfit Hmake | s os fuel op r s' os' _ IH Hv Hex _].
  - unfold buffer_ok. rewrite (make_buffer _ _ _ _ _ _ Hmake).
    unfold IOBuffer.size. simpl. pose proof kBufferSize_val. lia.
  - eapply exec_buffer; eauto.
Qed.

(** ** The example processes *)

Lemma zeros_length (n : nat) : length (zeros n) = n.
Proof. apply repeat_length. Qed.

Lemma boot_fits_off_t : fits_off_t boot.
Proof. intros p c H. simpl in H. rewrite lookup_empty in H. discriminate. Qed.

Example fresh_writer_made :
  Impl.make boot "out.bin" false Write = (Returned fresh_writer, fresh_os).
Proof. vm_compute. reflexivity. Qed.

Example near_limit_reached :
  session boot "out.bin" Write 0 [OpSeek 999999999] =
    Some ([Returned Sought], near_limit, near_limit_os).
Proof. vm_compute. reflexivity. Qed.

Lemma near_limit_reachable : reachable near_limit near_limit_os.
Proof.
  apply (reach_exec fresh_writer fresh_os 0 (OpSeek 999999999) (Returned Sought)).
  - apply (reach_make boot "out.bin" false Write).
    + exact boot_fits_off_t.
    + vm_compute. reflexivity.
  - vm_compute. split; [discriminate | reflexivity].
  - vm_compute. reflexivity.
  - discriminate.
Qed.

Example disk_reader_made :
  Impl.make disk "in.bin" false Read = (Returned disk_reader, disk_open).
Proof. vm_compute. reflexivity. Qed.

(** * The properties claimed of the stream *)

(** ** C1: the round trip *)

(** C1, as amended: for every byte sequence shorter than
    [MAX_WRITE_FILE_SIZE], opening a fresh file for writing, writing the
    bytes, closing, opening the file again in [Read] mode and reading from
    offset 0 yields exactly the bytes written.  The length is free below
    the limit, so 0, 1, the buffer capacity, its neighbours and its
    multiples are all covered; the read may ask for the exact length or
    for more. *)
Theorem roundtrip_below_limit (os : Native.OS) (fp : string) (truncate : bool)
    (m : Mode) (data : list byte_t) (fuel : nat) :
  Impl.writes m = true ->
  Native.limits os = [] ->
  Z.of_nat (length data) < MAX_WRITE_FILE_SIZE ->
  (length data + 2 <= fuel)%nat ->
  exists w os1 w2 os2 w3 os3 r os4,
    Impl.make os fp truncate m = (Returned w, os1) /\
    FileStream.writesome fuel w os1 data = (Returned (Z.of_nat (length data)), w2, os2) /\
    FileStream.close w2 os2 = (Returned tt, w3, os3) /\
    Impl.make os3 fp false Read = (Returned r, os4) /\
    FileStream.tell r = 0 /\
    FileStream.size r = Z.of_nat (length data) /\
    forall n, Z.of_nat (length data) <= n < 2 ^ 64 ->
      exists r' os5,
        FileStream.readsome r os4 n = (Returned (Z.of_nat (length data)), data, r', os5).
Proof.
  intros Hm Hl Hlen Hfuel. pose proof MAX_WRITE_FILE_SIZE_val as HM.
  destruct (make_writer os fp truncate m Hm Hl)
    as (w & os1 & f & Hmake & Hw & He & Hp & Hc & _ & Hsz & Hoff & Hbuf & _).
  assert (Hb : IOBuffer.size (Impl.buffer_ w) <= kBufferSize)
    by (rewrite Hbuf; pose proof kBufferSize_val; unfold IOBuffer.size; simpl; lia).
  destruct (write_writer fuel w os1 f data Hw Hb ltac:(lia) ltac:(lia) Hfuel)
    as (w2 & os2 & f2 & Hrun & Hw2 & Hp2 & _ & _ & _ & Hpost).
  rewrite Hoff, Z.add_0_l in Hrun, Hpost.
  destruct (Z.leb_spec MAX_WRITE_FILE_SIZE (Z.of_nat (length data))); [lia |].
  destruct (Hpost He) as [He2 Hdata]. specialize (Hdata Hlen).
  rewrite Hp, Hc, Hbuf in Hdata. simpl in Hdata.
  destruct (close_writer w2 os2 f2 Hw2 He2) as (w3 & os3 & Hclose & Hfile & _).
  rewrite Hp2, Hp, Hdata in Hfile.
  destruct (make_reader os3 fp false data Hfile)
    as (r & os4 & Hopen & _ & Hrsz & Hroff & _ & Hget & Hfiles).
  exists w, os1, w2, os2, w3, os3, r, os4.
  split; [exact Hmake |]. split; [exact Hrun |]. split; [exact Hclose |].
  split; [exact Hopen |]. split; [exact Hroff |]. split; [exact Hrsz |].
  intros n Hn.
  destruct (readsome_spec r os4 _ n Hget eq_refl) as (os5 & Hread & _);
    [rewrite Hroff, Hrsz; lia | lia | rewrite Hroff; lia |].
  rewrite Hroff, Hrsz, Z.add_0_l, Z.sub_0_r in Hread.
  destruct (Z.leb_spec (Z.of_nat (length data)) n); [| lia].
  assert (Hgot : take (Z.to_nat (Z.of_nat (length data)))
                   (drop (Z.to_nat 0) (Native.content os4 fp)) = data).
  { unfold Native.content. rewrite Hfiles, Hfile. simpl.
    rewrite Nat2Z.id. apply firstn_all. }
  simpl in Hread. rewrite Hgot in Hread.
  eexists _, os5. exact Hread.
Qed.

Lemma roundtrip_below_limit_witness :
  exists w os1 w2 os2 w3 os3 r os4,
    Impl.make boot "out.bin" false Write = (Returned w, os1) /\
    FileStream.writesome 5 w os1 [Byte.x01; Byte.x02; Byte.x03] = (Returned 3, w2, os2) /\
    FileStream.close w2 os2 = (Returned tt, w3, os3) /\
    Impl.make os3 "out.bin" false Read = (Returned r, os4) /\
    FileStream.tell r = 0 /\
    FileStream.size r = 3 /\
    forall n, 3 <= n < 2 ^ 64 ->
      exists r' os5,
        FileStream.readsome r os4 n =
          (Returned 3, [Byte.x01; Byte.x02; Byte.x03], r', os5).
Proof.
  apply (roundtrip_below_limit boot "out.bin" false Write
           [Byte.x01; Byte.x02; Byte.x03] 5).
  - reflexivity.
  - reflexivity.
  - reflexivity.
  - simpl. lia.
Defined.

(** C1 as stated fails: a sequence of [MAX_WRITE_FILE_SIZE] bytes is
    never written to a fresh file.  The write throws, and no number of
    turns of its loop makes it return. *)
Lemma roundtrip_stops_at_limit :
  Impl.make boot "out.bin" false Write = (Returned fresh_writer, fresh_os) /\
  (exists w2 os2,
      FileStream.writesome (Z.to_nat (MAX_WRITE_FILE_SIZE + 2)) fresh_writer fresh_os
        (zeros (Z.to_nat MAX_WRITE_FILE_SIZE)) = (Thrown MaxFileSize, w2, os2)) /\
  (forall fuel n w2 os2,
      FileStream.writesome fuel fresh_writer fresh_os
        (zeros (Z.to_nat MAX_WRITE_FILE_SIZE)) <> (Returned n, w2, os2)).
Proof.
  pose proof MAX_WRITE_FILE_SIZE_val as HM.
  split; [vm_compute; reflexivity |].
  assert (Hw : writer fresh_writer fresh_os fresh_file) by (repeat split; reflexivity).
  destruct (write_at_limit (Z.to_nat (MAX_WRITE_FILE_SIZE + 2)) fresh_writer fresh_os
              fresh_file (zeros (Z.to_nat MAX_WRITE_FILE_SIZE)) Hw)
    as (w2 & os2 & Hrun & _); rewrite ?zeros_length.
  - pose proof kBufferSize_val. change (IOBuffer.size (Impl.buffer_ fresh_writer)) with 0. lia.
  - change (Impl.currentOffset fresh_writer) with 0. lia.
  - change (Impl.currentOffset fresh_writer) with 0. lia.
  - change (Impl.currentOffset fresh_writer) with 0. lia.
  - lia.
  - split; [exists w2, os2; exact Hrun |].
    intros fuel n w3 os3 Hret.
    unfold FileStream.writesome, Impl.write in Hrun, Hret.
    destruct (Nat.le_ge_cases fuel (Z.to_nat (MAX_WRITE_FILE_SIZE + 2))) as [Hle | Hge].
    + rewrite (write_loop_more_fuel _ _ _ _ _ _ _ _ _ _ Hret ltac:(discriminate) Hle) in Hrun.
      discriminate.
    + rewrite (write_loop_more_fuel _ _ _ _ _ _ _ _ _ _ Hrun ltac:(discriminate) Hge) in Hret.
      discriminate.
Qed.

(** ** C2: the size limit *)




(** The bytes of a write that threw at the limit stay staged, and
    [close()] sends them to the file, which then ends beyond the limit:
    the check of the limit comes after the bytes were taken. *)
Lemma limit_bytes_committed :
  FileStream.writesome 1 near_limit near_limit_os [Byte.x01; Byte.x02] =
    (Thrown MaxFileSize, over_limit, near_limit_os) /\
  exists s' os',
    FileStream.close over_limit near_limit_os = (Returned tt, s', os') /\
    Z.of_nat (length (Native.content os' "out.bin")) = MAX_WRITE_FILE_SIZE + 1.
Proof.
  split; [vm_compute; reflexivity |].
  assert (Hw : writer over_limit near_limit_os near_limit_file)
    by (repeat split; reflexivity).
  unfold FileStream.close, Impl.close.
  rewrite (flush_writer_staged _ _ _ Hw) by discriminate.
  change (0 <? Impl.fd (Impl.set_buffer over_limit IOBuffer.empty)) with true.
  cbv iota.
  eexists _, _. split; [reflexivity |].
  rewrite close_content.
  rewrite (after_write_content_at near_limit_os _ near_limit_file _ "out.bin" eq_refl).
  rewrite overwrite_length.
  replace (Native.content near_limit_os "out.bin") with (@nil byte_t) by reflexivity.
  change (Native.pos near_limit_file) with 999999999.
  change (length (IOBuffer.staged (Impl.buffer_ over_limit))) with 2%nat.
  change (length (@nil byte_t)) with 0%nat.
  rewrite MAX_WRITE_FILE_SIZE_val. lia.
Qed.

(** ** C3: calls after [close()] *)




(** ** C4: the cursor never passes the size *)

(** C4: from the construction of a stream on, after every write, seek,
    read or close that has returned or thrown, [tell() <= size()]. *)
Theorem cursor_within_size (s : Impl.t) (os : Native.OS) :
  reachable s os -> FileStream.tell s <= FileStream.size s.
Proof. intros H. apply reachable_counters in H. apply H. Qed.

Lemma cursor_within_size_witness :
  FileStream.tell near_limit <= FileStream.size near_limit.
Proof.
  apply (cursor_within_size near_limit near_limit_os).
  exact near_limit_reachable.
Defined.

(** ** C5: reads stop at the logical size *)

(** C5, as amended: on an open readable stream, a read whose requested
    length reaches or crosses [size()] asks the native handle for exactly
    [size() - tell()] bytes.  It returns normally, never with more bytes
    than that, and [tell()] advances by what it returns; it returns
    exactly [size() - tell()] bytes when the file holds that many from
    the descriptor's offset on; at end of file it returns no byte. *)
Theorem read_clamped_at_size (s : Impl.t) (os : Native.OS) (f : Native.OpenFile) (len : Z) :
  Native.get os (Impl.fd s) = Some f ->
  Native.readable f = true ->
  0 <= FileStream.tell s <= FileStream.size s ->
  0 <= len ->
  FileStream.tell s + len < 2 ^ 64 ->
  FileStream.size s <= FileStream.tell s + len ->
  exists got s' os',
    FileStream.readsome s os len = (Returned (Z.of_nat (length got)), got, s', os') /\
    got = take (Z.to_nat (FileStream.size s - FileStream.tell s))
               (drop (Z.to_nat (Native.pos f)) (Native.content os (Native.path f))) /\
    Z.of_nat (length got) <= FileStream.size s - FileStream.tell s /\
    FileStream.tell s' = FileStream.tell s + Z.of_nat (length got) /\
    FileStream.size s' = FileStream.size s /\
    (0 <= Native.pos f ->
     FileStream.size s - FileStream.tell s <=
       Z.of_nat (length (Native.content os (Native.path f))) - Native.pos f ->
     Z.of_nat (length got) = FileStream.size s - FileStream.tell s) /\
    (FileStream.tell s = FileStream.size s -> got = []).
Proof.
  unfold FileStream.tell, FileStream.size. intros Hget Hr Hc Hlen Hlt Hcross.
  destruct (readsome_spec s os f len Hget Hr Hc Hlen Hlt) as (os' & Hread & Hle & _).
  destruct (Z.leb_spec (Impl.fileSize s) (Impl.currentOffset s + len)); [| lia].
  eexists _, _, os'. split; [exact Hread |]. split; [reflexivity |].
  split; [exact Hle |]. split; [reflexivity |]. split; [reflexivity |]. split.
  - intros Hpos Hhave. rewrite length_take, length_drop. lia.
  - intros Heq. rewrite Heq, Z.sub_diag. reflexivity.
Qed.

Lemma read_clamped_at_size_witness :
  exists s' os',
    FileStream.readsome disk_reader disk_open 10 =
      (Returned 2, [Byte.x01; Byte.x02], s', os') /\
    FileStream.tell s' = 2.
Proof.
  destruct (read_clamped_at_size disk_reader disk_open disk_file 10)
    as (got & s' & os' & Hread & Hgot & _ & Htell & _).
  - vm_compute. reflexivity.
  - reflexivity.
  - vm_compute. split; discriminate.
  - vm_compute. discriminate.
  - reflexivity.
  - vm_compute. discriminate.
  - exists s', os'. vm_compute in Hgot. subst got. split; [exact Hread | exact Htell].
Defined.

(** C5 as stated fails: a seek to 5 on the two-byte file makes [size()] 5;
    back at offset 0, a read of 10 bytes returns 2 bytes, not
    [size() - tell()] = 5. *)
Lemma read_short_of_size :
  seen (session disk "in.bin" Read 0 [OpSeek 5; OpSeek 0]) =
    Some ([Returned Sought; Returned Sought], 0, 5) /\
  seen (session disk "in.bin" Read 0 [OpSeek 5; OpSeek 0; OpRead 10]) =
    Some ([Returned Sought; Returned Sought; Returned (Got 2 [Byte.x01; Byte.x02])], 2, 5).
Proof. split; vm_compute; reflexivity. Qed.

(** ** C6: seek *)



(** ** C7: native writes at the buffer boundary *)




(** ** C8: a flush that falls short *)

(** C8, at the failing input: ten bytes are staged by a first write; in
    the second, of 4096 bytes, the flush hands over 4096 staged bytes and
    the device takes 4090 of them.  The loop compares the 4090 with the
    4086 bytes this turn had staged, goes on, and the call returns 4096
    with [tell()] and [size()] advanced to 4106. *)
Theorem short_flush_unnoticed :
  native_writes (session stingy "out.bin" Write 2 [OpWrite (zeros 10); OpWrite (zeros 4096)]) =
    Some ([Returned (Wrote 10); Returned (Wrote 4096)], [(4096, 4090); (10, 10)]) /\
  seen (session stingy "out.bin" Write 2 [OpWrite (zeros 10); OpWrite (zeros 4096)]) =
    Some ([Returned (Wrote 10); Returned (Wrote 4096)], 4106, 4106).
Proof. split; vm_compute; reflexivity. Qed.

(** Where the early return does work: a write that starts on an empty
    buffer, on a descriptor open for writing.  If a native write of the
    call transferred fewer bytes than it was handed, the call returns
    that count, and [tell()] and [size()] are as they were. *)
Theorem short_flush_from_empty_buffer (fuel : nat) (s : Impl.t) (os : Native.OS)
    (data : list byte_t) (r : outcome Z) (s' : Impl.t) (os' : Native.OS) :
  FileStream.canWrite s = true ->
  open_for_writing os (Impl.fd s) ->
  IOBuffer.staged (Impl.buffer_ s) = [] ->
  0 <= FileStream.tell s ->
  FileStream.tell s + Z.of_nat (length data) < 2 ^ 64 ->
  FileStream.writesome fuel s os data = (r, s', os') ->
  exists l,
    Native.wlog os' = Native.wlog os ++ l /\
    forall req got, In (req, got) l -> got < req ->
      r = Returned got /\
      FileStream.tell s' = FileStream.tell s /\
      FileStream.size s' = FileStream.size s.
Proof.
  intros Hcw Hopen Hst Hc Hlt Hrun. rewrite canWrite_writes in Hcw.
  unfold FileStream.writesome, Impl.write in Hrun.
  replace (Z.of_nat (length data)) with (0 + Z.of_nat (length data)) in Hrun by lia.
  destruct (write_loop_short fuel s os data 0 r s' os' Hcw Hopen Hst ltac:(lia) Hc
              ltac:(unfold FileStream.tell in Hlt; lia) Hrun) as (l & Hlog & Hl).
  exists l. split; [exact Hlog |].
  intros req got Hin Hshort. destruct (Hl req got Hin Hshort) as [Hr [Ho Hz]].
  split; [exact Hr |]. split; assumption.
Qed.

Lemma short_flush_from_empty_buffer_witness :
  exists l,
    Native.wlog (snd (FileStream.writesome 2 fresh_writer fresh_os_short (zeros 5000))) =
      Native.wlog fresh_os_short ++ l /\
    forall req got, In (req, got) l -> got < req ->
      fst (fst (FileStream.writesome 2 fresh_writer fresh_os_short (zeros 5000))) =
        Returned got /\
      FileStream.tell (snd (fst (FileStream.writesome 2 fresh_writer fresh_os_short (zeros 5000))))
        = FileStream.tell fresh_writer /\
      FileStream.size (snd (fst (FileStream.writesome 2 fresh_writer fresh_os_short (zeros 5000))))
        = FileStream.size fresh_writer.
Proof.
  apply (short_flush_from_empty_buffer 2 fresh_writer fresh_os_short (zeros 5000)).
  - reflexivity.
  - exists fresh_file. split; reflexivity.
  - reflexivity.
  - vm_compute. discriminate.
  - vm_compute. reflexivity.
  - destruct (FileStream.writesome 2 fresh_writer fresh_os_short (zeros 5000)) as [[r s'] os'].
    reflexivity.
Defined.

(** The run behind the witness: 4096 bytes are handed over, 4000 are
    taken, and the call returns 4000 with [tell()] and [size()] at 0. *)
Example short_flush_from_empty_buffer_run :
  fst (FileStream.writesome 2 fresh_writer fresh_os_short (zeros 5000)) =
    (Returned 4000, fresh_writer) /\
  Native.wlog (snd (FileStream.writesome 2 fresh_writer fresh_os_short (zeros 5000))) =
    [(4096, 4000)].
Proof. split; vm_compute; reflexivity. Qed.

(** ** C9: what a stream can do *)

(** C9: [canRead()] and [canWrite()] are functions of the mode alone, and
    no sequence of calls, [close()] among them, changes the mode: a
    stream in [Write] mode reports [canWrite()] after [close()] as before. *)
Theorem capabilities_stable (fuel : nat) (ops : list Op) (s : Impl.t) (os : Native.OS) :
  FileStream.canRead s = negb (Mode_eqb (Impl.mode s) Write) /\
  FileStream.canWrite s = negb (Mode_eqb (Impl.mode s) Read) /\
  (let s' := snd (fst (run fuel ops s os)) in
   Impl.mode s' = Impl.mode s /\
   FileStream.canRead s' = FileStream.canRead s /\
   FileStream.canWrite s' = FileStream.canWrite s) /\
  (Impl.mode s = Write ->
   FileStream.canWrite (snd (fst (FileStream.close s os))) = true).
Proof.
  split; [unfold FileStream.canRead; destruct (Impl.mode s); reflexivity |].
  split; [unfold FileStream.canWrite; destruct (Impl.mode s); reflexivity |].
  split.
  - destruct (run fuel ops s os) as [[rs s'] os'] eqn:Hrun. simpl.
    pose proof (run_frame _ _ _ _ _ _ _ Hrun) as Hm.
    unfold FileStream.canRead, FileStream.canWrite. rewrite Hm. auto.
  - intros Hm. destruct (FileStream.close s os) as [[r s'] os'] eqn:Hc. simpl.
    destruct (close_releases _ _ _ _ _ Hc) as (_ & Hm' & _).
    unfold FileStream.canWrite. rewrite Hm', Hm. reflexivity.
Qed.

(** ** C10: a write of no byte *)

(** C10: on any stream a program can get to, with [tell()] below
    [MAX_WRITE_FILE_SIZE], a write of zero bytes returns 0 and changes
    nothing: not [tell()], not [size()], not the staged bytes, and no
    native call is made. *)
Theorem zero_length_write (fuel : nat) (s : Impl.t) (os : Native.OS) :
  reachable s os ->
  FileStream.tell s < MAX_WRITE_FILE_SIZE ->
  (0 < fuel)%nat ->
  exists s',
    FileStream.writesome fuel s os [] = (Returned 0, s', os) /\
    FileStream.tell s' = FileStream.tell s /\
    FileStream.size s' = FileStream.size s /\
    IOBuffer.staged (Impl.buffer_ s') = IOBuffer.staged (Impl.buffer_ s).
Proof.
  intros Hreach Hlim Hfuel. unfold FileStream.tell, FileStream.size in *.
  destruct (reachable_counters _ _ Hreach) as [[Hc0 Hc] Hs].
  pose proof (reachable_buffer _ _ Hreach) as Hb. unfold buffer_ok in Hb.
  pose proof MAX_WRITE_FILE_SIZE_val.
  pose proof (write_fits fuel s os [] Hfuel) as Hrun. simpl length in Hrun.
  specialize (Hrun ltac:(lia) Hc0 ltac:(lia)). cbv zeta in Hrun.
  rewrite Z.add_0_r in Hrun.
  destruct (Z.leb_spec MAX_WRITE_FILE_SIZE (Impl.currentOffset s)); [lia |].
  eexists. split; [exact Hrun |]. simpl. rewrite app_nil_r.
  split; [reflexivity |]. split; [lia | reflexivity].
Qed.

Lemma zero_length_write_witness :
  exists s',
    FileStream.writesome 1 near_limit near_limit_os [] = (Returned 0, s', near_limit_os) /\
    FileStream.tell s' = 999999999 /\
    FileStream.size s' = 999999999 /\
    IOBuffer.staged (Impl.buffer_ s') = [].
Proof.
  apply (zero_length_write 1 near_limit near_limit_os).
  - exact near_limit_reachable.
  - reflexivity.
  - lia.
Defined.

(** * A call that never ends *)

(** A stream in [Read] mode never flushes.  Once its buffer is full, a
    write of at least one byte stages nothing, flushes nothing and goes
    round again in the state it started from: the call never ends. *)
Theorem write_on_full_reader_never_ends (fuel : nat) (s : Impl.t) (os : Native.OS)
    (data : list byte_t) :
  Impl.mode s = Read ->
  IOBuffer.size (Impl.buffer_ s) = kBufferSize ->
  data <> [] ->
  Z.of_nat (length data) < 2 ^ 64 ->
  0 <= FileStream.tell s < MAX_WRITE_FILE_SIZE ->
  FileStream.writesome fuel s os data = (Unfinished, s, os).
Proof.
  intros Hm Hfull Hne Hlen Hc. unfold FileStream.tell in Hc.
  pose proof MAX_WRITE_FILE_SIZE_val as HM.
  assert (Hd : 0 < Z.of_nat (length data)) by (destruct data; [congruence | simpl; lia]).
  unfold FileStream.writesome, Impl.write.
  induction fuel as [|fuel IH]; [reflexivity |].
  rewrite write_loop_S. unfold Impl.write_turn.
  rewrite Z.sub_0_r, wrap_small by lia.
  rewrite buffer_write_spec, Hfull, Z.sub_diag, Z.min_r by lia.
  change (take (Z.to_nat 0) data) with (@nil byte_t).
  rewrite set_buffer_same.
  destruct (Z.ltb_spec 0 (Z.of_nat (length data))); [| lia].
  rewrite flush_reader by (rewrite Hm; reflexivity).
  rewrite Z.ltb_irrefl.
  rewrite write_tail_spec by lia.
  rewrite !Z.add_0_r.
  destruct (Z.leb_spec MAX_WRITE_FILE_SIZE (Impl.currentOffset s)); [lia |].
  destruct (Z.ltb_spec 0 (Z.of_nat (length data))); [| lia].
  change (drop (Z.to_nat 0) data) with data. exact IH.
Qed.

Lemma write_on_full_reader_never_ends_witness :
  FileStream.writesome 1000 stuffed_reader disk_open [Byte.x01] =
    (Unfinished, stuffed_reader, disk_open).
Proof.
  apply (write_on_full_reader_never_ends 1000 stuffed_reader disk_open [Byte.x01]).
  - reflexivity.
  - vm_compute. reflexivity.
  - discriminate.
  - vm_compute. reflexivity.
  - vm_compute. split; [discriminate | reflexivity].
Defined.

(** How a reader gets there: a write of 4096 bytes on the stream just
    opened is staged whole. *)
Example stuffed_reader_reached :
  session disk "in.bin" Read 1 [OpWrite (zeros 4096)] =
    Some ([Returned (Wrote 4096)], stuffed_reader, disk_open).
Proof. vm_compute. reflexivity. Qed.

(** * Further properties of the stream *)

(** ** [size()] never goes down *)

Lemma seek_offsets (s : Impl.t) (os : Native.OS) (position : Z) r s' os' :
  Impl.seek s os position = (r, s', os') ->
  same_offsets s s' \/
  (r = Returned tt /\ position <= OFF_MAX /\
   Impl.currentOffset s' = position /\
   Impl.fileSize s' = (if Impl.fileSize s <? position then position else Impl.fileSize s)).
Proof.
  unfold Impl.seek. destruct (Impl.flush s os) as [[rf s1] os1] eqn:Hf.
  destruct (flush_same _ _ _ _ _ Hf) as [_ [Ho Hz]].
  assert (Hgo : (let '(os2, off) := Native.lseek os1 (Impl.fd s1) position in
                 if off =? -1 then (Thrown SeekFailed, s1, os2)
                 else (Returned tt,
                       Impl.set_offsets s1 position
                         (if Impl.fileSize s1 <? position then position else Impl.fileSize s1),
                       os2)) = (r, s', os') ->
                same_offsets s s' \/
                (r = Returned tt /\ position <= OFF_MAX /\
                 Impl.currentOffset s' = position /\
                 Impl.fileSize s' =
                   (if Impl.fileSize s <? position then position else Impl.fileSize s))).
  { unfold Native.lseek. destruct (Native.get os1 (Impl.fd s1)) as [f |].
    - destruct (Z.leb_spec position OFF_MAX).
      + destruct (position =? -1); intros [= <- <- <-]; [left; split; assumption |].
        right. simpl. rewrite Hz. auto.
      + simpl. intros [= <- <- <-]. left; split; assumption.
    - simpl. intros [= <- <- <-]. left; split; assumption. }
  destruct rf; [exact Hgo | | exact Hgo].
  intros [= <- <- <-]. left; split; assumption.
Qed.

Lemma exec_size_mono (fuel : nat) (op : Op) (s : Impl.t) (os : Native.OS) r s' os' :
  exec fuel op s os = (r, s', os') ->
  FileStream.size s <= FileStream.size s'.
Proof.
  unfold FileStream.size. destruct op as [data | position | len |]; simpl.
  - destruct (FileStream.writesome fuel s os data) as [[r1 s1] os1] eqn:Hw.
    assert (Impl.fileSize s <= Impl.fileSize s1).
    { destruct (write_loop_frame _ _ _ _ _ _ _ _ _ Hw) as [_ [[_ Hz] | (n & _ & _ & _ & Hz)]];
        rewrite Hz; [lia |].
      destruct (Z.ltb_spec (Impl.fileSize s) (wrap (Impl.currentOffset s + n))); lia. }
    destruct r1; intros [= <- <- <-]; assumption.
  - destruct (FileStream.seek s os position) as [[r1 s1] os1] eqn:Hs.
    assert (Impl.fileSize s <= Impl.fileSize s1).
    { destruct (seek_offsets _ _ _ _ _ _ Hs) as [[_ Hz] | (_ & _ & _ & Hz)];
        rewrite Hz; [lia |].
      destruct (Z.ltb_spec (Impl.fileSize s) position); lia. }
    destruct r1; intros [= <- <- <-]; assumption.
  - unfold FileStream.readsome, Impl.read.
    destruct (Native.read os (Impl.fd s) _) as [[os1 n] bytes].
    destruct (n =? -1); intros [= <- <- <-]; simpl; lia.
  - destruct (FileStream.close s os) as [[r1 s1] os1] eqn:Hc.
    destruct (close_releases _ _ _ _ _ Hc) as ([_ Hz] & _).
    destruct r1; intros [= <- <- <-]; rewrite Hz; lia.
Qed.

(** No call makes [size()] smaller, whether it returns or throws: the
    logical size only grows over the life of a stream. *)
Theorem size_never_decreases (fuel : nat) (ops : list Op) (s : Impl.t) (os : Native.OS) :
  FileStream.size s <= FileStream.size (snd (fst (run fuel ops s os))).
Proof.
  revert s os. induction ops as [|op ops IH]; intros s os; simpl; [lia |].
  destruct (exec fuel op s os) as [[r s1] os1] eqn:Hex.
  specialize (IH s1 os1).
  destruct (run fuel ops s1 os1) as [[rs s2] os2]. simpl in *.
  pose proof (exec_size_mono _ _ _ _ _ _ _ Hex). lia.
Qed.

(** ** A stream in [Read] mode leaves the files alone *)

Lemma native_read_files (os : Native.OS) (d len : Z) :
  Native.files (fst (fst (Native.read os d len))) = Native.files os /\
  Native.wlog (fst (fst (Native.read os d len))) = Native.wlog os.
Proof.
  unfold Native.read. destruct (Native.get os d) as [f |]; [| auto].
  destruct (Native.readable f); auto.
Qed.

Lemma native_lseek_files (os : Native.OS) (d position : Z) :
  Native.files (fst (Native.lseek os d position)) = Native.files os /\
  Native.wlog (fst (Native.lseek os d position)) = Native.wlog os.
Proof.
  unfold Native.lseek. destruct (Native.get os d) as [f |]; [| auto].
  destruct (position <=? OFF_MAX); auto.
Qed.

Lemma native_close_files (os : Native.OS) (d : Z) :
  Native.files (Native.close os d) = Native.files os /\
  Native.wlog (Native.close os d) = Native.wlog os.
Proof. unfold Native.close. destruct (d <? 0); auto. Qed.

Lemma write_loop_reader (fuel : nat) : forall s os data len n r s' os',
  Impl.mode s = Read ->
  Impl.write_loop fuel s os data len n = (r, s', os') ->
  os' = os.
Proof.
  induction fuel as [|fuel IH]; intros s os data len n r s' os' Hm.
  - simpl. intros [= _ _ <-]. reflexivity.
  - rewrite write_loop_S. unfold Impl.write_turn.
    destruct (IOBuffer.write (Impl.buffer_ s) data (wrap (len - n))) as [b k].
    assert (Htail : forall s1,
              Impl.mode s1 = Read ->
              match Impl.write_tail s1 os data len n k with
              | Impl.Done r1 => r1
              | Impl.Again s2 os2 d2 n2 => Impl.write_loop fuel s2 os2 d2 len n2
              end = (r, s', os') -> os' = os).
    { intros s1 Hm1. unfold Impl.write_tail.
      destruct (MAX_WRITE_FILE_SIZE <=? _); [intros [= _ _ <-]; reflexivity |].
      destruct (wrap (n + k) <? len); [| intros [= _ _ <-]; reflexivity].
      apply IH. exact Hm1. }
    destruct (k <? len).
    + rewrite flush_reader by (simpl; rewrite Hm; reflexivity).
      destruct (0 <? k); [intros [= _ _ <-]; reflexivity |].
      apply Htail. exact Hm.
    + apply Htail. exact Hm.
Qed.

Lemma exec_reader (fuel : nat) (op : Op) (s : Impl.t) (os : Native.OS) r s' os' :
  Impl.mode s = Read ->
  exec fuel op s os = (r, s', os') ->
  Native.files os' = Native.files os /\ Native.wlog os' = Native.wlog os.
Proof.
  intros Hm. destruct op as [data | position | len |]; simpl.
  - destruct (FileStream.writesome fuel s os data) as [[r1 s1] os1] eqn:Hw.
    apply (write_loop_reader _ _ _ _ _ _ _ _ _ Hm) in Hw. subst os1.
    destruct r1; intros [= <- <- <-]; auto.
  - unfold FileStream.seek, Impl.seek.
    rewrite flush_reader by (rewrite Hm; reflexivity).
    pose proof (native_lseek_files os (Impl.fd s) position) as Hl.
    destruct (Native.lseek os (Impl.fd s) position) as [os2 off]. simpl in Hl.
    destruct (off =? -1); intros [= <- <- <-]; exact Hl.
  - unfold FileStream.readsome, Impl.read.
    set (req := if _ <=? _ then _ else _).
    pose proof (native_read_files os (Impl.fd s) req) as Hl.
    destruct (Native.read os (Impl.fd s) req) as [[os1 n] bytes]. simpl in Hl.
    destruct (n =? -1); intros [= <- <- <-]; exact Hl.
  - unfold FileStream.close, Impl.close.
    rewrite flush_reader by (rewrite Hm; reflexivity).
    destruct (0 <? Impl.fd s); intros [= <- <- <-]; [apply native_close_files | auto].
Qed.

(** Whatever is called on a stream in [Read] mode, writes included, no
    file changes and no native write is issued. *)
Theorem reader_never_writes (fuel : nat) (ops : list Op) (s : Impl.t) (os : Native.OS) :
  Impl.mode s = Read ->
  Native.files (snd (run fuel ops s os)) = Native.files os /\
  Native.wlog (snd (run fuel ops s os)) = Native.wlog os.
Proof.
  revert s os. induction ops as [|op ops IH]; intros s os Hm; simpl; [auto |].
  destruct (exec fuel op s os) as [[r s1] os1] eqn:Hex.
  destruct (exec_reader _ _ _ _ _ _ _ Hm Hex) as [Hf Hl].
  assert (Hm1 : Impl.mode s1 = Read)
    by (rewrite (proj1 (exec_frame _ _ _ _ _ _ _ Hex)); exact Hm).
  specialize (IH s1 os1 Hm1).
  destruct (run fuel ops s1 os1) as [[rs s2] os2]. simpl in *.
  destruct IH as [IHf IHl]. split; congruence.
Qed.

Lemma reader_never_writes_witness :
  Native.files (snd (run 2 [OpWrite [Byte.xff]; OpSeek 1; OpRead 1; OpClose]
                       disk_reader disk_open)) = Native.files disk_open /\
  Native.wlog (snd (run 2 [OpWrite [Byte.xff]; OpSeek 1; OpRead 1; OpClose]
                      disk_reader disk_open)) = Native.wlog disk_open.
Proof.
  apply (reader_never_writes 2 [OpWrite [Byte.xff]; OpSeek 1; OpRead 1; OpClose]
           disk_reader disk_open).
  reflexivity.
Defined.

(** ** The buffer stays within its capacity *)

(** Whatever a program does with a stream, its write buffer never holds
    more than [capacity()] bytes. *)
Theorem buffer_within_capacity (s : Impl.t) (os : Native.OS) :
  reachable s os ->
  IOBuffer.size (Impl.buffer_ s) <= IOBuffer.capacity (Impl.buffer_ s).
Proof. intros H. apply reachable_buffer in H. exact H. Qed.

Lemma buffer_within_capacity_witness :
  IOBuffer.size (Impl.buffer_ near_limit) <= IOBuffer.capacity (Impl.buffer_ near_limit).
Proof.
  apply (buffer_within_capacity near_limit near_limit_os).
  exact near_limit_reachable.
Defined.

(** ** Descriptors across calls *)

Lemma same_slots_refl (os : Native.OS) : same_slots os os.
Proof. intros d. destruct (Native.get os d) as [f |]; eauto. Qed.

Lemma same_slots_trans (a b c : Native.OS) :
  same_slots a b -> same_slots b c -> same_slots a c.
Proof.
  intros Hab Hbc d. specialize (Hab d). specialize (Hbc d).
  destruct (Native.get a d) as [f |].
  - destruct Hab as (f1 & Hg1 & Hp1 & Hr1 & Hw1). rewrite Hg1 in Hbc.
    destruct Hbc as (f2 & Hg2 & Hp2 & Hr2 & Hw2).
    exists f2. repeat split; congruence.
  - rewrite Hab in Hbc. exact Hbc.
Qed.

(** Moving the offset of an open descriptor keeps the slots. *)
Lemma same_slots_move (os : Native.OS) (d0 : Z) (f e : Native.OpenFile) fls lm lg :
  Native.get os d0 = Some f ->
  Native.path e = Native.path f ->
  Native.readable e = Native.readable f ->
  Native.writable e = Native.writable f ->
  same_slots os
    {| Native.files := fls; Native.fds := <[Z.to_nat d0 := e]> (Native.fds os);
       Native.limits := lm; Native.wlog := lg |}.
Proof.
  intros Hget Hp Hr Hw d. pose proof (native_get_nonneg _ _ _ Hget) as Hd0.
  unfold Native.get in *. cbn [Native.fds].
  destruct (Z.ltb_spec d0 0); [lia |].
  destruct (Z.ltb_spec d 0); [reflexivity |].
  destruct (decide (Z.to_nat d = Z.to_nat d0)) as [E | E].
  - rewrite E, Hget, lookup_insert_eq. eexists. split; [reflexivity |]. auto.
  - rewrite lookup_insert_ne by congruence.
    destruct (Native.fds os !! Z.to_nat d) as [g |]; eauto.
Qed.

Lemma same_slots_fds (os os' : Native.OS) :
  Native.fds os' = Native.fds os -> same_slots os os'.
Proof.
  intros E d. unfold Native.get. rewrite E.
  destruct (d <? 0); [reflexivity |].
  destruct (Native.fds os !! Z.to_nat d) as [g |]; eauto.
Qed.

Lemma native_read_slots (os : Native.OS) (d len : Z) :
  same_slots os (fst (fst (Native.read os d len))).
Proof.
  unfold Native.read. destruct (Native.get os d) as [f |] eqn:Hget;
    [| cbn [fst]; apply same_slots_refl].
  destruct (Native.readable f) eqn:Hr; [| cbn [fst]; apply same_slots_refl].
  cbn [fst]. apply (same_slots_move os d f); auto.
Qed.

Lemma native_write_slots (os : Native.OS) (d : Z) (buf : list byte_t) :
  same_slots os (fst (Native.write os d buf)).
Proof.
  unfold Native.write. destruct (Native.get os d) as [f |] eqn:Hget;
    [| cbn [fst]; apply same_slots_fds; reflexivity].
  destruct (Native.writable f) eqn:Hw; [| cbn [fst]; apply same_slots_fds; reflexivity].
  cbn [fst]. apply (same_slots_move os d f); auto.
Qed.

Lemma native_lseek_slots (os : Native.OS) (d position : Z) :
  same_slots os (fst (Native.lseek os d position)).
Proof.
  unfold Native.lseek. destruct (Native.get os d) as [f |] eqn:Hget;
    [| cbn [fst]; apply same_slots_refl].
  destruct (position <=? OFF_MAX); [| cbn [fst]; apply same_slots_refl].
  cbn [fst]. apply (same_slots_move os d f); auto.
Qed.

Lemma flush_slots (s : Impl.t) (os : Native.OS) r s' os' :
  Impl.flush s os = (r, s', os') -> same_slots os os'.
Proof.
  unfold Impl.flush.
  destruct (Impl.writes (Impl.mode s) && IOBuffer.hasData (Impl.buffer_ s)).
  - pose proof (native_write_slots os (Impl.fd s) (IOBuffer.staged (Impl.buffer_ s))) as H.
    destruct (Native.write os (Impl.fd s) _) as [os1 n]. simpl in H.
    destruct (n =? -1); intros [= <- <- <-]; exact H.
  - intros [= <- <- <-]. apply same_slots_refl.
Qed.

Lemma write_loop_slots (fuel : nat) : forall s os data len n r s' os',
  Impl.write_loop fuel s os data len n = (r, s', os') -> same_slots os os'.
Proof.
  induction fuel as [|fuel IH]; intros s os data len n r s' os'.
  - simpl. intros [= _ _ <-]. apply same_slots_refl.
  - rewrite write_loop_S. unfold Impl.write_turn.
    destruct (IOBuffer.write (Impl.buffer_ s) data (wrap (len - n))) as [b k].
    assert (Htail : forall s1 os1,
              same_slots os os1 ->
              match Impl.write_tail s1 os1 data len n k with
              | Impl.Done r1 => r1
              | Impl.Again s2 os2 d2 n2 => Impl.write_loop fuel s2 os2 d2 len n2
              end = (r, s', os') -> same_slots os os').
    { intros s1 os1 H1. unfold Impl.write_tail.
      destruct (MAX_WRITE_FILE_SIZE <=? _); [intros [= _ _ <-]; exact H1 |].
      destruct (wrap (n + k) <? len); [| intros [= _ _ <-]; exact H1].
      intros Hl. apply IH in Hl. eapply same_slots_trans; eauto. }
    destruct (k <? len); [| apply Htail, same_slots_refl].
    destruct (Impl.flush (Impl.set_buffer s b) os) as [[rf s1] os1] eqn:Hf.
    apply flush_slots in Hf. destruct rf as [nf | e |].
    + destruct (nf <? k); [intros [= _ _ <-]; exact Hf |]. apply Htail. exact Hf.
    + intros [= _ _ <-]. exact Hf.
    + intros [= _ _ <-]. exact Hf.
Qed.

Lemma seek_slots (s : Impl.t) (os : Native.OS) (position : Z) r s' os' :
  Impl.seek s os position = (r, s', os') -> same_slots os os'.
Proof.
  unfold Impl.seek. destruct (Impl.flush s os) as [[rf s1] os1] eqn:Hf.
  apply flush_slots in Hf.
  assert (Hgo : (let '(os2, off) := Native.lseek os1 (Impl.fd s1) position in
                 if off =? -1 then (Thrown SeekFailed, s1, os2)
                 else (Returned tt,
                       Impl.set_offsets s1 position
                         (if Impl.fileSize s1 <? position then position else Impl.fileSize s1),
                       os2)) = (r, s', os') -> same_slots os os').
  { pose proof (native_lseek_slots os1 (Impl.fd s1) position) as Hl.
    destruct (Native.lseek os1 (Impl.fd s1) position) as [os2 off]. simpl in Hl.
    destruct (off =? -1); intros [= _ _ <-]; eapply same_slots_trans; eauto. }
  destruct rf; [exact Hgo | | exact Hgo].
  intros [= _ _ <-]. exact Hf.
Qed.

Lemma readsome_slots (s : Impl.t) (os : Native.OS) (len : Z) r got s' os' :
  FileStream.readsome s os len = (r, got, s', os') -> same_slots os os'.
Proof.
  unfold FileStream.readsome, Impl.read. set (req := if _ <=? _ then _ else _).
  pose proof (native_read_slots os (Impl.fd s) req) as Hl.
  destruct (Native.read os (Impl.fd s) req) as [[os1 n] bytes]. simpl in Hl.
  destruct (n =? -1); intros [= _ _ _ <-]; exact Hl.
Qed.

(** What [close] does to the descriptors: it releases its own when that
    is positive, and leaves the others as they are. *)
Lemma close_slots (s : Impl.t) (os : Native.OS) r s' os' :
  Impl.close s os = (r, s', os') ->
  (Impl.fd s' = Impl.fd s /\ same_slots os os') \/
  (0 < Impl.fd s /\ Impl.fd s' = -1).
Proof.
  unfold Impl.close. destruct (Impl.flush s os) as [[rf s1] os1] eqn:Hf.
  destruct (flush_same _ _ _ _ _ Hf) as [(_ & Hfd & _) _].
  apply flush_slots in Hf.
  assert (Hgo : (if 0 <? Impl.fd s1
                 then (Returned tt, Impl.set_fd s1 (-1), Native.close os1 (Impl.fd s1))
                 else (Returned tt, s1, os1)) = (r, s', os') ->
                (Impl.fd s' = Impl.fd s /\ same_slots os os') \/
                (0 < Impl.fd s /\ Impl.fd s' = -1)).
  { destruct (Z.ltb_spec 0 (Impl.fd s1)); intros [= _ <- <-].
    - right. split; [lia | reflexivity].
    - left. auto. }
  destruct rf; [exact Hgo | | exact Hgo].
  intros [= _ <- <-]. left. auto.
Qed.

(** A call leaves the stream on its descriptor, the slots as they were,
    or it is a [close] that released a positive descriptor. *)
Lemma exec_slots (fuel : nat) (op : Op) (s : Impl.t) (os : Native.OS) r s' os' :
  exec fuel op s os = (r, s', os') ->
  (Impl.fd s' = Impl.fd s /\ same_slots os os') \/
  (0 < Impl.fd s /\ Impl.fd s' = -1).
Proof.
  destruct op as [data | position | len |]; simpl.
  - destruct (FileStream.writesome fuel s os data) as [[r1 s1] os1] eqn:Hw.
    destruct (write_loop_frame _ _ _ _ _ _ _ _ _ Hw) as [(_ & Hfd & _) _].
    apply write_loop_slots in Hw.
    destruct r1; intros [= _ <- <-]; left; auto.
  - destruct (FileStream.seek s os position) as [[r1 s1] os1] eqn:Hs.
    destruct (seek_frame _ _ _ _ _ _ Hs) as (_ & Hfd & _).
    apply seek_slots in Hs.
    destruct r1; intros [= _ <- <-]; left; auto.
  - destruct (FileStream.readsome s os len) as [[[r1 got] s1] os1] eqn:Hr.
    destruct (readsome_frame _ _ _ _ _ _ _ Hr) as (_ & Hfd & _).
    apply readsome_slots in Hr.
    destruct r1; intros [= _ <- <-]; left; auto.
  - destruct (FileStream.close s os) as [[r1 s1] os1] eqn:Hc.
    apply close_slots in Hc.
    destruct r1; intros [= _ <- <-]; exact Hc.
Qed.

(** ** The constructor *)

(** Opening a file that does not exist for reading throws the open error
    and creates nothing: the process is as it was. *)
Theorem open_missing_for_reading (os : Native.OS) (fp : string) (truncate : bool) :
  Native.files os !! fp = None ->
  Impl.make os fp truncate Read = (Thrown OpenFailed, os).
Proof.
  intros Hnone. unfold Impl.make. rewrite andb_false_r.
  unfold Native.open. rewrite Hnone. reflexivity.
Qed.

Lemma open_missing_for_reading_witness :
  Impl.make boot "in.bin" true Read = (Thrown OpenFailed, boot).
Proof. apply (open_missing_for_reading boot "in.bin" true). reflexivity. Defined.

(** A stream constructed in [Write] or [ReadWrite] mode starts on an
    empty file, whatever the file held and whatever [truncate] says:
    [size()] and [tell()] are 0, and no other file is touched. *)
Theorem opening_for_writing_truncates (os : Native.OS) (fp : string) (truncate : bool)
    (m : Mode) (s : Impl.t) (os1 : Native.OS) :
  Impl.writes m = true ->
  Impl.make os fp truncate m = (Returned s, os1) ->
  Native.files os1 !! fp = Some [] /\
  FileStream.size s = 0 /\ FileStream.tell s = 0 /\
  forall p, p <> fp -> Native.files os1 !! p = Native.files os !! p.
Proof.
  intros Hm. unfold Impl.make.
  set (os0 := if truncate && negb (Mode_eqb m Read) then Native.remove os fp else os).
  assert (Hother : forall p, p <> fp -> Native.files os0 !! p = Native.files os !! p).
  { intros p Hp. unfold os0. destruct (truncate && negb (Mode_eqb m Read)); [| reflexivity].
    simpl. apply lookup_delete_ne. congruence. }
  assert (Hopen : Native.open os0 fp m =
            ({| Native.files := <[fp := []]> (Native.files os0);
                Native.fds := <[Native.lowest_free os0 :=
                                  {| Native.path := fp;
                                     Native.readable := negb (Mode_eqb m Write);
                                     Native.writable := negb (Mode_eqb m Read);
                                     Native.pos := 0 |}]> (Native.fds os0);
                Native.limits := Native.limits os0; Native.wlog := Native.wlog os0 |},
             Z.of_nat (Native.lowest_free os0)))
    by (destruct m; [discriminate | reflexivity | reflexivity]).
  rewrite Hopen. clear Hopen.
  destruct (Z.eqb_spec (Z.of_nat (Native.lowest_free os0)) (-1)); [lia |].
  unfold Native.fstat. rewrite native_get_insert. cbn [Native.path].
  unfold Native.content at 1. cbn [Native.files]. rewrite lookup_insert_eq.
  intros [= <- <-]. cbn [Native.files]. unfold FileStream.size, FileStream.tell. simpl.
  split; [apply lookup_insert_eq |]. split; [reflexivity |]. split; [reflexivity |].
  intros p Hp. rewrite lookup_insert_ne by congruence. apply Hother. exact Hp.
Qed.

Lemma opening_for_writing_truncates_witness :
  exists s os1,
    Impl.make disk "in.bin" false ReadWrite = (Returned s, os1) /\
    Native.files os1 !! "in.bin" = Some [] /\
    FileStream.size s = 0 /\ FileStream.tell s = 0 /\
    forall p, p <> "in.bin" -> Native.files os1 !! p = Native.files disk !! p.
Proof.
  eexists _, _. split; [reflexivity |].
  exact (opening_for_writing_truncates disk "in.bin" false ReadWrite _ _ eq_refl eq_refl).
Defined.

(** ** [close()] *)

Lemma flush_settles (s : Impl.t) (os : Native.OS) n s0 os0 :
  Impl.flush s os = (Returned n, s0, os0) ->
  Impl.writes (Impl.mode s0) && IOBuffer.hasData (Impl.buffer_ s0) = false.
Proof.
  unfold Impl.flush.
  destruct (Impl.writes (Impl.mode s) && IOBuffer.hasData (Impl.buffer_ s)) eqn:Hc.
  - destruct (Native.write os (Impl.fd s) _) as [osw k].
    destruct (k =? -1); [discriminate |]. intros [= _ <- _]. simpl.
    apply andb_false_r.
  - intros [= _ <- _]. exact Hc.
Qed.

(** A second [close()] after one that returned does nothing: it returns,
    makes no native call and leaves the stream and the process as they
    are. *)
Theorem close_twice (s : Impl.t) (os : Native.OS) (s1 : Impl.t) (os1 : Native.OS) :
  FileStream.close s os = (Returned tt, s1, os1) ->
  FileStream.close s1 os1 = (Returned tt, s1, os1).
Proof.
  unfold FileStream.close, Impl.close.
  destruct (Impl.flush s os) as [[rf s0] os0] eqn:Hf.
  destruct rf as [n | e |]; [| discriminate | destruct (flush_finishes _ _ _ _ Hf)].
  apply flush_settles in Hf.
  destruct (Z.ltb_spec 0 (Impl.fd s0)); intros [= <- <-].
  - unfold Impl.flush. cbn [Impl.mode Impl.buffer_ Impl.set_fd]. rewrite Hf. reflexivity.
  - unfold Impl.flush. rewrite Hf.
    destruct (Z.ltb_spec 0 (Impl.fd s0)); [lia | reflexivity].
Qed.

Lemma close_twice_witness :
  FileStream.close closed_writer closed_os = (Returned tt, closed_writer, closed_os).
Proof. apply (close_twice fresh_writer fresh_os). reflexivity. Defined.

(** The test [fd > 0] of [close()] takes descriptor 0 for no descriptor:
    a stream that was opened while descriptor 0 was free holds it for
    good.  Whatever is called, [close()] last, the stream still names
    descriptor 0 and the descriptor is still open. *)
Theorem descriptor_zero_never_released (os : Native.OS) (fp : string) (truncate : bool)
    (m : Mode) (s : Impl.t) (os1 : Native.OS) (fuel : nat) (ops : list Op) :
  Native.fds os !! 0%nat = None ->
  Impl.make os fp truncate m = (Returned s, os1) ->
  Impl.fd (snd (fst (run fuel (ops ++ [OpClose]) s os1))) = 0 /\
  is_Some (Native.get (snd (run fuel (ops ++ [OpClose]) s os1)) 0).
Proof.
  intros Hfree Hmake.
  assert (Hstart : Impl.fd s = 0 /\ is_Some (Native.get os1 0)).
  { revert Hmake. unfold Impl.make.
    set (os0 := if truncate && negb (Mode_eqb m Read) then Native.remove os fp else os).
    assert (Hfds : Native.fds os0 = Native.fds os)
      by (unfold os0; destruct (truncate && negb (Mode_eqb m Read)); reflexivity).
    assert (Hlow : Native.lowest_free os0 = 0%nat).
    { unfold Native.lowest_free. rewrite Hfds.
      destruct (size (Native.fds os)); simpl; [reflexivity |]. rewrite Hfree. reflexivity. }
    unfold Native.open. rewrite Hlow.
    destruct m; [destruct (Native.files os0 !! fp); [| discriminate] | |];
      cbn [Z.eqb Z.of_nat]; unfold Native.fstat;
      rewrite (native_get_insert _ _ _ _ 0%nat); intros [= <- <-]; simpl;
      (split; [reflexivity | rewrite (native_get_insert _ _ _ _ 0%nat); eauto]). }
  clear Hmake Hfree. revert s os1 Hstart.
  generalize (ops ++ [OpClose]). clear ops.
  induction l as [|op ops IH]; intros s os1 Hstart; simpl; [exact Hstart |].
  destruct (exec fuel op s os1) as [[r s1] os2] eqn:Hex.
  specialize (IH s1 os2).
  destruct (run fuel ops s1 os2) as [[rs s2] os3]. simpl in *.
  apply IH. destruct Hstart as [Hfd [f Hget]].
  destruct (exec_slots _ _ _ _ _ _ _ Hex) as [[Hfd1 Hsl] | [Hpos _]]; [| lia].
  split; [congruence |]. specialize (Hsl 0). rewrite Hget in Hsl.
  destruct Hsl as (f' & Hg' & _). eauto.
Qed.

Lemma descriptor_zero_never_released_witness :
  (Impl.fd (snd (fst (run 3 ([OpRead 1] ++ [OpClose]) detached_reader detached_open))) = 0) /\
  is_Some (Native.get (snd (run 3 ([OpRead 1] ++ [OpClose]) detached_reader detached_open)) 0).
Proof.
  apply (descriptor_zero_never_released detached "in.bin" false Read
           detached_reader detached_open 3 [OpRead 1]); reflexivity.
Defined.

(** ** A stream opened in [Write] mode cannot be read *)

(** The descriptor of a stream constructed in [Write] mode is write-only:
    whatever was called before, [readsome] throws the read error and
    leaves the stream and the process as they are. *)
Theorem write_only_never_reads (os : Native.OS) (fp : string) (truncate : bool)
    (s : Impl.t) (os1 : Native.OS) (fuel : nat) (ops : list Op) (len : Z) :
  Impl.make os fp truncate Write = (Returned s, os1) ->
  FileStream.readsome (snd (fst (run fuel ops s os1))) (snd (run fuel ops s os1)) len =
    (Thrown ReadFailed, [], snd (fst (run fuel ops s os1)), snd (run fuel ops s os1)).
Proof.
  intros Hmake.
  assert (Hstart : forall f, Native.get os1 (Impl.fd s) = Some f -> Native.readable f = false).
  { revert Hmake. unfold Impl.make.
    set (os0 := if truncate && negb (Mode_eqb Write Read) then Native.remove os fp else os).
    unfold Native.open.
    destruct (Z.eqb_spec (Z.of_nat (Native.lowest_free os0)) (-1)); [lia |].
    unfold Native.fstat. rewrite native_get_insert. intros [= <- <-]. cbn [Impl.fd].
    rewrite native_get_insert. intros f [= <-]. reflexivity. }
  clear Hmake. revert s os1 Hstart.
  induction ops as [|op ops IH]; intros s os1 Hstart; simpl.
  - unfold FileStream.readsome, Impl.read, Native.read.
    destruct (Native.get os1 (Impl.fd s)) as [f |] eqn:Hget; [| reflexivity].
    rewrite (Hstart f eq_refl). reflexivity.
  - destruct (exec fuel op s os1) as [[r s1] os2] eqn:Hex.
    specialize (IH s1 os2).
    destruct (run fuel ops s1 os2) as [[rs s2] os3]. simpl in *.
    apply IH. intros f' Hget'.
    destruct (exec_slots _ _ _ _ _ _ _ Hex) as [[Hfd1 Hsl] | [_ Hclosed]].
    + specialize (Hsl (Impl.fd s)). rewrite Hfd1 in Hget'.
      destruct (Native.get os1 (Impl.fd s)) as [f |]; [| congruence].
      destruct Hsl as (f'' & Hg'' & _ & Hr & _).
      rewrite Hget' in Hg''. injection Hg'' as ->. rewrite Hr. apply Hstart. reflexivity.
    + rewrite Hclosed in Hget'. discriminate.
Qed.

Lemma write_only_never_reads_witness :
  FileStream.readsome
    (snd (fst (run 3 [OpWrite [Byte.x01]; OpSeek 0] fresh_writer fresh_os)))
    (snd (run 3 [OpWrite [Byte.x01]; OpSeek 0] fresh_writer fresh_os)) 1 =
  (Thrown ReadFailed, [],
   snd (fst (run 3 [OpWrite [Byte.x01]; OpSeek 0] fresh_writer fresh_os)),
   snd (run 3 [OpWrite [Byte.x01]; OpSeek 0] fresh_writer fresh_os)).
Proof.
  apply (write_only_never_reads boot "out.bin" false fresh_writer fresh_os 3
           [OpWrite [Byte.x01]; OpSeek 0] 1).
  reflexivity.
Defined.

(** ** Writing anywhere in the file *)

Lemma overwrite_app (c : list byte_t) (p : nat) (a b : list byte_t) :
  Native.overwrite (Native.overwrite c p a) (p + length a) b =
  Native.overwrite c p (a ++ b).
Proof.
  unfold Native.overwrite.
  set (L := take p c ++ repeat Byte.x00 (p - length c) ++ a).
  assert (HL : length L = (p + length a)%nat).
  { unfold L. rewrite !length_app, length_take, repeat_length. unfold byte_t. lia. }
  replace (take p c ++ repeat Byte.x00 (p - length c) ++ a ++ drop (p + length a) c)
    with (L ++ drop (p + length a) c)
    by (unfold L; rewrite <- !app_assoc; reflexivity).
  rewrite <- HL at 1. rewrite take_app_length.
  replace (p + length a - length (L ++ drop (p + length a) c))%nat with 0%nat
    by (rewrite length_app; unfold byte_t in *; lia).
  replace (p + length a + length b)%nat with (length L + length b)%nat
    by (unfold byte_t in *; lia).
  rewrite drop_app_add, drop_drop. simpl.
  unfold L. rewrite <- !app_assoc, length_app.
  do 5 f_equal. unfold byte_t. lia.
Qed.

Lemma patch_nil (c : list byte_t) (p : Z) : patch c p [] = c.
Proof. reflexivity. Qed.

Lemma patch_app (c : list byte_t) (p : Z) (a b : list byte_t) :
  0 <= p ->
  patch (patch c p a) (p + Z.of_nat (length a)) b = patch c p (a ++ b).
Proof.
  intros Hp. destruct a as [|x a]; [simpl; rewrite Z.add_0_r; reflexivity |].
  destruct b as [|y b]; [rewrite app_nil_r; reflexivity |].
  unfold patch at 1 2. 
  replace (Z.to_nat (p + Z.of_nat (length (x :: a))))
    with (Z.to_nat p + length (x :: a))%nat by lia.
  rewrite overwrite_app. reflexivity.
Qed.

Lemma patch_at_end (c d : list byte_t) :
  patch c (Z.of_nat (length c)) d = c ++ d.
Proof.
  destruct d as [|x d]; [rewrite app_nil_r; reflexivity |].
  unfold patch. rewrite Nat2Z.id. apply overwrite_at_end.
Qed.

Lemma patch_fresh (d : list byte_t) : patch [] 0 d = d.
Proof. exact (patch_at_end [] d). Qed.

(** What the file will hold once [staged ++ d] is flushed, from what it
    will hold once [staged] is. *)
Lemma image_app (c : list byte_t) (p : Z) (staged d : list byte_t) :
  0 <= p ->
  patch c p (staged ++ d) = patch (patch c p staged) (p + Z.of_nat (length staged)) d.
Proof. intros Hp. symmetry. apply patch_app. exact Hp. Qed.

Lemma flushed_patch (s : Impl.t) (os : Native.OS) (f : Native.OpenFile) :
  flushed s os f =
    patch (Native.content os (Native.path f)) (Native.pos f) (IOBuffer.staged (Impl.buffer_ s)).
Proof. unfold flushed, patch. destruct (IOBuffer.staged (Impl.buffer_ s)); reflexivity. Qed.

Lemma after_write_other (os : Native.OS) (d : Z) (f : Native.OpenFile) buf (p : string) :
  p <> Native.path f ->
  Native.files (after_write os d f buf) !! p = Native.files os !! p.
Proof. intros Hp. simpl. apply lookup_insert_ne. congruence. Qed.

(** The loop of [write] below the limit, wherever the descriptor stands:
    the bytes go in at the write cursor, in order, and no other file is
    touched. *)
Lemma write_loop_image (fuel : nat) : forall s os f data n,
  writer s os f ->
  IOBuffer.size (Impl.buffer_ s) <= kBufferSize ->
  0 <= n ->
  (n = 0 \/ data <> []) ->
  0 <= Impl.currentOffset s ->
  Impl.currentOffset s + n + Z.of_nat (length data) < MAX_WRITE_FILE_SIZE ->
  0 <= Native.pos f ->
  (length data + (if (IOBuffer.size (Impl.buffer_ s) =? kBufferSize)%Z then 1 else 0) < fuel)%nat ->
  exists s' os' f',
    Impl.write_loop fuel s os data (n + Z.of_nat (length data)) n =
      (Returned (n + Z.of_nat (length data)), s', os') /\
    writer s' os' f' /\
    Native.path f' = Native.path f /\
    Native.pos f <= Native.pos f' /\
    write_cursor s' f' = write_cursor s f + Z.of_nat (length data) /\
    flushed s' os' f' = patch (flushed s os f) (write_cursor s f) data /\
    (is_Some (Native.files os !! Native.path f) ->
     is_Some (Native.files os' !! Native.path f)) /\
    (forall p, p <> Native.path f -> Native.files os' !! p = Native.files os !! p).
Proof.
  induction fuel as [|fuel IH]; intros s os f data n Hw Hb Hn Hinv Hc Hlt Hpos Hfuel; [lia |].
  rewrite write_loop_S.
  set (room := kBufferSize - IOBuffer.size (Impl.buffer_ s)).
  pose proof (buffer_size_nonneg (Impl.buffer_ s)) as Hsz.
  pose proof kBufferSize_val as HK. pose proof MAX_WRITE_FILE_SIZE_val as HM.
  assert (Hcase : (n = 0 /\ Z.of_nat (length data) <= room) \/
                  (n <> 0 \/ room < n + Z.of_nat (length data))) by lia.
  destruct Hcase as [[-> Hfit] | Hsp].
  - (* first turn, and everything fits *)
    rewrite Z.add_0_l in *.
    rewrite write_turn_fits by (fold room; lia).
    rewrite write_tail_spec by (simpl; lia). simpl.
    rewrite Z.add_0_r, Z.add_0_l, Z.ltb_irrefl.
    destruct (Z.leb_spec MAX_WRITE_FILE_SIZE (Impl.currentOffset s + Z.of_nat (length data)));
      [lia |].
    eexists _, os, f. split; [reflexivity |].
    split; [exact Hw |]. split; [reflexivity |]. split; [lia |].
    split; [unfold write_cursor, IOBuffer.size; simpl; rewrite length_app; lia |].
    split; [| split; [auto | reflexivity]].
    rewrite !flushed_patch. simpl. apply image_app. exact Hpos.
  - (* the buffer spills *)
    destruct (spill_nonempty (Impl.buffer_ s) data n Hb Hn Hinv Hsp) as [Hk Hout].
    fold room in Hk, Hout.
    set (k := Z.min (Z.of_nat (length data)) room) in *.
    set (out := IOBuffer.staged (Impl.buffer_ s) ++ take (Z.to_nat k) data) in *.
    rewrite (write_turn_spills s os f data (n + Z.of_nat (length data)) n Hw eq_refl);
      replace (n + Z.of_nat (length data) - n) with (Z.of_nat (length data)) by lia;
      fold room; fold k; fold out; try lia; try exact Hout.
    set (s1 := Impl.set_buffer s IOBuffer.empty).
    set (os1 := after_write os (Impl.fd s) f out).
    set (f1 := {| Native.path := Native.path f; Native.readable := Native.readable f;
                  Native.writable := Native.writable f;
                  Native.pos := Native.pos f + Z.of_nat (length out) |}).
    assert (Hw1 : writer s1 os1 f1) by (apply writer_after_write; exact Hw).
    assert (Hb1 : IOBuffer.size (Impl.buffer_ s1) <= kBufferSize)
      by (simpl; unfold IOBuffer.size; simpl; lia).
    assert (Hlenout : Z.of_nat (length out) = IOBuffer.size (Impl.buffer_ s) + k)
      by (unfold out, IOBuffer.size; rewrite length_app, length_take; lia).
    assert (Hcur1 : write_cursor s1 f1 = write_cursor s f + k)
      by (unfold write_cursor; simpl; unfold IOBuffer.size at 1; simpl; lia).
    assert (Himg1 : flushed s1 os1 f1 =
                    patch (flushed s os f) (write_cursor s f) (take (Z.to_nat k) data)).
    { rewrite (flushed_patch s). unfold write_cursor, IOBuffer.size.
      rewrite <- image_app by exact Hpos. fold out.
      unfold flushed. simpl. unfold os1. rewrite after_write_content.
      unfold patch. destruct out; [congruence | reflexivity]. }
    assert (Hsome1 : is_Some (Native.files os1 !! Native.path f))
      by (unfold os1; simpl; rewrite lookup_insert_eq; eauto).
    assert (Hother1 : forall p, p <> Native.path f ->
                      Native.files os1 !! p = Native.files os !! p)
      by (intros p Hp; apply after_write_other; exact Hp).
    rewrite write_tail_spec by (simpl; lia).
    change (Impl.currentOffset s1) with (Impl.currentOffset s).
    destruct (Z.leb_spec MAX_WRITE_FILE_SIZE (Impl.currentOffset s + n + k)) as [Hmax | Hmax];
      [lia |].
    destruct (Z.ltb_spec (n + k) (n + Z.of_nat (length data))) as [Hmore | Hlast].
    + (* round again *)
      assert (Hlen' : Z.of_nat (length (drop (Z.to_nat k) data)) = Z.of_nat (length data) - k)
        by (rewrite length_drop; lia).
      assert (Hne' : drop (Z.to_nat k) data <> []).
      { intros E. rewrite E in Hlen'. simpl in Hlen'. lia. }
      assert (Hfuel1 : (length (drop (Z.to_nat k) data) +
                        (if (IOBuffer.size (Impl.buffer_ s1) =? kBufferSize)%Z then 1 else 0)
                        < fuel)%nat).
      { change (Impl.buffer_ s1) with IOBuffer.empty.
        destruct (Z.eqb_spec (IOBuffer.size IOBuffer.empty) kBufferSize) as [E | _];
          [unfold IOBuffer.size in E; simpl in E; lia |].
        destruct (Z.eqb_spec (IOBuffer.size (Impl.buffer_ s)) kBufferSize);
          unfold k, room in *; lia. }
      destruct (IH s1 os1 f1 (drop (Z.to_nat k) data) (n + k) Hw1 Hb1
                  ltac:(lia) ltac:(right; exact Hne') ltac:(simpl; lia) ltac:(simpl; lia)
                  ltac:(simpl; lia) Hfuel1)
        as (s' & os' & f' & Hrun & Hw' & Hp' & Hle' & Hcur' & Himg' & Hsome' & Hother').
      replace (n + k + Z.of_nat (length (drop (Z.to_nat k) data)))
        with (n + Z.of_nat (length data)) in * by lia.
      exists s', os', f'. split; [exact Hrun |].
      split; [exact Hw' |]. split; [exact Hp' |]. split; [simpl in Hle'; lia |].
      split; [rewrite Hcur', Hcur1; lia |].
      split; [| split; [intros _; apply Hsome'; exact Hsome1 |
                        intros p Hp; rewrite Hother' by exact Hp; apply Hother1; exact Hp]].
      rewrite Himg', Himg1, Hcur1.
      assert (Hk2 : write_cursor s f + k =
                    write_cursor s f + Z.of_nat (length (take (Z.to_nat k) data)))
        by (rewrite length_take; lia).
      rewrite Hk2, patch_app by (unfold write_cursor; lia).
      rewrite take_drop. reflexivity.
    + (* the last turn *)
      assert (Hk' : k = Z.of_nat (length data)) by lia.
      eexists _, os1, f1. split; [rewrite Hk'; reflexivity |].
      split; [exact Hw1 |]. split; [reflexivity |]. split; [simpl; lia |].
      split; [change (write_cursor (Impl.set_offsets s1 _ _) f1) with (write_cursor s1 f1); lia |].
      split; [| split; [intros _; exact Hsome1 | exact Hother1]].
      change (flushed (Impl.set_offsets s1 _ _) os1 f1) with (flushed s1 os1 f1).
      rewrite Himg1, Hk', Nat2Z.id, firstn_all. reflexivity.
Qed.

Lemma write_image (fuel : nat) (s : Impl.t) (os : Native.OS) (f : Native.OpenFile)
    (c data : list byte_t) :
  writing s os f c ->
  Impl.currentOffset s + Z.of_nat (length data) < MAX_WRITE_FILE_SIZE ->
  (length data + 2 <= fuel)%nat ->
  exists s' os' f',
    Impl.write fuel s os data = (Returned (Z.of_nat (length data)), s', os') /\
    writing s' os' f' (patch c (Impl.currentOffset s) data) /\
    Native.path f' = Native.path f /\
    Native.readable f' = Native.readable f /\
    Impl.currentOffset s' = Impl.currentOffset s + Z.of_nat (length data) /\
    Impl.fileSize s' = Z.max (Impl.fileSize s) (Impl.currentOffset s + Z.of_nat (length data)) /\
    (forall p, p <> Native.path f -> Native.files os' !! p = Native.files os !! p).
Proof.
  intros (Hw & Hb & Hpos & Hsome & Himg & Hcur) Hlt Hfuel.
  pose proof MAX_WRITE_FILE_SIZE_val as HM.
  pose proof (buffer_size_nonneg (Impl.buffer_ s)) as Hsz.
  assert (Hc : 0 <= Impl.currentOffset s) by (rewrite <- Hcur; unfold write_cursor; lia).
  assert (Hfuel' : (length data +
                    (if (IOBuffer.size (Impl.buffer_ s) =? kBufferSize)%Z then 1 else 0)
                    < fuel)%nat)
    by (destruct (IOBuffer.size (Impl.buffer_ s) =? kBufferSize); lia).
  destruct (write_loop_image fuel s os f data 0 Hw Hb ltac:(lia) ltac:(auto) Hc
              ltac:(lia) Hpos Hfuel')
    as (s' & os' & f' & Hrun & Hw' & Hp' & Hle' & Hcur' & Himg' & Hsome' & Hother').
  destruct (write_loop_writer fuel s os f data 0 Hw Hb ltac:(lia) ltac:(auto) Hc
              ltac:(lia) Hfuel')
    as (s2 & os2 & f2 & Hrun2 & Hw2 & _ & Hr2 & Hb2 & Hoff2 & _).
  rewrite Hrun in Hrun2.
  destruct (Z.leb_spec MAX_WRITE_FILE_SIZE (Impl.currentOffset s + 0 + Z.of_nat (length data)));
    [lia |].
  injection Hrun2 as <- <-. rewrite !Z.add_0_r in Hoff2.
  destruct (Hoff2 Hlt) as [Ho Hs].
  assert (Hf2 : f2 = f').
  { destruct Hw2 as (_ & Hg2 & _). destruct Hw' as (_ & Hg' & _). congruence. }
  subst f2.
  rewrite Z.add_0_l in Hrun.
  exists s', os', f'. split; [exact Hrun |].
  split; [| split; [exact Hp' | split; [exact Hr2 |
              split; [exact Ho | split; [exact Hs | exact Hother']]]]].
  split; [exact Hw' |]. split; [exact Hb2 |].
  split; [lia |].
  split; [rewrite Hp'; apply Hsome'; exact Hsome |].
  split; [rewrite Himg', Himg, Hcur; reflexivity |].
  rewrite Hcur', Hcur, Ho. reflexivity.
Qed.

Lemma native_get_insert_at (os : Native.OS) (d : Z) (f e : Native.OpenFile) fls lm lg :
  Native.get os d = Some f ->
  Native.get {| Native.files := fls; Native.fds := <[Z.to_nat d := e]> (Native.fds os);
                Native.limits := lm; Native.wlog := lg |} d = Some e.
Proof.
  intros Hget. apply native_get_nonneg in Hget. unfold Native.get. cbn [Native.fds].
  destruct (Z.ltb_spec d 0); [lia |]. apply lookup_insert_eq.
Qed.

Lemma lseek_open (os : Native.OS) (d : Z) (f : Native.OpenFile) (P : Z) :
  Native.get os d = Some f ->
  P <= OFF_MAX ->
  Native.lseek os d P =
    ({| Native.files := Native.files os;
        Native.fds := <[Z.to_nat d := {| Native.path := Native.path f;
                                         Native.readable := Native.readable f;
                                         Native.writable := Native.writable f;
                                         Native.pos := P |}]> (Native.fds os);
        Native.limits := Native.limits os; Native.wlog := Native.wlog os |}, P).
Proof.
  intros Hget HP. unfold Native.lseek. rewrite Hget.
  destruct (Z.leb_spec P OFF_MAX); [reflexivity | lia].
Qed.

(** [flush] on a stream that writes through an open slot: the staged
    bytes go out, and the file holds what they make of it. *)
Lemma flush_image (s : Impl.t) (os : Native.OS) (f : Native.OpenFile) :
  writer s os f ->
  is_Some (Native.files os !! Native.path f) ->
  exists n os1 f1,
    Impl.flush s os = (Returned n, Impl.set_buffer s IOBuffer.empty, os1) /\
    writer (Impl.set_buffer s IOBuffer.empty) os1 f1 /\
    Native.path f1 = Native.path f /\
    Native.readable f1 = Native.readable f /\
    Native.pos f1 = write_cursor s f /\
    Native.files os1 !! Native.path f = Some (flushed s os f) /\
    (forall p, p <> Native.path f -> Native.files os1 !! p = Native.files os !! p).
Proof.
  intros Hw Hsome.
  destruct (decide (IOBuffer.staged (Impl.buffer_ s) = [])) as [Hst | Hne].
  - rewrite flush_nothing_staged by exact Hst.
    assert (Hbuf : Impl.set_buffer s IOBuffer.empty = s).
    { destruct s as [m p z o [b] d]. simpl in Hst. subst b. reflexivity. }
    rewrite Hbuf. exists 0, os, f. split; [reflexivity |]. split; [exact Hw |].
    do 2 (split; [reflexivity |]).
    split; [unfold write_cursor, IOBuffer.size; rewrite Hst; simpl; lia |].
    split; [| reflexivity].
    unfold flushed. rewrite Hst. apply content_lookup. exact Hsome.
  - rewrite (flush_writer_staged _ _ _ Hw Hne).
    eexists _, _, _. split; [reflexivity |].
    split; [apply writer_after_write; exact Hw |]. do 2 (split; [reflexivity |]).
    split; [reflexivity |].
    split; [| intros p Hp; apply after_write_other; exact Hp].
    simpl. rewrite lookup_insert_eq. f_equal. unfold flushed.
    destruct (IOBuffer.staged (Impl.buffer_ s)); [congruence | reflexivity].
Qed.

Lemma seek_image (s : Impl.t) (os : Native.OS) (f : Native.OpenFile) (c : list byte_t)
    (P : Z) :
  writing s os f c ->
  0 <= P <= OFF_MAX ->
  exists s' os' f',
    Impl.seek s os P = (Returned tt, s', os') /\
    writing s' os' f' c /\
    Native.path f' = Native.path f /\
    Native.readable f' = Native.readable f /\
    Native.pos f' = P /\
    Impl.buffer_ s' = IOBuffer.empty /\
    Impl.currentOffset s' = P /\
    Impl.fileSize s' = Z.max (Impl.fileSize s) P /\
    (forall p, p <> Native.path f -> Native.files os' !! p = Native.files os !! p).
Proof.
  intros (Hw & _ & _ & Hsome & Himg & _) HP.
  destruct (flush_image s os f Hw Hsome)
    as (n & os1 & f1 & Hf & Hw1 & Hp1 & Hr1 & _ & Hfile & Hother).
  rewrite Himg in Hfile.
  unfold Impl.seek. rewrite Hf.
  destruct Hw1 as (Hm1 & Hget1 & Hwb1 & Hl1).
  rewrite (lseek_open _ _ _ _ Hget1) by lia.
  destruct (Z.eqb_spec P (-1)); [lia |].
  eexists _, _, {| Native.path := Native.path f1; Native.readable := Native.readable f1;
                   Native.writable := Native.writable f1; Native.pos := P |}.
  split; [reflexivity |].
  assert (Hmax : (if Impl.fileSize (Impl.set_buffer s IOBuffer.empty) <? P
                  then P else Impl.fileSize (Impl.set_buffer s IOBuffer.empty)) =
                 Z.max (Impl.fileSize s) P)
    by (simpl; destruct (Z.ltb_spec (Impl.fileSize s) P); lia).
  rewrite Hmax.
  split; [| split; [exact Hp1 | split; [exact Hr1 |
              repeat (split; [reflexivity |]); exact Hother]]].
  split.
  { split; [exact Hm1 |]. split.
    - cbn [Impl.fd Impl.set_offsets]. apply (native_get_insert_at _ _ f1). exact Hget1.
    - split; [exact Hwb1 | exact Hl1]. }
  split; [pose proof kBufferSize_val; simpl; unfold IOBuffer.size; simpl; lia |].
  split; [simpl; lia |].
  cbn [Native.path Native.files].
  split; [rewrite Hp1, Hfile; eauto |].
  split; [| unfold write_cursor; simpl; unfold IOBuffer.size; simpl; lia].
  unfold flushed. cbn [Impl.buffer_ Impl.set_offsets Impl.set_buffer IOBuffer.staged
                        IOBuffer.empty Native.path].
  unfold Native.content. cbn [Native.files]. rewrite Hp1, Hfile. reflexivity.
Qed.

Lemma close_image (s : Impl.t) (os : Native.OS) (f : Native.OpenFile) :
  writer s os f ->
  is_Some (Native.files os !! Native.path f) ->
  exists s' os',
    Impl.close s os = (Returned tt, s', os') /\
    Native.files os' !! Native.path f = Some (flushed s os f) /\
    same_offsets s s' /\
    (forall p, p <> Native.path f -> Native.files os' !! p = Native.files os !! p).
Proof.
  intros Hw Hsome.
  destruct (flush_image s os f Hw Hsome)
    as (n & os1 & f1 & Hf & _ & _ & _ & _ & Hfile & Hother).
  unfold Impl.close. rewrite Hf.
  assert (Hcl : forall d, Native.files (Native.close os1 d) = Native.files os1)
    by (intros d; unfold Native.close; destruct (d <? 0); reflexivity).
  destruct (0 <? Impl.fd (Impl.set_buffer s IOBuffer.empty));
    eexists _, _; (split; [reflexivity |]); rewrite ?Hcl;
    (split; [exact Hfile | split; [split; reflexivity | exact Hother]]).
Qed.

Lemma make_files (os : Native.OS) (fp : string) (truncate : bool) (m : Mode) s os1 :
  Impl.make os fp truncate m = (Returned s, os1) ->
  forall p, p <> fp -> Native.files os1 !! p = Native.files os !! p.
Proof.
  unfold Impl.make.
  set (os0 := if truncate && negb (Mode_eqb m Read) then Native.remove os fp else os).
  assert (Hother : forall p, p <> fp -> Native.files os0 !! p = Native.files os !! p).
  { intros p Hp. unfold os0. destruct (truncate && negb (Mode_eqb m Read)); [| reflexivity].
    simpl. apply lookup_delete_ne. congruence. }
  assert (Hopen : forall p, p <> fp ->
            Native.files (fst (Native.open os0 fp m)) !! p = Native.files os0 !! p).
  { intros p Hp. unfold Native.open.
    destruct m; [destruct (Native.files os0 !! fp); reflexivity | |];
      simpl; apply lookup_insert_ne; congruence. }
  destruct (Native.open os0 fp m) as [os2 d]. simpl in Hopen.
  destruct (d =? -1); [discriminate |].
  destruct (Native.fstat os2 d); [| discriminate].
  intros [= <- <-] p Hp. rewrite Hopen by exact Hp. apply Hother. exact Hp.
Qed.

(** The slot a stream is constructed on. *)
Lemma make_slot (os : Native.OS) (fp : string) (truncate : bool) (m : Mode) s os1 :
  Impl.make os fp truncate m = (Returned s, os1) ->
  Native.get os1 (Impl.fd s) =
    Some {| Native.path := fp; Native.readable := negb (Mode_eqb m Write);
            Native.writable := negb (Mode_eqb m Read); Native.pos := 0 |}.
Proof.
  unfold Impl.make.
  set (os0 := if truncate && negb (Mode_eqb m Read) then Native.remove os fp else os).
  unfold Native.open.
  destruct m; [destruct (Native.files os0 !! fp); [| discriminate] | |];
    (destruct (Z.eqb_spec (Z.of_nat (Native.lowest_free os0)) (-1)); [lia |]);
    unfold Native.fstat; rewrite native_get_insert; intros [= <- <-];
    apply native_get_insert.
Qed.

Lemma make_writing (os : Native.OS) (fp : string) (truncate : bool) (m : Mode) :
  Impl.writes m = true ->
  Native.limits os = [] ->
  exists s os1 f,
    Impl.make os fp truncate m = (Returned s, os1) /\
    writing s os1 f [] /\ Native.path f = fp /\
    Native.readable f = negb (Mode_eqb m Write) /\
    Impl.mode s = m /\ Impl.buffer_ s = IOBuffer.empty /\
    Impl.currentOffset s = 0 /\ Impl.fileSize s = 0.
Proof.
  intros Hm Hl.
  destruct (make_writer os fp truncate m Hm Hl)
    as (s & os1 & f & Hmake & Hw & [Hsome He] & Hp & Hc & Hmode & Hsz & Hoff & Hbuf & _).
  exists s, os1, f. split; [exact Hmake |].
  split; [| split; [exact Hp | split; [| auto]]].
  2: { destruct Hw as (_ & Hget & _).
       rewrite (make_slot _ _ _ _ _ _ Hmake) in Hget. injection Hget as <-. reflexivity. }
  rewrite Hp, Hc in He. simpl in He.
  split; [exact Hw |].
  split; [rewrite Hbuf; pose proof kBufferSize_val; unfold IOBuffer.size; simpl; lia |].
  split; [lia |]. split; [exact Hsome |].
  split; [unfold flushed; rewrite Hbuf, Hp, Hc; reflexivity |].
  unfold write_cursor. rewrite Hbuf, He, Hoff. reflexivity.
Qed.

Lemma run_app (fuel : nat) (ops1 ops2 : list Op) : forall s os,
  run fuel (ops1 ++ ops2) s os =
    let '(rs1, s1, os1) := run fuel ops1 s os in
    let '(rs2, s2, os2) := run fuel ops2 s1 os1 in
    (rs1 ++ rs2, s2, os2).
Proof.
  induction ops1 as [|op ops1 IH]; intros s os; simpl.
  - destruct (run fuel ops2 s os) as [[rs2 s2] os2]. reflexivity.
  - destruct (exec fuel op s os) as [[r s1] os1]. rewrite IH.
    destruct (run fuel ops1 s1 os1) as [[rs1 s2] os2].
    destruct (run fuel ops2 s2 os2) as [[rs2 s3] os3]. reflexivity.
Qed.

(** Writes and seeks, one after the other, on a stream that writes
    through an open slot. *)
Lemma run_writing (fuel : nat) (ops : list Op) : forall s os f c,
  writing s os f c ->
  writes_and_seeks fuel (Impl.currentOffset s) ops ->
  exists s' os' f',
    run fuel ops s os = (acknowledged ops, s', os') /\
    writing s' os' f' (written c (Impl.currentOffset s) ops) /\
    Native.path f' = Native.path f /\
    Impl.currentOffset s' = cursor_after (Impl.currentOffset s) ops /\
    Impl.fileSize s' = size_after (Impl.fileSize s) (Impl.currentOffset s) ops /\
    (forall p, p <> Native.path f -> Native.files os' !! p = Native.files os !! p).
Proof.
  induction ops as [|op ops IH]; intros s os f c Hwr Hops.
  - exists s, os, f. simpl. auto 10.
  - destruct op as [d | P | len |]; simpl in Hops; try contradiction.
    + destruct Hops as (Hlt & Hfuel & Hrest).
      destruct (write_image fuel s os f c d Hwr Hlt Hfuel)
        as (s1 & os1 & f1 & Hrun & Hwr1 & Hp1 & _ & Ho1 & Hs1 & Hother1).
      rewrite <- Ho1 in Hrest.
      destruct (IH s1 os1 f1 _ Hwr1 Hrest)
        as (s' & os' & f' & Hrun' & Hwr' & Hp' & Ho' & Hs' & Hother').
      exists s', os', f'. simpl. unfold FileStream.writesome. rewrite Hrun, Hrun'.
      rewrite Ho1 in *. rewrite Hs1 in Hs'.
      split; [reflexivity |]. split; [exact Hwr' |]. split; [congruence |].
      split; [exact Ho' |]. split; [exact Hs' |].
      intros p Hp. rewrite Hother' by congruence. apply Hother1. exact Hp.
    + destruct Hops as (HP & Hrest).
      destruct (seek_image s os f c P Hwr HP)
        as (s1 & os1 & f1 & Hrun & Hwr1 & Hp1 & _ & _ & _ & Ho1 & Hs1 & Hother1).
      rewrite <- Ho1 in Hrest.
      destruct (IH s1 os1 f1 _ Hwr1 Hrest)
        as (s' & os' & f' & Hrun' & Hwr' & Hp' & Ho' & Hs' & Hother').
      exists s', os', f'. simpl. unfold FileStream.seek. rewrite Hrun, Hrun'.
      rewrite Ho1 in *. rewrite Hs1 in Hs'.
      split; [reflexivity |]. split; [exact Hwr' |]. split; [congruence |].
      split; [exact Ho' |]. split; [exact Hs' |].
      intros p Hp. rewrite Hother' by congruence. apply Hother1. exact Hp.
Qed.

(** The same from the constructor to [close()]. *)
Lemma session_writing (os : Native.OS) (fp : string) (truncate : bool) (m : Mode)
    (fuel : nat) (ops : list Op) :
  Impl.writes m = true ->
  Native.limits os = [] ->
  writes_and_seeks fuel 0 ops ->
  exists s0 os1 s os',
    Impl.make os fp truncate m = (Returned s0, os1) /\
    run fuel (ops ++ [OpClose]) s0 os1 = (acknowledged ops ++ [Returned Closed], s, os') /\
    Native.files os' !! fp = Some (written [] 0 ops) /\
    FileStream.tell s = cursor_after 0 ops /\
    FileStream.size s = size_after 0 0 ops /\
    (forall p, p <> fp -> Native.files os' !! p = Native.files os !! p).
Proof.
  intros Hm Hl Hops.
  destruct (make_writing os fp truncate m Hm Hl)
    as (s0 & os1 & f & Hmake & Hwr & Hp & _ & _ & _ & Hoff & Hsz).
  rewrite <- Hoff in Hops.
  destruct (run_writing fuel ops s0 os1 f [] Hwr Hops)
    as (s1 & os2 & f1 & Hrun & Hwr1 & Hp1 & Ho1 & Hs1 & Hother1).
  destruct Hwr1 as (Hw1 & _ & _ & Hsome1 & Himg1 & _).
  destruct (close_image s1 os2 f1 Hw1 Hsome1) as (s & os' & Hclose & Hfile & [Ho Hs] & Hother).
  rewrite Himg1 in Hfile.
  rewrite Hoff in *. rewrite Hsz in *.
  exists s0, os1, s, os'. split; [exact Hmake |].
  split.
  { rewrite run_app, Hrun. simpl. unfold FileStream.close. rewrite Hclose. reflexivity. }
  rewrite Hp1, Hp in *.
  split; [exact Hfile |].
  unfold FileStream.tell, FileStream.size.
  split; [congruence |]. split; [congruence |].
  intros p Hp'. rewrite Hother, Hother1 by exact Hp'.
  apply (make_files _ _ _ _ _ _ Hmake). exact Hp'.
Qed.

Lemma written_writes (chunks : list (list byte_t)) : forall c,
  written c (Z.of_nat (length c)) (map OpWrite chunks) = c ++ concat chunks.
Proof.
  induction chunks as [|d chunks IH]; intros c; simpl; [rewrite app_nil_r; reflexivity |].
  rewrite patch_at_end.
  replace (Z.of_nat (length c) + Z.of_nat (length d)) with (Z.of_nat (length (c ++ d)))
    by (rewrite length_app; lia).
  rewrite IH, app_assoc. reflexivity.
Qed.

Lemma acknowledged_writes (chunks : list (list byte_t)) :
  acknowledged (map OpWrite chunks) =
    map (fun d => Returned (Wrote (Z.of_nat (length d)))) chunks.
Proof. induction chunks as [|d chunks IH]; simpl; [| rewrite IH]; reflexivity. Qed.

Lemma cursor_after_writes (chunks : list (list byte_t)) : forall cur,
  cursor_after cur (map OpWrite chunks) = cur + Z.of_nat (length (concat chunks)).
Proof.
  induction chunks as [|d chunks IH]; intros cur; simpl; [lia |].
  rewrite IH, length_app. unfold byte_t in *. lia.
Qed.

Lemma size_after_writes (chunks : list (list byte_t)) : forall sz cur,
  cur <= sz ->
  size_after sz cur (map OpWrite chunks) =
    Z.max sz (cur + Z.of_nat (length (concat chunks))).
Proof.
  induction chunks as [|d chunks IH]; intros sz cur Hcur; simpl; [lia |].
  rewrite IH by lia. rewrite length_app. unfold byte_t in *. lia.
Qed.

Lemma writes_and_seeks_writes (fuel : nat) (chunks : list (list byte_t)) : forall cur,
  cur + Z.of_nat (length (concat chunks)) < MAX_WRITE_FILE_SIZE ->
  Forall (fun d => (length d + 2 <= fuel)%nat) chunks ->
  writes_and_seeks fuel cur (map OpWrite chunks).
Proof.
  induction chunks as [|d chunks IH]; intros cur Hlt Hall; simpl; [exact I |].
  inversion Hall as [|? ? Hd Hrest]; subst.
  simpl in Hlt. rewrite length_app in Hlt.
  split; [lia |]. split; [exact Hd |]. apply IH; [lia | exact Hrest].
Qed.

(** ** From the constructor to [close()]: what the file holds *)

(** A stream constructed for writing on which writes (each ending below
    the size limit) and seeks are called, then [close()]: every call
    returns, and the file holds exactly what the calls make of an empty
    file, each write putting its bytes at the cursor and moving it past
    them, each seek moving the cursor; [tell()] and [size()] follow, and
    no other file changes. *)
Theorem file_after_writes_and_seeks (os : Native.OS) (fp : string) (truncate : bool)
    (m : Mode) (fuel : nat) (ops : list Op) :
  Impl.writes m = true ->
  Native.limits os = [] ->
  writes_and_seeks fuel 0 ops ->
  exists s0 os1 s os',
    Impl.make os fp truncate m = (Returned s0, os1) /\
    run fuel (ops ++ [OpClose]) s0 os1 = (acknowledged ops ++ [Returned Closed], s, os') /\
    Native.files os' !! fp = Some (written [] 0 ops) /\
    FileStream.tell s = cursor_after 0 ops /\
    FileStream.size s = size_after 0 0 ops /\
    (forall p, p <> fp -> Native.files os' !! p = Native.files os !! p).
Proof. apply session_writing. Qed.

Lemma file_after_writes_and_seeks_witness :
  exists s0 os1 s os',
    Impl.make boot "out.bin" false Write = (Returned s0, os1) /\
    run 4 ([OpWrite [Byte.x01; Byte.x02]; OpSeek 1; OpWrite [Byte.x03]] ++ [OpClose]) s0 os1 =
      (acknowledged [OpWrite [Byte.x01; Byte.x02]; OpSeek 1; OpWrite [Byte.x03]] ++
       [Returned Closed], s, os') /\
    Native.files os' !! "out.bin" =
      Some (written [] 0 [OpWrite [Byte.x01; Byte.x02]; OpSeek 1; OpWrite [Byte.x03]]) /\
    FileStream.tell s = cursor_after 0 [OpWrite [Byte.x01; Byte.x02]; OpSeek 1; OpWrite [Byte.x03]] /\
    FileStream.size s = size_after 0 0 [OpWrite [Byte.x01; Byte.x02]; OpSeek 1; OpWrite [Byte.x03]] /\
    (forall p, p <> "out.bin" -> Native.files os' !! p = Native.files boot !! p).
Proof.
  apply (file_after_writes_and_seeks boot "out.bin" false Write 4
           [OpWrite [Byte.x01; Byte.x02]; OpSeek 1; OpWrite [Byte.x03]]).
  - reflexivity.
  - reflexivity.
  - pose proof MAX_WRITE_FILE_SIZE_val. pose proof OFF_MAX_val. simpl. lia.
Defined.

(** However the bytes are cut into writes, the file ends up holding them
    in order: a stream constructed for writing, one write per chunk (the
    total below the size limit), then [close()], leaves the chunks
    concatenated in the file; [tell()] and [size()] are their total
    length. *)
Theorem writes_concatenate (os : Native.OS) (fp : string) (truncate : bool)
    (m : Mode) (fuel : nat) (chunks : list (list byte_t)) :
  Impl.writes m = true ->
  Native.limits os = [] ->
  Z.of_nat (length (concat chunks)) < MAX_WRITE_FILE_SIZE ->
  Forall (fun d => (length d + 2 <= fuel)%nat) chunks ->
  exists s0 os1 s os',
    Impl.make os fp truncate m = (Returned s0, os1) /\
    run fuel (map OpWrite chunks ++ [OpClose]) s0 os1 =
      (map (fun d => Returned (Wrote (Z.of_nat (length d)))) chunks ++ [Returned Closed],
       s, os') /\
    Native.files os' !! fp = Some (concat chunks) /\
    FileStream.tell s = Z.of_nat (length (concat chunks)) /\
    FileStream.size s = Z.of_nat (length (concat chunks)).
Proof.
  intros Hm Hl Hlt Hall.
  destruct (session_writing os fp truncate m fuel (map OpWrite chunks) Hm Hl)
    as (s0 & os1 & s & os' & Hmake & Hrun & Hfile & Htell & Hsize & _).
  { apply writes_and_seeks_writes; [lia | exact Hall]. }
  exists s0, os1, s, os'. split; [exact Hmake |].
  split.
  { rewrite Hrun, acknowledged_writes. reflexivity. }
  split; [rewrite Hfile; f_equal; apply (written_writes chunks []) |].
  split; [rewrite Htell, cursor_after_writes; lia |].
  rewrite Hsize, size_after_writes; lia.
Qed.

Lemma writes_concatenate_witness :
  exists s0 os1 s os',
    Impl.make boot "out.bin" false Write = (Returned s0, os1) /\
    run 4 (map OpWrite [[Byte.x01; Byte.x02]; []; [Byte.x03]] ++ [OpClose]) s0 os1 =
      (map (fun d => Returned (Wrote (Z.of_nat (length d))))
           [[Byte.x01; Byte.x02]; []; [Byte.x03]] ++ [Returned Closed], s, os') /\
    Native.files os' !! "out.bin" = Some (concat [[Byte.x01; Byte.x02]; []; [Byte.x03]]) /\
    FileStream.tell s = Z.of_nat (length (concat [[Byte.x01; Byte.x02]; []; [Byte.x03]])) /\
    FileStream.size s = Z.of_nat (length (concat [[Byte.x01; Byte.x02]; []; [Byte.x03]])).
Proof.
  apply (writes_concatenate boot "out.bin" false Write 4
           [[Byte.x01; Byte.x02]; []; [Byte.x03]]).
  - reflexivity.
  - reflexivity.
  - pose proof MAX_WRITE_FILE_SIZE_val. simpl. lia.
  - repeat constructor.
Defined.

(** Write [data], seek to [P], write [d] (at least one byte), close: the
    file holds the first [P] bytes of [data], padded with zero bytes up
    to [P] when [data] is shorter, then [d], then what [data] held past
    the end of [d].  So a seek backwards overwrites in place, and a write
    after a seek past the end fills the gap with zeros. *)
Theorem seek_then_write_patches (os : Native.OS) (fp : string) (truncate : bool)
    (m : Mode) (fuel : nat) (data d : list byte_t) (P : Z) :
  Impl.writes m = true ->
  Native.limits os = [] ->
  Z.of_nat (length data) < MAX_WRITE_FILE_SIZE ->
  0 <= P ->
  P + Z.of_nat (length d) < MAX_WRITE_FILE_SIZE ->
  d <> [] ->
  (length data + 2 <= fuel)%nat -> (length d + 2 <= fuel)%nat ->
  exists s0 os1 s os',
    Impl.make os fp truncate m = (Returned s0, os1) /\
    run fuel [OpWrite data; OpSeek P; OpWrite d; OpClose] s0 os1 =
      ([Returned (Wrote (Z.of_nat (length data))); Returned Sought;
        Returned (Wrote (Z.of_nat (length d))); Returned Closed], s, os') /\
    Native.files os' !! fp =
      Some (take (Z.to_nat P) data ++ zeros (Z.to_nat P - length data) ++ d ++
            drop (Z.to_nat P + length d) data) /\
    FileStream.tell s = P + Z.of_nat (length d) /\
    FileStream.size s = Z.max (Z.of_nat (length data)) (P + Z.of_nat (length d)).
Proof.
  intros Hm Hl Hdata HP Hd Hne Hf1 Hf2.
  pose proof MAX_WRITE_FILE_SIZE_val as HM. pose proof OFF_MAX_val as HO.
  destruct (session_writing os fp truncate m fuel [OpWrite data; OpSeek P; OpWrite d] Hm Hl)
    as (s0 & os1 & s & os' & Hmake & Hrun & Hfile & Htell & Hsize & _).
  { simpl. repeat split; auto; lia. }
  exists s0, os1, s, os'. split; [exact Hmake |]. split; [exact Hrun |].
  simpl in Hfile, Htell, Hsize.
  split; [| split; [exact Htell | rewrite Hsize; lia]].
  rewrite Hfile. f_equal.
  change 0 with (Z.of_nat (length (@nil byte_t))). rewrite patch_at_end. simpl.
  unfold patch. destruct d; [congruence | reflexivity].
Qed.

Lemma seek_then_write_patches_witness :
  exists s0 os1 s os',
    Impl.make boot "out.bin" false Write = (Returned s0, os1) /\
    run 4 [OpWrite [Byte.x01; Byte.x02]; OpSeek 4; OpWrite [Byte.x03]; OpClose] s0 os1 =
      ([Returned (Wrote 2); Returned Sought; Returned (Wrote 1); Returned Closed], s, os') /\
    Native.files os' !! "out.bin" =
      Some [Byte.x01; Byte.x02; Byte.x00; Byte.x00; Byte.x03] /\
    FileStream.tell s = 5 /\
    FileStream.size s = 5.
Proof.
  pose proof MAX_WRITE_FILE_SIZE_val as HM.
  apply (seek_then_write_patches boot "out.bin" false Write 4
           [Byte.x01; Byte.x02] [Byte.x03] 4).
  - reflexivity.
  - reflexivity.
  - simpl. lia.
  - lia.
  - simpl. lia.
  - discriminate.
  - simpl. lia.
  - simpl. lia.
Defined.

Lemma readsome_reading (s : Impl.t) (os : Native.OS) (c : list byte_t) (len : Z) :
  reading s os c ->
  0 <= len <= OFF_MAX ->
  let got := take (Z.to_nat len) (drop (Z.to_nat (Impl.currentOffset s)) c) in
  exists s' os',
    FileStream.readsome s os len = (Returned (Z.of_nat (length got)), got, s', os') /\
    reading s' os' c /\
    Impl.currentOffset s' = Impl.currentOffset s + Z.of_nat (length got).
Proof.
  intros (f & Hget & Hr & Hfile & Hpos & Hc & Hsz & Hq) Hlen got.
  pose proof OFF_MAX_val as HO.
  destruct (readsome_spec s os f len Hget Hr Hc ltac:(lia) ltac:(lia))
    as (os' & Hread & Hle & Hfiles & Hget').
  assert (Hcontent : Native.content os (Native.path f) = c)
    by (unfold Native.content; rewrite Hfile; reflexivity).
  rewrite Hcontent, Hpos in Hread, Hle, Hget'.
  set (req := if Impl.fileSize s <=? Impl.currentOffset s + len
              then Impl.fileSize s - Impl.currentOffset s else len) in *.
  assert (Hgot : take (Z.to_nat req) (drop (Z.to_nat (Impl.currentOffset s)) c) = got).
  { unfold got, req.
    destruct (Z.leb_spec (Impl.fileSize s) (Impl.currentOffset s + len)); [| reflexivity].
    rewrite !take_ge; [reflexivity | |]; rewrite length_drop; lia. }
  rewrite Hgot in Hread, Hle, Hget'.
  eexists _, os'. split; [exact Hread |]. split; [| reflexivity].
  eexists. split; [exact Hget' |]. cbn [Native.readable Native.path Native.pos].
  split; [exact Hr |]. split; [rewrite Hfiles; exact Hfile |].
  split; [reflexivity |]. simpl.
  split; [unfold req in Hle;
          destruct (Z.leb_spec (Impl.fileSize s) (Impl.currentOffset s + len)); lia |].
  split; [exact Hsz | exact Hq].
Qed.

Lemma seek_reading (s : Impl.t) (os : Native.OS) (c : list byte_t) (P : Z) :
  reading s os c ->
  0 <= P ->
  if P <=? OFF_MAX
  then exists s' os',
         FileStream.seek s os P = (Returned tt, s', os') /\
         reading s' os' c /\ Impl.currentOffset s' = P
  else FileStream.seek s os P = (Thrown SeekFailed, s, os).
Proof.
  intros (f & Hget & Hr & Hfile & Hpos & Hc & Hsz & Hq) HP.
  unfold FileStream.seek, Impl.seek, Impl.flush. rewrite Hq.
  destruct (Z.leb_spec P OFF_MAX) as [Hle | Hgt].
  - rewrite (lseek_open _ _ _ _ Hget Hle).
    destruct (Z.eqb_spec P (-1)); [lia |].
    eexists _, _. split; [reflexivity |]. split; [| reflexivity].
    eexists. split; [apply (native_get_insert_at _ _ f); exact Hget |].
    cbn [Native.readable Native.path Native.pos Native.files].
    split; [exact Hr |]. split; [exact Hfile |]. split; [reflexivity |]. simpl.
    destruct (Z.ltb_spec (Impl.fileSize s) P); (split; [lia |]); (split; [lia | exact Hq]).
  - unfold Native.lseek. rewrite Hget.
    destruct (Z.leb_spec P OFF_MAX); [lia |]. reflexivity.
Qed.

Lemma run_reading (fuel : nat) (ops : list Op) : forall s os c,
  reading s os c ->
  seeks_and_reads ops ->
  fst (fst (run fuel ops s os)) = served c (Impl.currentOffset s) ops.
Proof.
  induction ops as [|op ops IH]; intros s os c Hrd Hops; [reflexivity |].
  inversion Hops as [|? ? Hop Hrest]; subst.
  destruct op as [d | P | len |]; try contradiction; simpl in Hop.
  - pose proof (seek_reading s os c P Hrd ltac:(lia)) as Hseek.
    cbn [run exec served].
    destruct (Z.leb_spec P OFF_MAX).
    + destruct Hseek as (s' & os' & Hs & Hrd' & Ho'). rewrite Hs.
      specialize (IH s' os' c Hrd' Hrest). rewrite Ho' in IH.
      destruct (run fuel ops s' os') as [[rs s2] os2]. simpl in *. rewrite IH. reflexivity.
    + rewrite Hseek. specialize (IH s os c Hrd Hrest).
      destruct (run fuel ops s os) as [[rs s2] os2]. simpl in *. rewrite IH. reflexivity.
  - destruct (readsome_reading s os c len Hrd Hop) as (s' & os' & Hr & Hrd' & Ho').
    cbn [run exec served]. rewrite Hr.
    specialize (IH s' os' c Hrd' Hrest). rewrite Ho' in IH.
    destruct (run fuel ops s' os') as [[rs s2] os2]. simpl in *. rewrite IH. reflexivity.
Qed.

Lemma make_reading (os : Native.OS) (fp : string) (truncate : bool) (c : list byte_t) :
  Native.files os !! fp = Some c ->
  Z.of_nat (length c) <= OFF_MAX ->
  exists s os1,
    Impl.make os fp truncate Read = (Returned s, os1) /\
    reading s os1 c /\ Impl.currentOffset s = 0.
Proof.
  intros Hfile Hlen.
  destruct (make_reader os fp truncate c Hfile)
    as (s & os1 & Hmake & Hm & Hsz & Hoff & Hbuf & Hget & Hfiles).
  exists s, os1. split; [exact Hmake |]. split; [| exact Hoff].
  eexists. split; [exact Hget |]. cbn [Native.readable Native.path Native.pos].
  split; [reflexivity |]. split; [rewrite Hfiles; exact Hfile |].
  split; [symmetry; exact Hoff |]. rewrite Hoff, Hsz, Hm. repeat split; lia.
Qed.

Lemma bytes_read_served (c : list byte_t) (lens : list Z) : forall cur,
  0 <= cur ->
  Forall (fun len => 0 <= len) lens ->
  bytes_read (served c cur (map OpRead lens)) =
    take (Z.to_nat (fold_right Z.add 0 lens)) (drop (Z.to_nat cur) c).
Proof.
  induction lens as [|len lens IH]; intros cur Hcur Hall; [reflexivity |].
  inversion Hall as [|? ? Hlen Hrest]; subst. simpl.
  assert (Hsum : 0 <= fold_right Z.add 0 lens).
  { clear -Hrest. induction Hrest; simpl; lia. }
  rewrite IH by (try exact Hrest; lia).
  set (l := drop (Z.to_nat cur) c).
  replace (Z.to_nat (len + fold_right Z.add 0 lens))
    with (Z.to_nat len + Z.to_nat (fold_right Z.add 0%Z lens))%nat by lia.
  rewrite <- take_take_drop. f_equal. f_equal.
  replace (Z.to_nat (cur + Z.of_nat (length (take (Z.to_nat len) l))))
    with (Z.to_nat cur + length (take (Z.to_nat len) l))%nat by lia.
  rewrite <- drop_drop. fold l. rewrite length_take.
  destruct (Nat.le_ge_cases (Z.to_nat len) (length l)) as [Hle | Hge].
  - rewrite Nat.min_l by exact Hle. reflexivity.
  - rewrite Nat.min_r by exact Hge. rewrite !drop_ge; [reflexivity | lia | lia].
Qed.

(** ** A stream in [Read] mode is a cursor over the file *)

(** On a stream constructed in [Read] mode, seeks and reads answer as a
    cursor over the content of the file does: each read returns the
    bytes from [tell()] on, exactly as many as were asked for unless the
    file ends before, and moves [tell()] past them; a seek to a position
    an [off_t] holds moves [tell()] there, any other throws and moves
    nothing. *)
Theorem reads_serve_the_file (os : Native.OS) (fp : string) (truncate : bool)
    (c : list byte_t) (fuel : nat) (ops : list Op) :
  Native.files os !! fp = Some c ->
  Z.of_nat (length c) <= OFF_MAX ->
  seeks_and_reads ops ->
  exists s os1,
    Impl.make os fp truncate Read = (Returned s, os1) /\
    fst (fst (run fuel ops s os1)) = served c 0 ops.
Proof.
  intros Hfile Hlen Hops.
  destruct (make_reading os fp truncate c Hfile Hlen) as (s & os1 & Hmake & Hrd & Hoff).
  exists s, os1. split; [exact Hmake |].
  rewrite <- Hoff. apply run_reading; assumption.
Qed.

Lemma reads_serve_the_file_witness :
  exists s os1,
    Impl.make disk "in.bin" false Read = (Returned s, os1) /\
    fst (fst (run 1 [OpRead 1; OpSeek 0; OpRead 5] s os1)) =
      served [Byte.x01; Byte.x02] 0 [OpRead 1; OpSeek 0; OpRead 5].
Proof.
  pose proof OFF_MAX_val as HO.
  apply (reads_serve_the_file disk "in.bin" false [Byte.x01; Byte.x02] 1
           [OpRead 1; OpSeek 0; OpRead 5]).
  - reflexivity.
  - simpl. lia.
  - repeat constructor; simpl; lia.
Defined.

(** Reading a file piece by piece gives the file: on a stream
    constructed in [Read] mode, the bytes returned by successive reads,
    put end to end, are the first bytes of the file, as many as the
    lengths asked for add up to (the whole file when they reach its
    length). *)
Theorem reads_concatenate (os : Native.OS) (fp : string) (truncate : bool)
    (c : list byte_t) (fuel : nat) (lens : list Z) :
  Native.files os !! fp = Some c ->
  Z.of_nat (length c) <= OFF_MAX ->
  Forall (fun len => 0 <= len <= OFF_MAX) lens ->
  exists s os1,
    Impl.make os fp truncate Read = (Returned s, os1) /\
    bytes_read (fst (fst (run fuel (map OpRead lens) s os1))) =
      take (Z.to_nat (fold_right Z.add 0 lens)) c.
Proof.
  intros Hfile Hlen Hall.
  destruct (make_reading os fp truncate c Hfile Hlen) as (s & os1 & Hmake & Hrd & Hoff).
  exists s, os1. split; [exact Hmake |].
  rewrite (run_reading fuel (map OpRead lens) s os1 c Hrd).
  - rewrite Hoff, bytes_read_served; [reflexivity | lia |].
    eapply Forall_impl; [exact Hall |]. simpl. intros; lia.
  - apply Forall_map. eapply Forall_impl; [exact Hall |]. simpl. intros; lia.
Qed.

Lemma reads_concatenate_witness :
  exists s os1,
    Impl.make disk "in.bin" false Read = (Returned s, os1) /\
    bytes_read (fst (fst (run 1 (map OpRead [1; 0; 4]) s os1))) =
      take (Z.to_nat (fold_right Z.add 0 [1; 0; 4])) [Byte.x01; Byte.x02].
Proof.
  pose proof OFF_MAX_val as HO.
  apply (reads_concatenate disk "in.bin" false [Byte.x01; Byte.x02] 1 [1; 0; 4]).
  - reflexivity.
  - simpl. lia.
  - repeat constructor; lia.
Defined.

(** ** Writes that stay in the buffer *)

(** A write whose bytes fit in the room left in the buffer makes no
    native call, whatever state the descriptor is in: the process is as
    it was, the bytes are staged behind those already there, and the
    call returns the length with [tell()] moved by it and [size()] at
    least there.  Only the size limit stops it: then it throws, the
    counters stay, and the bytes are staged all the same. *)
Theorem write_within_room (fuel : nat) (s : Impl.t) (os : Native.OS) (data : list byte_t) :
  (0 < fuel)%nat ->
  Z.of_nat (length data) <= IOBuffer.capacity (Impl.buffer_ s) - IOBuffer.size (Impl.buffer_ s) ->
  0 <= FileStream.tell s ->
  FileStream.tell s + Z.of_nat (length data) < 2 ^ 64 ->
  exists s',
    IOBuffer.staged (Impl.buffer_ s') = IOBuffer.staged (Impl.buffer_ s) ++ data /\
    if MAX_WRITE_FILE_SIZE <=? FileStream.tell s + Z.of_nat (length data)
    then FileStream.writesome fuel s os data = (Thrown MaxFileSize, s', os) /\
         FileStream.tell s' = FileStream.tell s /\ FileStream.size s' = FileStream.size s
    else FileStream.writesome fuel s os data = (Returned (Z.of_nat (length data)), s', os) /\
         FileStream.tell s' = FileStream.tell s + Z.of_nat (length data) /\
         FileStream.size s' =
           Z.max (FileStream.size s) (FileStream.tell s + Z.of_nat (length data)).
Proof.
  unfold FileStream.tell, FileStream.size, FileStream.writesome, IOBuffer.capacity.
  intros Hfuel Hfit Hc Hlt.
  rewrite (write_fits fuel s os data Hfuel Hfit Hc Hlt).
  destruct (MAX_WRITE_FILE_SIZE <=? Impl.currentOffset s + Z.of_nat (length data));
    eexists; (split; [| split; [reflexivity | split; reflexivity]]); reflexivity.
Qed.

Lemma write_within_room_witness :
  exists s',
    IOBuffer.staged (Impl.buffer_ s') =
      IOBuffer.staged (Impl.buffer_ closed_writer) ++ [Byte.x01] /\
    if MAX_WRITE_FILE_SIZE <=? FileStream.tell closed_writer + Z.of_nat (length [Byte.x01])
    then FileStream.writesome 1 closed_writer closed_os [Byte.x01] =
           (Thrown MaxFileSize, s', closed_os) /\
         FileStream.tell s' = FileStream.tell closed_writer /\
         FileStream.size s' = FileStream.size closed_writer
    else FileStream.writesome 1 closed_writer closed_os [Byte.x01] =
           (Returned (Z.of_nat (length [Byte.x01])), s', closed_os) /\
         FileStream.tell s' = FileStream.tell closed_writer + Z.of_nat (length [Byte.x01]) /\
         FileStream.size s' =
           Z.max (FileStream.size closed_writer)
                 (FileStream.tell closed_writer + Z.of_nat (length [Byte.x01])).
Proof.
  apply (write_within_room 1 closed_writer closed_os [Byte.x01]).
  - lia.
  - pose proof kBufferSize_val. unfold IOBuffer.capacity, IOBuffer.size. simpl. lia.
  - simpl. lia.
  - simpl. lia.
Defined.

(** ** The size limit does not keep the bytes out *)

(** The limit is checked after the bytes were staged.  A write that fits
    in the buffer and would end at or past [MAX_WRITE_FILE_SIZE] throws
    and leaves [tell()] and [size()] as they were, yet the following
    [close()] returns and puts the bytes in the file, at the offset the
    write was made at: with at least one byte written, the file then
    ends at or past the limit. *)
Theorem limit_bytes_reach_the_file (fuel : nat) (s : Impl.t) (os : Native.OS)
    (f : Native.OpenFile) (c data : list byte_t) :
  writing s os f c ->
  (0 < fuel)%nat ->
  Z.of_nat (length data) <= IOBuffer.capacity (Impl.buffer_ s) - IOBuffer.size (Impl.buffer_ s) ->
  MAX_WRITE_FILE_SIZE <= FileStream.tell s + Z.of_nat (length data) ->
  FileStream.tell s + Z.of_nat (length data) < 2 ^ 64 ->
  exists s1 s2 os2,
    FileStream.writesome fuel s os data = (Thrown MaxFileSize, s1, os) /\
    FileStream.tell s1 = FileStream.tell s /\ FileStream.size s1 = FileStream.size s /\
    FileStream.close s1 os = (Returned tt, s2, os2) /\
    Native.files os2 !! Native.path f = Some (patch c (FileStream.tell s) data) /\
    (data <> [] ->
     MAX_WRITE_FILE_SIZE <= Z.of_nat (length (patch c (FileStream.tell s) data))).
Proof.
  unfold FileStream.tell, FileStream.size, FileStream.writesome, FileStream.close,
    IOBuffer.capacity.
  intros (Hw & Hb & Hpos & Hsome & Himg & Hcur) Hfuel Hfit Hmax Hlt.
  pose proof (buffer_size_nonneg (Impl.buffer_ s)) as Hsz.
  assert (Hc : 0 <= Impl.currentOffset s) by (rewrite <- Hcur; unfold write_cursor; lia).
  rewrite (write_fits fuel s os data Hfuel Hfit Hc Hlt).
  destruct (Z.leb_spec MAX_WRITE_FILE_SIZE (Impl.currentOffset s + Z.of_nat (length data)));
    [| lia].
  set (s1 := Impl.set_buffer s
               {| IOBuffer.staged := IOBuffer.staged (Impl.buffer_ s) ++ data |}).
  assert (Hw1 : writer s1 os f) by (destruct Hw as (? & ? & ? & ?); repeat split; auto).
  destruct (close_image s1 os f Hw1 Hsome) as (s2 & os2 & Hclose & Hfile & _).
  assert (Himg1 : flushed s1 os f = patch c (Impl.currentOffset s) data).
  { rewrite flushed_patch. simpl. rewrite image_app by exact Hpos.
    rewrite <- flushed_patch, Himg. f_equal. exact Hcur. }
  rewrite Himg1 in Hfile.
  exists s1, s2, os2. split; [reflexivity |]. split; [reflexivity |]. split; [reflexivity |].
  split; [exact Hclose |]. split; [exact Hfile |].
  intros Hne. unfold patch. destruct data as [|x data]; [congruence |].
  rewrite overwrite_length. lia.
Qed.

Lemma limit_bytes_reach_the_file_witness :
  exists s1 s2 os2,
    FileStream.writesome 1 near_limit near_limit_os [Byte.x01; Byte.x02] =
      (Thrown MaxFileSize, s1, near_limit_os) /\
    FileStream.tell s1 = FileStream.tell near_limit /\
    FileStream.size s1 = FileStream.size near_limit /\
    FileStream.close s1 near_limit_os = (Returned tt, s2, os2) /\
    Native.files os2 !! Native.path near_limit_file =
      Some (patch [] (FileStream.tell near_limit) [Byte.x01; Byte.x02]) /\
    ([Byte.x01; Byte.x02] <> [] ->
     MAX_WRITE_FILE_SIZE <=
       Z.of_nat (length (patch [] (FileStream.tell near_limit) [Byte.x01; Byte.x02]))).
Proof.
  pose proof kBufferSize_val as HK. pose proof MAX_WRITE_FILE_SIZE_val as HM.
  apply (limit_bytes_reach_the_file 1 near_limit near_limit_os near_limit_file []
           [Byte.x01; Byte.x02]).
  - split; [repeat split; reflexivity |].
    split; [unfold IOBuffer.size; simpl; lia |].
    split; [simpl; lia |].
    split; [eexists; reflexivity |].
    split; reflexivity.
  - lia.
  - unfold IOBuffer.capacity, IOBuffer.size. simpl. lia.
  - unfold FileStream.tell. simpl. lia.
  - unfold FileStream.tell. simpl. lia.
Defined.

(** ** A short transfer at [close()] or [seek()] *)

(** [close()] and [seek()] ignore the count [flush()] returns, and
    [flush()] resets the buffer whatever the count.  When the device
    takes only [cap] of the staged bytes (at least one, fewer than all),
    both calls return normally, the file has got the first [cap] staged
    bytes and no more, and the buffer is empty: the rest is lost without
    any error. *)
Theorem short_flush_loses_bytes (s : Impl.t) (os : Native.OS) (f : Native.OpenFile)
    (cap : Z) (rest : list Z) (P : Z) :
  Impl.writes (Impl.mode s) = true ->
  Native.get os (Impl.fd s) = Some f ->
  Native.writable f = true ->
  Native.limits os = cap :: rest ->
  0 < cap < IOBuffer.size (Impl.buffer_ s) ->
  0 <= P <= OFF_MAX ->
  let kept := Native.overwrite (Native.content os (Native.path f)) (Z.to_nat (Native.pos f))
                (take (Z.to_nat cap) (IOBuffer.staged (Impl.buffer_ s))) in
  (exists s' os',
     FileStream.close s os = (Returned tt, s', os') /\
     Impl.buffer_ s' = IOBuffer.empty /\
     Native.files os' !! Native.path f = Some kept /\
     Native.wlog os' = Native.wlog os ++ [(IOBuffer.size (Impl.buffer_ s), cap)]) /\
  (exists s' os',
     FileStream.seek s os P = (Returned tt, s', os') /\
     Impl.buffer_ s' = IOBuffer.empty /\
     Native.files os' !! Native.path f = Some kept /\
     Native.wlog os' = Native.wlog os ++ [(IOBuffer.size (Impl.buffer_ s), cap)]).
Proof.
  intros Hm Hget Hwb Hl Hcap HP kept.
  pose proof (native_get_nonneg _ _ _ Hget) as Hfd.
  assert (Hdata : IOBuffer.hasData (Impl.buffer_ s) = true).
  { unfold IOBuffer.hasData. destruct (Z.eqb_spec (IOBuffer.size (Impl.buffer_ s)) 0); [lia |].
    reflexivity. }
  set (f1 := {| Native.path := Native.path f; Native.readable := Native.readable f;
                Native.writable := true; Native.pos := Native.pos f + cap |}).
  set (os1 := {| Native.files := <[Native.path f := kept]> (Native.files os);
                 Native.fds := <[Z.to_nat (Impl.fd s) := f1]> (Native.fds os);
                 Native.limits := rest;
                 Native.wlog := Native.wlog os ++ [(IOBuffer.size (Impl.buffer_ s), cap)] |}).
  assert (Hflush : Impl.flush s os = (Returned cap, Impl.set_buffer s IOBuffer.empty, os1)).
  { unfold Impl.flush. rewrite Hm, Hdata. cbn [andb].
    unfold Native.write. rewrite Hget, Hwb, Hl. fold (IOBuffer.size (Impl.buffer_ s)).
    replace (Z.max 0 (Z.min cap (IOBuffer.size (Impl.buffer_ s)))) with cap by lia.
    cbn [tail]. fold kept. fold f1. fold os1.
    destruct (Z.eqb_spec cap (-1)); [lia | reflexivity]. }
  assert (Hget1 : Native.get os1 (Impl.fd s) = Some f1)
    by (apply (native_get_insert_at _ _ f); exact Hget).
  split.
  - unfold FileStream.close, Impl.close. rewrite Hflush.
    assert (Hcl : forall d, Native.files (Native.close os1 d) = Native.files os1 /\
                            Native.wlog (Native.close os1 d) = Native.wlog os1)
      by (intros d; unfold Native.close; destruct (d <? 0); split; reflexivity).
    destruct (0 <? Impl.fd (Impl.set_buffer s IOBuffer.empty));
      eexists _, _; (split; [reflexivity |]); (split; [reflexivity |]);
      rewrite ?(proj1 (Hcl _)), ?(proj2 (Hcl _)); simpl;
      (split; [apply lookup_insert_eq | reflexivity]).
  - unfold FileStream.seek, Impl.seek. rewrite Hflush.
    change (Impl.fd (Impl.set_buffer s IOBuffer.empty)) with (Impl.fd s).
    rewrite (lseek_open _ _ _ _ Hget1) by lia.
    destruct (Z.eqb_spec P (-1)); [lia |].
    eexists _, _. split; [reflexivity |]. split; [reflexivity |]. simpl.
    split; [apply lookup_insert_eq | reflexivity].
Qed.

Lemma short_flush_loses_bytes_witness :
  (exists s' os',
     FileStream.close staged_writer fresh_os_two = (Returned tt, s', os') /\
     Impl.buffer_ s' = IOBuffer.empty /\
     Native.files os' !! "out.bin" = Some [Byte.x01; Byte.x02] /\
     Native.wlog os' = [(3, 2)]) /\
  (exists s' os',
     FileStream.seek staged_writer fresh_os_two 0 = (Returned tt, s', os') /\
     Impl.buffer_ s' = IOBuffer.empty /\
     Native.files os' !! "out.bin" = Some [Byte.x01; Byte.x02] /\
     Native.wlog os' = [(3, 2)]).
Proof.
  pose proof OFF_MAX_val as HO.
  apply (short_flush_loses_bytes staged_writer fresh_os_two fresh_file 2 [] 0).
  - reflexivity.
  - reflexivity.
  - reflexivity.
  - reflexivity.
  - unfold IOBuffer.size. simpl. lia.
  - lia.
Defined.

Lemma native_write_range (os : Native.OS) (d : Z) (buf : list byte_t) :
  snd (Native.write os d buf) = -1 \/ 0 <= snd (Native.write os d buf).
Proof.
  unfold Native.write. destruct (Native.get os d) as [f |]; [| left; reflexivity].
  destruct (Native.writable f); [| left; reflexivity].
  right. simpl. destruct (Native.limits os); lia.
Qed.

Lemma flush_count (s : Impl.t) (os : Native.OS) t s' os' :
  Impl.flush s os = (Returned t, s', os') -> 0 <= t.
Proof.
  unfold Impl.flush.
  destruct (Impl.writes (Impl.mode s) && IOBuffer.hasData (Impl.buffer_ s)).
  - pose proof (native_write_range os (Impl.fd s) (IOBuffer.staged (Impl.buffer_ s))) as H.
    destruct (Native.write os (Impl.fd s) _) as [os1 n]. simpl in H.
    destruct (Z.eqb_spec n (-1)); [discriminate |]. intros [= <- _ _]. lia.
  - intros [= <- _ _]. lia.
Qed.

(** How the loop of [write] can return: with the whole length and the
    counters moved by it, or from a flush that fell short, with fewer
    bytes and the counters as they were. *)
Lemma write_loop_result (fuel : nat) : forall s os data n m s' os',
  buffer_ok s ->
  0 <= n -> 0 <= Impl.currentOffset s ->
  Impl.currentOffset s + n + Z.of_nat (length data) < 2 ^ 64 ->
  Impl.write_loop fuel s os data (n + Z.of_nat (length data)) n = (Returned m, s', os') ->
  (m = n + Z.of_nat (length data) /\
   Impl.currentOffset s' = Impl.currentOffset s + m /\
   Impl.fileSize s' = Z.max (Impl.fileSize s) (Impl.currentOffset s + m)) \/
  (0 <= m < n + Z.of_nat (length data) /\ same_offsets s s').
Proof.
  induction fuel as [|fuel IH]; intros s os data n m s' os' Hok Hn Hc Hlt; [discriminate |].
  rewrite write_loop_S.
  pose proof (write_turn_buffer s os data (n + Z.of_nat (length data)) n Hok) as Hbuf.
  revert Hbuf. unfold Impl.write_turn.
  rewrite wrap_small by lia. rewrite buffer_write_spec.
  replace (n + Z.of_nat (length data) - n) with (Z.of_nat (length data)) by lia.
  pose proof (buffer_size_nonneg (Impl.buffer_ s)) as Hsz.
  unfold buffer_ok in Hok.
  set (k := Z.min (Z.of_nat (length data)) (kBufferSize - IOBuffer.size (Impl.buffer_ s))).
  assert (Hk : 0 <= k <= Z.of_nat (length data)) by (unfold k; lia).
  set (s0 := Impl.set_buffer s _).
  assert (Htail : forall s1 os1,
            same_offsets s s1 ->
            match Impl.write_tail s1 os1 data (n + Z.of_nat (length data)) n k with
            | Impl.Done (_, s2, _) => buffer_ok s2
            | Impl.Again s2 _ _ _ => buffer_ok s2
            end ->
            match Impl.write_tail s1 os1 data (n + Z.of_nat (length data)) n k with
            | Impl.Done r1 => r1
            | Impl.Again s2 os2 d2 n2 =>
                Impl.write_loop fuel s2 os2 d2 (n + Z.of_nat (length data)) n2
            end = (Returned m, s', os') ->
            (m = n + Z.of_nat (length data) /\
             Impl.currentOffset s' = Impl.currentOffset s + m /\
             Impl.fileSize s' = Z.max (Impl.fileSize s) (Impl.currentOffset s + m)) \/
            (0 <= m < n + Z.of_nat (length data) /\ same_offsets s s')).
  { intros s1 os1 [Ho1 Hz1].
    rewrite write_tail_spec by (rewrite ?Ho1; lia). rewrite Ho1, Hz1.
    destruct (MAX_WRITE_FILE_SIZE <=? Impl.currentOffset s + n + k); [discriminate |].
    destruct (Z.ltb_spec (n + k) (n + Z.of_nat (length data))) as [Hmore | Hlast].
    - intros Hok1 Hrun.
      assert (Hlen' : Z.of_nat (length (drop (Z.to_nat k) data)) = Z.of_nat (length data) - k)
        by (rewrite length_drop; lia).
      replace (n + Z.of_nat (length data))
        with (n + k + Z.of_nat (length (drop (Z.to_nat k) data))) in Hrun by lia.
      destruct (IH s1 os1 (drop (Z.to_nat k) data) (n + k) m s' os' Hok1 ltac:(lia)
                  ltac:(rewrite Ho1; lia) ltac:(rewrite Ho1; lia) Hrun)
        as [(Hm & Ho & Hz) | (Hm & Ho & Hz)].
      + left. rewrite Ho1, Hz1 in *. split; [lia | split; assumption].
      + right. split; [lia |]. split; congruence.
    - intros _ [= <- <- _]. left. simpl. split; [lia |].
      replace (Impl.currentOffset s + (n + k)) with (Impl.currentOffset s + n + k) by lia.
      split; reflexivity. }
  destruct (Z.ltb_spec k (n + Z.of_nat (length data))) as [Hspill | Hfits].
  - destruct (Impl.flush s0 os) as [[rf s1] os1] eqn:Hf.
    destruct (flush_same _ _ _ _ _ Hf) as [_ Ho1].
    destruct rf as [t | e |]; [| discriminate | discriminate].
    destruct (Z.ltb_spec t k) as [Hshort | Hfull].
    + intros _ [= <- <- _]. right. apply flush_count in Hf.
      split; [lia | exact Ho1].
    + intros Hb. apply Htail; [exact Ho1 | exact Hb].
  - intros Hb. apply Htail; [split; reflexivity | exact Hb].
Qed.

(** ** What [write] returns *)

(** When [write] returns, it either wrote it all (it returns the length,
    [tell()] has moved by the length and [size()] is at least there), or
    a flush fell short and it returns a smaller count with [tell()] and
    [size()] unchanged.  It never returns more than it was given. *)
Theorem write_all_or_nothing (fuel : nat) (s : Impl.t) (os : Native.OS) (data : list byte_t)
    (m : Z) (s' : Impl.t) (os' : Native.OS) :
  IOBuffer.size (Impl.buffer_ s) <= IOBuffer.capacity (Impl.buffer_ s) ->
  0 <= FileStream.tell s ->
  FileStream.tell s + Z.of_nat (length data) < 2 ^ 64 ->
  FileStream.writesome fuel s os data = (Returned m, s', os') ->
  (m = Z.of_nat (length data) /\
   FileStream.tell s' = FileStream.tell s + Z.of_nat (length data) /\
   FileStream.size s' =
     Z.max (FileStream.size s) (FileStream.tell s + Z.of_nat (length data))) \/
  (0 <= m < Z.of_nat (length data) /\
   FileStream.tell s' = FileStream.tell s /\ FileStream.size s' = FileStream.size s).
Proof.
  unfold FileStream.tell, FileStream.size, FileStream.writesome, Impl.write,
    IOBuffer.capacity.
  intros Hok Hc Hlt Hrun.
  destruct (write_loop_result fuel s os data 0 m s' os' Hok ltac:(lia) Hc ltac:(lia) Hrun)
    as [(Hm & Ho & Hz) | (Hm & Ho & Hz)].
  - left. rewrite Z.add_0_l in Hm. subst m. auto.
  - right. rewrite Z.add_0_l in Hm. auto.
Qed.

Lemma write_all_or_nothing_witness :
  (4000 = Z.of_nat (length (zeros 4097)) /\
   FileStream.tell fresh_writer = FileStream.tell fresh_writer + Z.of_nat (length (zeros 4097)) /\
   FileStream.size fresh_writer =
     Z.max (FileStream.size fresh_writer)
           (FileStream.tell fresh_writer + Z.of_nat (length (zeros 4097)))) \/
  (0 <= 4000 < Z.of_nat (length (zeros 4097)) /\
   FileStream.tell fresh_writer = FileStream.tell fresh_writer /\
   FileStream.size fresh_writer = FileStream.size fresh_writer).
Proof.
  pose proof kBufferSize_val as HK.
  refine (write_all_or_nothing 3 fresh_writer fresh_os_short (zeros 4097) 4000
            fresh_writer _ _ _ _ _).
  - unfold IOBuffer.capacity, IOBuffer.size. simpl. lia.
  - simpl. lia.
  - rewrite zeros_length. simpl. lia.
  - vm_compute. reflexivity.
Defined.

Lemma readsome_limits (s : Impl.t) (os : Native.OS) (len : Z) r got s' os' :
  FileStream.readsome s os len = (r, got, s', os') ->
  Native.limits os' = Native.limits os.
Proof.
  unfold FileStream.readsome, Impl.read, Native.read.
  destruct (Native.get os (Impl.fd s)) as [f |].
  - destruct (Native.readable f).
    + destruct (_ =? -1); intros [= _ _ _ <-]; reflexivity.
    + simpl. intros [= _ _ _ <-]. reflexivity.
  - simpl. intros [= _ _ _ <-]. reflexivity.
Qed.

(** A stream in [ReadWrite] mode after [write(data)] and [seek(P)]: the
    bytes are in the file, nothing is staged, and the slot stands at
    [P]. *)
Lemma written_then_sought (os : Native.OS) (fp : string) (truncate : bool)
    (fuel : nat) (data : list byte_t) (P : Z) :
  Native.limits os = [] ->
  Z.of_nat (length data) < MAX_WRITE_FILE_SIZE ->
  0 <= P <= OFF_MAX ->
  (length data + 2 <= fuel)%nat ->
  exists s0 os1 s os' f,
    Impl.make os fp truncate ReadWrite = (Returned s0, os1) /\
    run fuel [OpWrite data; OpSeek P] s0 os1 =
      ([Returned (Wrote (Z.of_nat (length data))); Returned Sought], s, os') /\
    writer s os' f /\ Native.readable f = true /\ Native.path f = fp /\
    Native.files os' !! fp = Some data /\
    Native.pos f = P /\ Impl.buffer_ s = IOBuffer.empty /\
    Impl.currentOffset s = P /\
    Impl.fileSize s = Z.max (Z.of_nat (length data)) P.
Proof.
  intros Hl Hdata HP Hfuel.
  destruct (make_writing os fp truncate ReadWrite eq_refl Hl)
    as (s0 & os1 & f & Hmake & Hwr & Hp & Hr & _ & _ & Hoff & Hsz).
  destruct (write_image fuel s0 os1 f [] data Hwr ltac:(rewrite Hoff; lia) Hfuel)
    as (s1 & os2 & f1 & Hrun1 & Hwr1 & Hp1 & Hr1 & Ho1 & Hs1 & _).
  destruct (seek_image s1 os2 f1 _ P Hwr1 HP)
    as (s2 & os3 & f2 & Hrun2 & Hwr2 & Hp2 & Hr2 & Hpos2 & Hbuf2 & Ho2 & Hs2 & _).
  exists s0, os1, s2, os3, f2. split; [exact Hmake |].
  split.
  { simpl. unfold FileStream.writesome, FileStream.seek. rewrite Hrun1, Hrun2. reflexivity. }
  destruct Hwr2 as (Hw2 & _ & _ & Hsome2 & Himg2 & _).
  simpl in Hr.
  split; [exact Hw2 |]. split; [congruence |]. split; [congruence |].
  split.
  { assert (Hpath : Native.path f2 = fp) by congruence.
    apply content_lookup in Hsome2. rewrite <- Hpath, Hsome2. f_equal.
    unfold flushed in Himg2. rewrite Hbuf2 in Himg2. simpl in Himg2.
    rewrite Himg2, Hoff. apply patch_fresh. }
  split; [exact Hpos2 |]. split; [exact Hbuf2 |]. split; [exact Ho2 |].
  rewrite Hs2, Hs1, Hoff, Hsz. lia.
Qed.

(** ** Reading what the stream wrote *)

(** On a stream constructed in [ReadWrite] mode, [write(data)] then
    [seek(P)] then a read of [n] bytes returns the bytes of [data] from
    offset [P] on, [n] of them or as many as there are: the seek has
    flushed them, so the stream reads back what it wrote without being
    closed. *)
Theorem read_back_after_seek (os : Native.OS) (fp : string) (truncate : bool)
    (fuel : nat) (data : list byte_t) (P n : Z) :
  Native.limits os = [] ->
  Z.of_nat (length data) < MAX_WRITE_FILE_SIZE ->
  0 <= P <= OFF_MAX ->
  0 <= n <= OFF_MAX ->
  (length data + 2 <= fuel)%nat ->
  let got := take (Z.to_nat n) (drop (Z.to_nat P) data) in
  exists s0 os1 s os',
    Impl.make os fp truncate ReadWrite = (Returned s0, os1) /\
    run fuel [OpWrite data; OpSeek P; OpRead n] s0 os1 =
      ([Returned (Wrote (Z.of_nat (length data))); Returned Sought;
        Returned (Got (Z.of_nat (length got)) got)], s, os') /\
    FileStream.tell s = P + Z.of_nat (length got).
Proof.
  intros Hl Hdata HP Hn Hfuel got.
  pose proof MAX_WRITE_FILE_SIZE_val as HM. pose proof OFF_MAX_val as HO.
  destruct (written_then_sought os fp truncate fuel data P Hl Hdata HP Hfuel)
    as (s0 & os1 & s2 & os3 & f2 & Hmake & Hrun & Hw2 & Hr2 & Hp2 & Hfile & Hpos2 & Hbuf2 &
        Ho2 & Hs2).
  assert (Hrd : reading s2 os3 data).
  { exists f2. destruct Hw2 as (_ & Hget & _).
    split; [exact Hget |]. split; [exact Hr2 |]. split; [rewrite Hp2; exact Hfile |].
    split; [congruence |]. rewrite Ho2, Hs2, Hbuf2.
    split; [lia |]. split; [lia |]. apply andb_false_r. }
  destruct (readsome_reading s2 os3 data n Hrd Hn) as (s3 & os4 & Hread & _ & Ho3).
  rewrite Ho2 in Hread, Ho3. fold got in Hread, Ho3.
  exists s0, os1, s3, os4. split; [exact Hmake |].
  split; [| exact Ho3].
  change [OpWrite data; OpSeek P; OpRead n] with ([OpWrite data; OpSeek P] ++ [OpRead n]).
  rewrite run_app, Hrun. simpl. rewrite Hread. reflexivity.
Qed.

Lemma read_back_after_seek_witness :
  exists s0 os1 s os',
    Impl.make boot "out.bin" false ReadWrite = (Returned s0, os1) /\
    run 5 [OpWrite [Byte.x01; Byte.x02; Byte.x03]; OpSeek 1; OpRead 5] s0 os1 =
      ([Returned (Wrote 3); Returned Sought; Returned (Got 2 [Byte.x02; Byte.x03])], s, os') /\
    FileStream.tell s = 3.
Proof.
  pose proof MAX_WRITE_FILE_SIZE_val as HM. pose proof OFF_MAX_val as HO.
  apply (read_back_after_seek boot "out.bin" false 5 [Byte.x01; Byte.x02; Byte.x03] 1 5).
  - reflexivity.
  - simpl. lia.
  - lia.
  - lia.
  - simpl. lia.
Defined.

(** ** A read between a write and its flush *)

(** [readsome] does not flush.  On a stream in [ReadWrite] mode holding
    [data], [seek(0)], a write of [d] that stays in the buffer and a read
    of [n] bytes: the read returns the first [n] bytes of [data], the
    ones [d] was written over, not those at [tell()]; and it moves the
    descriptor, so that [close()] puts [d] at offset [n], behind the
    bytes that were read, and not at offset 0 where it was written. *)
Theorem read_displaces_staged_write (os : Native.OS) (fp : string) (truncate : bool)
    (fuel : nat) (data d : list byte_t) (n : Z) :
  Native.limits os = [] ->
  Z.of_nat (length data) < MAX_WRITE_FILE_SIZE ->
  d <> [] ->
  Z.of_nat (length d) <= kBufferSize ->
  0 < n ->
  Z.of_nat (length d) + n <= Z.of_nat (length data) ->
  (length data + 2 <= fuel)%nat ->
  exists s0 os1 s os',
    Impl.make os fp truncate ReadWrite = (Returned s0, os1) /\
    run fuel [OpWrite data; OpSeek 0; OpWrite d; OpRead n; OpClose] s0 os1 =
      ([Returned (Wrote (Z.of_nat (length data))); Returned Sought;
        Returned (Wrote (Z.of_nat (length d)));
        Returned (Got n (take (Z.to_nat n) data)); Returned Closed], s, os') /\
    Native.files os' !! fp =
      Some (take (Z.to_nat n) data ++ d ++ drop (Z.to_nat n + length d) data).
Proof.
  intros Hl Hdata Hne Hd Hn Hin Hfuel.
  pose proof MAX_WRITE_FILE_SIZE_val as HM. pose proof OFF_MAX_val as HO.
  pose proof kBufferSize_val as HK.
  destruct (written_then_sought os fp truncate fuel data 0 Hl Hdata ltac:(lia) Hfuel)
    as (s0 & os1 & s2 & os3 & f2 & Hmake & Hrun & Hw2 & Hr2 & Hp2 & Hfile & Hpos2 & Hbuf2 &
        Ho2 & Hs2).
  (* the write of [d] stays in the buffer *)
  assert (Hwrite := write_fits fuel s2 os3 d ltac:(lia)).
  rewrite Hbuf2, Ho2 in Hwrite. unfold IOBuffer.size in Hwrite. simpl in Hwrite.
  specialize (Hwrite ltac:(lia) ltac:(lia) ltac:(lia)).
  assert (Hlim : (MAX_WRITE_FILE_SIZE <=? Z.of_nat (length d)) = false)
    by (apply Z.leb_gt; lia).
  rewrite !Z.add_0_l, Hlim in Hwrite.
  set (s3 := Impl.set_offsets (Impl.set_buffer s2 {| IOBuffer.staged := d |})
               (Z.of_nat (length d)) (Z.max (Impl.fileSize s2) (Z.of_nat (length d)))) in *.
  (* the read *)
  destruct Hw2 as (Hm2 & Hget2 & Hwb2 & Hl2).
  assert (Hcontent : Native.content os3 (Native.path f2) = data)
    by (unfold Native.content; rewrite Hp2, Hfile; reflexivity).
  destruct (readsome_spec s3 os3 f2 n Hget2 Hr2) as (os4 & Hread & _ & Hfiles4 & Hget4);
    [simpl; rewrite Hs2; lia | lia | simpl; lia |].
  pose proof (readsome_limits _ _ _ _ _ _ _ Hread) as Hl4.
  rewrite Hcontent, Hpos2 in Hread, Hget4.
  assert (Hreq : (if Impl.fileSize s3 <=? Impl.currentOffset s3 + n
                  then Impl.fileSize s3 - Impl.currentOffset s3 else n) = n).
  { simpl. rewrite Hs2. destruct (Z.leb_spec (Z.max (Z.max (Z.of_nat (length data)) 0)
                                    (Z.of_nat (length d))) (Z.of_nat (length d) + n)); lia. }
  rewrite Hreq in Hread, Hget4. change (drop (Z.to_nat 0) data) with data in Hread, Hget4.
  assert (Hgot : Z.of_nat (length (take (Z.to_nat n) data)) = n)
    by (rewrite length_take; lia).
  rewrite Hgot in Hread, Hget4.
  set (s4 := Impl.set_offsets s3 (Impl.currentOffset s3 + n) (Impl.fileSize s3)) in *.
  set (f4 := {| Native.path := Native.path f2; Native.readable := Native.readable f2;
                Native.writable := Native.writable f2; Native.pos := 0 + n |}) in *.
  (* the close *)
  assert (Hw4 : writer s4 os4 f4).
  { split; [exact Hm2 |]. split; [exact Hget4 |]. split; [exact Hwb2 | congruence]. }
  destruct (close_image s4 os4 f4 Hw4) as (s5 & os5 & Hclose & Hfile5 & _).
  { simpl. rewrite Hfiles4, Hp2, Hfile. eauto. }
  exists s0, os1, s5, os5. split; [exact Hmake |]. split.
  - change [OpWrite data; OpSeek 0; OpWrite d; OpRead n; OpClose]
      with ([OpWrite data; OpSeek 0] ++ [OpWrite d; OpRead n; OpClose]).
    rewrite run_app, Hrun. cbn [run exec]. unfold FileStream.writesome, FileStream.close.
    rewrite Hwrite, Hread, Hclose. reflexivity.
  - simpl in Hfile5. rewrite Hp2 in Hfile5. rewrite Hfile5. f_equal.
    unfold flushed. simpl.
    assert (Hc4 : Native.content os4 fp = data)
      by (unfold Native.content; rewrite Hfiles4, Hfile; reflexivity).
    rewrite Hp2, Hc4. destruct d as [|x d]; [congruence |].
    unfold Native.overwrite.
    replace (Z.to_nat (0 + n) - length data)%nat with 0%nat by lia.
    replace (Z.to_nat (0 + n)) with (Z.to_nat n) by lia. reflexivity.
Qed.

Lemma read_displaces_staged_write_witness :
  exists s0 os1 s os',
    Impl.make boot "out.bin" false ReadWrite = (Returned s0, os1) /\
    run 5 [OpWrite [Byte.x01; Byte.x02; Byte.x03]; OpSeek 0; OpWrite [Byte.xff];
           OpRead 1; OpClose] s0 os1 =
      ([Returned (Wrote 3); Returned Sought; Returned (Wrote 1);
        Returned (Got 1 [Byte.x01]); Returned Closed], s, os') /\
    Native.files os' !! "out.bin" = Some [Byte.x01; Byte.xff; Byte.x03].
Proof.
  pose proof MAX_WRITE_FILE_SIZE_val as HM. pose proof kBufferSize_val as HK.
  apply (read_displaces_staged_write boot "out.bin" false 5
           [Byte.x01; Byte.x02; Byte.x03] [Byte.xff] 1).
  - reflexivity.
  - simpl. lia.
  - discriminate.
  - simpl. lia.
  - lia.
  - simpl. lia.
  - simpl. lia.
Defined.

(** * [GradiantColor] and [IOBuffer] on their own *)

Lemma set_last_snoc (str : list ascii) (x c : ascii) :
  GradiantColor.set_last (str ++ [x]) c = Some (str ++ [c]).
Proof.
  unfold GradiantColor.set_last. rewrite removelast_last.
  destruct str; reflexivity.
Qed.

(** [toString()] joins the four colour strings: the last character of
    the first three (the closing bracket) becomes a slash, and the first
    character of the last three (the opening bracket) is dropped. *)
Theorem gradiant_toString_joins (Color : Type) (Color_toString : Color -> list ascii)
    (g : GradiantColor.t Color) (t m l r : list ascii) (z1 a2 z2 a3 z3 a4 : ascii) :
  Color_toString (GradiantColor.top g) = t ++ [z1] ->
  Color_toString (GradiantColor.middle g) = a2 :: m ++ [z2] ->
  Color_toString (GradiantColor.bottomLeft g) = a3 :: l ++ [z3] ->
  Color_toString (GradiantColor.bottomRight g) = a4 :: r ->
  GradiantColor.toString Color_toString g =
    Some (t ++ "/"%char :: m ++ "/"%char :: l ++ "/"%char :: r).
Proof.
  intros Ht Hm Hl Hr. unfold GradiantColor.toString.
  rewrite Ht, Hm, Hl, Hr. simpl. rewrite !set_last_snoc. simpl.
  rewrite <- !app_assoc. reflexivity.
Qed.

Lemma gradiant_toString_joins_witness :
  GradiantColor.toString (fun c : list ascii => c)
    {| GradiantColor.top := list_ascii_of_string "(1/0/0/1)";
       GradiantColor.middle := list_ascii_of_string "(0/1/0/1)";
       GradiantColor.bottomLeft := list_ascii_of_string "(0/0/1/1)";
       GradiantColor.bottomRight := list_ascii_of_string "(1/1/1/1)" |} =
  Some (list_ascii_of_string "(1/0/0/1" ++ "/"%char ::
        list_ascii_of_string "0/1/0/1" ++ "/"%char ::
        list_ascii_of_string "0/0/1/1" ++ "/"%char ::
        list_ascii_of_string "1/1/1/1)").
Proof.
  apply (gradiant_toString_joins (list ascii) (fun c => c) _
           (list_ascii_of_string "(1/0/0/1") (list_ascii_of_string "0/1/0/1")
           (list_ascii_of_string "0/0/1/1") (list_ascii_of_string "1/1/1/1)")
           ")"%char "("%char ")"%char "("%char ")"%char "("%char); reflexivity.
Defined.

Lemma set_last_defined (str : list ascii) (c : ascii) :
  is_Some (GradiantColor.set_last str c) <-> (1 <= length str)%nat.
Proof.
  destruct str as [|x str]; simpl; split; intros H; try lia; eauto.
  destruct H as [? H]. discriminate.
Qed.

Lemma substr1_set_last_defined (str : list ascii) (c : ascii) :
  is_Some (GradiantColor.substr1 str ≫= (fun str => GradiantColor.set_last str c)) <->
  (2 <= length str)%nat.
Proof.
  destruct str as [|x str]; simpl.
  - split; intros H; [destruct H as [? H]; discriminate | lia].
  - rewrite set_last_defined. lia.
Qed.

(** [toString()] has a result exactly when the strings of the colours
    are long enough for what it does to them: the first one needs a last
    character to overwrite, the two in the middle a first character to
    drop and a last one to overwrite, the fourth a first one to drop.
    On shorter strings [substr(1)] throws or the assignment through
    [--end()] has no character to go to. *)
Theorem gradiant_toString_defined (Color : Type) (Color_toString : Color -> list ascii)
    (g : GradiantColor.t Color) :
  is_Some (GradiantColor.toString Color_toString g) <->
  (1 <= length (Color_toString (GradiantColor.top g)) /\
   2 <= length (Color_toString (GradiantColor.middle g)) /\
   2 <= length (Color_toString (GradiantColor.bottomLeft g)) /\
   1 <= length (Color_toString (GradiantColor.bottomRight g)))%nat.
Proof.
  unfold GradiantColor.toString.
  rewrite <- (set_last_defined (Color_toString (GradiantColor.top g)) "/"%char).
  rewrite <- (substr1_set_last_defined (Color_toString (GradiantColor.middle g)) "/"%char).
  rewrite <- (substr1_set_last_defined (Color_toString (GradiantColor.bottomLeft g)) "/"%char).
  destruct (GradiantColor.set_last (Color_toString (GradiantColor.top g)) "/") as [a |];
    [| simpl; split; [intros [? H]; discriminate | intros ([? H] & _); discriminate]].
  destruct (GradiantColor.substr1 (Color_toString (GradiantColor.middle g)) ≫= _) as [b |];
    [| simpl; split; [intros [? H]; discriminate | intros (_ & [? H] & _); discriminate]].
  destruct (GradiantColor.substr1 (Color_toString (GradiantColor.bottomLeft g)) ≫= _) as [c |];
    [| simpl; split; [intros [? H]; discriminate | intros (_ & _ & [? H] & _); discriminate]].
  destruct (Color_toString (GradiantColor.bottomRight g)) as [|x r]; simpl.
  - split; [intros [? H]; discriminate | intros (_ & _ & _ & H); lia].
  - split; [intros _; repeat split; eauto; lia | eauto].
Qed.

(** ** [IOBuffer::write] *)

(** [IOBuffer::write] takes the bytes there is room for and no more: it
    returns the smaller of the size asked for and the room left, stages
    that prefix of the data behind what was staged, and the buffer never
    grows past its capacity; a full buffer takes nothing and stays as it
    is. *)
Theorem buffer_write_accepts (b : IOBuffer.t) (data : list byte_t) (sz : Z) :
  IOBuffer.size b <= IOBuffer.capacity b ->
  0 <= sz <= Z.of_nat (length data) ->
  let b' := fst (IOBuffer.write b data sz) in
  let n := snd (IOBuffer.write b data sz) in
  n = Z.min sz (IOBuffer.capacity b - IOBuffer.size b) /\
  IOBuffer.staged b' = IOBuffer.staged b ++ take (Z.to_nat n) data /\
  IOBuffer.size b' = IOBuffer.size b + n /\
  IOBuffer.size b' <= IOBuffer.capacity b' /\
  (IOBuffer.size b = IOBuffer.capacity b -> n = 0 /\ b' = b).
Proof.
  unfold IOBuffer.capacity. intros Hb Hsz. rewrite buffer_write_spec. cbn [fst snd].
  set (n := Z.min sz (kBufferSize - IOBuffer.size b)).
  split; [reflexivity |]. split; [reflexivity |].
  assert (Hsize : IOBuffer.size {| IOBuffer.staged := IOBuffer.staged b ++ take (Z.to_nat n) data |}
                  = IOBuffer.size b + n).
  { unfold IOBuffer.size. simpl. rewrite length_app, length_take.
    unfold IOBuffer.size in *. unfold n in *. lia. }
  split; [exact Hsize |]. split; [rewrite Hsize; unfold n; lia |].
  intros Hfull. assert (Hn : n = 0) by (unfold n; lia). split; [exact Hn |].
  rewrite Hn. simpl. rewrite app_nil_r. destruct b. reflexivity.
Qed.

Lemma buffer_write_accepts_witness :
  snd (IOBuffer.write {| IOBuffer.staged := zeros 4095 |} [Byte.x01; Byte.x02] 2) =
    Z.min 2 (IOBuffer.capacity {| IOBuffer.staged := zeros 4095 |} -
             IOBuffer.size {| IOBuffer.staged := zeros 4095 |}) /\
  IOBuffer.size (fst (IOBuffer.write {| IOBuffer.staged := zeros 4095 |}
                        [Byte.x01; Byte.x02] 2)) =
    IOBuffer.size {| IOBuffer.staged := zeros 4095 |} + 1.
Proof.
  pose proof kBufferSize_val as HK.
  destruct (buffer_write_accepts {| IOBuffer.staged := zeros 4095 |} [Byte.x01; Byte.x02] 2)
    as (Hn & _ & Hsize & _).
  - unfold IOBuffer.capacity, IOBuffer.size. simpl IOBuffer.staged. rewrite zeros_length. lia.
  - simpl. lia.
  - split; [exact Hn |]. rewrite Hsize, Hn.
    unfold IOBuffer.capacity, IOBuffer.size. simpl IOBuffer.staged. rewrite zeros_length. lia.
Defined.
